(** * Outbound mailer of the cold-outreach backend (services/emailService.js)

    A shallow embedding of the [EmailService] class: provider initialisation,
    validation, the failover loop of [sendEmail], error classification,
    [healthCheck], [getStats], bulk sending and template personalisation.

    Conventions of the embedding.
    - A JavaScript string is a [string]; a character stands for a UTF-16
      code unit below 256.
    - [undefined]/[null] fields are [None]; a JavaScript truthiness test on
      a string field is [truthy]. Where a template literal writes a
      property that may be null, the two are told apart ([Property.t]).
    - A thrown [Error] is a [JsError] carrying [code] and [message]; an
      [async] method that talks to a transport is a tree of the calls it
      issues ([Prog]), run against the replies of the transport ([exec]).
    - The service object is passed explicitly: every method takes the
      [EmailService] it runs on and returns the one it leaves behind.
    - The [nodemailer] module is the package as published ([nodemailer]);
      [initializeWith] and [sendEmailWith] take another module in its
      place, as the unit tests do with their mock.
    - Logging and metrics calls have no effect on the service and are left
      out. *)

From Stdlib Require Import Ascii String.
From stdpp Require Import base list strings.


(** ** JavaScript strings *)

Module Js.

Definition codeUnit (c : ascii) : nat := nat_of_ascii c.

(** [!s] is false exactly for the empty string. *)
Definition nonEmpty (s : string) : bool :=
  match s with EmptyString => false | String _ _ => true end.

(** Truthiness of a field that is either absent or a string. *)
Definition truthy (f : option string) : bool :=
  match f with None => false | Some s => nonEmpty s end.

(** [a || b] on string fields, with a string literal as last resort. *)
Definition orElse (f : option string) (d : string) : string :=
  match f with
  | Some s => if nonEmpty s then s else d
  | None => d
  end.

(** [`${x}`] for a value that is undefined ([None]) or a string. *)
Definition interpolate (f : option string) : string :=
  match f with Some s => s | None => "undefined" end.

(** [String.prototype.toLowerCase] on code units below 256: the letters
    A-Z and the Latin-1 capitals (0xC0-0xDE without the sign 0xD7). *)
Definition lowerChar (c : ascii) : ascii :=
  let n := codeUnit c in
  if ((65 <=? n) && (n <=? 90)) || ((192 <=? n) && (n <=? 222) && negb (n =? 215))
  then ascii_of_nat (n + 32) else c.

Fixpoint toLowerCase (s : string) : string :=
  match s with
  | EmptyString => EmptyString
  | String c s' => String (lowerChar c) (toLowerCase s')
  end.

(** Canonicalisation of a character under the [i] flag of a regular
    expression (upper-casing, for code units below 256). *)
Definition canonicalize (c : ascii) : ascii :=
  let n := codeUnit c in
  if ((97 <=? n) && (n <=? 122)) || ((224 <=? n) && (n <=? 254) && negb (n =? 247))
  then ascii_of_nat (n - 32) else c.

Fixpoint startsWith (p s : string) : bool :=
  match p, s with
  | EmptyString, _ => true
  | String a p', String b s' => Ascii.eqb a b && startsWith p' s'
  | String _ _, EmptyString => false
  end.

(** [s.includes(p)] *)
Fixpoint includes (s p : string) : bool :=
  startsWith p s ||
  match s with
  | EmptyString => false
  | String _ s' => includes s' p
  end.

(** [Array.prototype.includes] on an array of strings. *)
Definition arrayIncludes (l : list string) (x : string) : bool :=
  existsb (String.eqb x) l.

Fixpoint take (n : nat) (s : string) : string :=
  match n, s with
  | S n', String c s' => String c (take n' s')
  | _, _ => EmptyString
  end.

Fixpoint drop (n : nat) (s : string) : string :=
  match n, s with
  | S n', String _ s' => drop n' s'
  | _, _ => s
  end.

(** The white space class [\s], on code units below 256. *)
Definition isWhiteSpace (c : ascii) : bool :=
  let n := codeUnit c in
  ((9 <=? n) && (n <=? 13)) || (n =? 32) || (n =? 160).

End Js.

(** ** Regular expressions, as far as the service uses them *)

Module Regex.

Inductive regex : Type :=
| Never
| Empty
| Class (p : ascii -> bool)
| Seq (r1 r2 : regex)
| Or (r1 r2 : regex)
| Many (r : regex).

Definition Plus (r : regex) : regex := Seq r (Many r).
Definition Lit (c : ascii) : regex := Class (Ascii.eqb c).

Fixpoint nullable (r : regex) : bool :=
  match r with
  | Never => false
  | Empty => true
  | Class _ => false
  | Seq r1 r2 => nullable r1 && nullable r2
  | Or r1 r2 => nullable r1 || nullable r2
  | Many _ => true
  end.

(** Brzozowski derivative. *)
Fixpoint deriv (c : ascii) (r : regex) : regex :=
  match r with
  | Never => Never
  | Empty => Never
  | Class p => if p c then Empty else Never
  | Seq r1 r2 =>
      if nullable r1 then Or (Seq (deriv c r1) r2) (deriv c r2)
      else Seq (deriv c r1) r2
  | Or r1 r2 => Or (deriv c r1) (deriv c r2)
  | Many r' => Seq (deriv c r') (Many r')
  end.

(** [/^r$/.test(s)]: the whole of [s] is in the language of [r]. *)
Fixpoint test (r : regex) (s : string) : bool :=
  match s with
  | EmptyString => nullable r
  | String c s' => test (deriv c r) s'
  end.

End Regex.

(** ** Data model *)

(** A thrown value: [new Error(message)], or a transport error, which
    carries a [code] as well. *)
Record JsError : Type := { code : option string; message : string }.

Definition Error (msg : string) : JsError := {| code := None; message := msg |}.

(** What calling a property that is not a function throws. The service
    reads the code and the message of an error and nothing else, so its
    class is not recorded. *)
Definition TypeError (msg : string) : JsError := {| code := None; message := msg |}.

(** One entry of [config.email.providers]. *)
Module Provider.
Record Auth : Type := { user : option string; pass : option string }.
Record t : Type :=
  { name : string; host : option string; port : nat; secure : bool; auth : Auth }.
End Provider.

(** The options object handed to [nodemailer.createTransporter], and a
    pooled transport, known by the options it was made with. *)
Module Transport.
Record Options : Type :=
  { host : option string;
    port : nat;
    secure : bool;
    auth : Provider.Auth;
    pool : bool;
    maxConnections : nat;
    maxMessages : nat;
    rateDelta : nat;
    rateLimit : nat;
    tlsRejectUnauthorized : bool }.
End Transport.

Inductive Transporter : Type :=
| transportFor (options : Transport.Options).

(** The [nodemailer] module as [require] hands it to the service, as far as
    the service uses it: its [createTransporter] property, when it has
    one. *)
Module Nodemailer.
Record t : Type := { createTransporter : option (Transport.Options -> Transporter) }.
End Nodemailer.

(** The package itself. It exports [createTransport], [createTestAccount]
    and [getTestMessageUrl]; there is no [createTransporter] among its
    exports, so [nodemailer.createTransporter] is undefined. *)
Definition nodemailer : Nodemailer.t := {| Nodemailer.createTransporter := None |}.

(** The module that the unit tests put in its place with [jest.mock]:
    [createTransporter] is a function there and yields a transport. *)
Definition jestMock : Nodemailer.t := {| Nodemailer.createTransporter := Some transportFor |}.

(** An element of [this.transporters]. *)
Record TransporterInfo : Type :=
  { transporter : Transporter;
    name : string;
    isHealthy : bool;
    lastError : option string;
    emailsSent : nat }.

(** The fields of the service object that its methods read or write. *)
Record EmailService : Type :=
  { transporters : list TransporterInfo;
    isInitialized : bool }.

(** [new EmailService()] *)
Definition newEmailService : EmailService :=
  {| transporters := []; isInitialized := false |}.

(** The [to] field: one address or an array of addresses. *)
Inductive Recipients : Type :=
| Address (a : string)
| Addresses (l : list string).

Module EmailData.
Record t : Type :=
  { to : option Recipients;
    subject : option string;
    text : option string;
    html : option string;
    from : option string;
    replyTo : option string;
    attachments : option (list string) }.
End EmailData.

(** The [mailOptions] object built by [sendWithTransporter]. *)
Module MailOptions.
Record t : Type :=
  { from : option string;
    to : option Recipients;
    subject : option string;
    text : option string;
    html : option string;
    replyTo : option string;
    attachments : list string;
    headers : list (string * string) }.
End MailOptions.

(** What the transport's [sendMail] resolves with. *)
Record SentInfo : Type := { info_messageId : string; info_response : string }.

(** What [sendEmail] resolves with. *)
Record SendResult : Type :=
  { success : bool;
    messageId : string;
    provider : string;
    response : string }.

(** ** Calls to the transports *)

(** A method that awaits transports is the tree of the calls it issues:
    [Verify] is [transporter.verify()], which resolves ([None]) or rejects
    with an error; [SendMail] is [transporter.sendMail(mailOptions)]. *)
Inductive Prog (A : Type) : Type :=
| Ret (a : A)
| Verify (t : Transporter) (k : option JsError -> Prog A)
| SendMail (t : Transporter) (o : MailOptions.t) (k : JsError + SentInfo -> Prog A).

Arguments Ret {A} a.
Arguments Verify {A} t k.
Arguments SendMail {A} t o k.

Fixpoint bind {A B : Type} (p : Prog A) (f : A -> Prog B) : Prog B :=
  match p with
  | Ret a => f a
  | Verify t k => Verify t (fun r => bind (k r) f)
  | SendMail t o k => SendMail t o (fun r => bind (k r) f)
  end.

Global Instance prog_ret : MRet Prog := @Ret.
Global Instance prog_bind : MBind Prog := fun A B f p => bind p f.

(** A call as observed on the network, and the reply of the transport. *)
Inductive Call : Type :=
| VerifyCall (t : Transporter)
| SendMailCall (t : Transporter) (o : MailOptions.t).

Inductive Reply : Type :=
| VerifyReply (r : option JsError)
| SendMailReply (r : JsError + SentInfo).

Definition isSendMailCall (c : Call) : bool :=
  match c with SendMailCall _ _ => true | VerifyCall _ => false end.

Definition issued {A : Type} (c : Call) (r : option (A * list Call)) : option (A * list Call) :=
  match r with
  | Some (a, calls) => Some (a, c :: calls)
  | None => None
  end.

(** [exec p script] runs [p] against the replies of [script], one per
    call and in order; it yields the result with the calls issued, and
    [None] when the script does not fit the calls of [p]. *)
Fixpoint exec {A : Type} (p : Prog A) (script : list Reply) : option (A * list Call) :=
  match p, script with
  | Ret a, [] => Some (a, [])
  | Verify t k, VerifyReply r :: script' => issued (VerifyCall t) (exec (k r) script')
  | SendMail t o k, SendMailReply r :: script' => issued (SendMailCall t o) (exec (k r) script')
  | _, _ => None
  end.

(** ** The service *)

(** *** initialize *)

Definition transportOptions (provider : Provider.t) : Transport.Options :=
  {| Transport.host := Provider.host provider;
     Transport.port := Provider.port provider;
     Transport.secure := Provider.secure provider;
     Transport.auth :=
       {| Provider.user := Provider.user (Provider.auth provider);
          Provider.pass := Provider.pass (Provider.auth provider) |};
     Transport.pool := true;
     Transport.maxConnections := 5;
     Transport.maxMessages := 100;
     Transport.rateDelta := 1000;
     Transport.rateLimit := 5;
     Transport.tlsRejectUnauthorized := false |}.

(** [provider.host && provider.auth.user && provider.auth.pass] *)
Definition hasCredentials (provider : Provider.t) : bool :=
  Js.truthy (Provider.host provider)
  && Js.truthy (Provider.user (Provider.auth provider))
  && Js.truthy (Provider.pass (Provider.auth provider)).

(** The channel pushed for a provider and its transport, by the outcome
    of [verify()]. *)
Definition pushedChannel (transporter : Transporter) (provider : Provider.t)
  (outcome : option JsError) : TransporterInfo :=
  match outcome with
  | None =>
      {| transporter := transporter;
         name := Provider.name provider;
         isHealthy := true;
         lastError := None;
         emailsSent := 0 |}
  | Some verifyError =>
      {| transporter := transporter;
         name := Provider.name provider;
         isHealthy := false;
         lastError := Some (message verifyError);
         emailsSent := 0 |}
  end.

(** The loop over [config.email.providers], for the module [lib] in the
    place of [nodemailer]; [pushed] is [this.transporters] as filled so
    far. The loop ends with the channels pushed and the error thrown, if
    any: where the module has no [createTransporter], the call of it
    throws a TypeError for the first provider that has its credentials. *)
Fixpoint initializeLoop (lib : Nodemailer.t) (providers : list Provider.t)
  (pushed : list TransporterInfo) : Prog (list TransporterInfo * option JsError) :=
  match providers with
  | [] => Ret (pushed, None)
  | provider :: providers' =>
      if hasCredentials provider
      then
        match Nodemailer.createTransporter lib with
        | Some createTransporter =>
            let transporter := createTransporter (transportOptions provider) in
            Verify transporter
              (fun outcome =>
                 initializeLoop lib providers'
                   (pushed ++ [pushedChannel transporter provider outcome]))
        | None =>
            Ret (pushed, Some (TypeError "nodemailer.createTransporter is not a function"))
        end
      else initializeLoop lib providers' pushed
  end.

(** [initialize()] with the module [lib] in the place of [nodemailer]: the
    service it leaves, and the error it throws if any. The [catch] block
    logs the error and throws it again. *)
Definition initializeWith (lib : Nodemailer.t) (config : list Provider.t)
  (this : EmailService) : Prog (EmailService * (JsError + unit)) :=
  if isInitialized this then Ret (this, inr tt)
  else
    '(pushed, thrown) ← initializeLoop lib config [];
    match thrown with
    | Some error => Ret ({| transporters := pushed; isInitialized := false |}, inl error)
    | None =>
        if length pushed =? 0
        then Ret ({| transporters := pushed; isInitialized := false |},
                  inl (Error "No email providers configured"))
        else Ret ({| transporters := pushed; isInitialized := true |}, inr tt)
    end.

(** [initialize()], with the module that the service requires. *)
Definition initialize (config : list Provider.t) (this : EmailService)
  : Prog (EmailService * (JsError + unit)) :=
  initializeWith nodemailer config this.

(** *** validateEmailData *)

(** [/^[^\s@]+@[^\s@]+\.[^\s@]+$/] *)
Definition notSpaceNorAt (c : ascii) : bool :=
  negb (Js.isWhiteSpace c) && negb (Ascii.eqb c "@").

Definition emailRegex : Regex.regex :=
  Regex.Seq (Regex.Plus (Regex.Class notSpaceNorAt))
    (Regex.Seq (Regex.Lit "@")
       (Regex.Seq (Regex.Plus (Regex.Class notSpaceNorAt))
          (Regex.Seq (Regex.Lit ".") (Regex.Plus (Regex.Class notSpaceNorAt))))).

Definition isValidEmail (email : string) : bool := Regex.test emailRegex email.

(** [!emailData.to] is true for a missing field and for the empty string;
    an array is truthy, also the empty one. *)
Definition toPresent (to : option Recipients) : bool :=
  match to with
  | None => false
  | Some (Address a) => Js.nonEmpty a
  | Some (Addresses _) => true
  end.

(** [Array.isArray(emailData.to) ? emailData.to : [emailData.to]], once
    the field is present. *)
Definition recipients (to : option Recipients) : list string :=
  match to with
  | None => []
  | Some (Address a) => [a]
  | Some (Addresses l) => l
  end.

Definition validateEmailData (emailData : EmailData.t) : JsError + unit :=
  if negb (toPresent (EmailData.to emailData))
  then inl (Error "Recipient email is required")
  else if negb (Js.truthy (EmailData.subject emailData))
  then inl (Error "Email subject is required")
  else if negb (Js.truthy (EmailData.text emailData)) && negb (Js.truthy (EmailData.html emailData))
  then inl (Error "Email content (text or html) is required")
  else
    match List.find (fun email => negb (isValidEmail email)) (recipients (EmailData.to emailData)) with
    | Some email => inl (Error ("Invalid recipient email: " +:+ email))
    | None =>
        match EmailData.from emailData with
        | Some sender =>
            if Js.nonEmpty sender && negb (isValidEmail sender)
            then inl (Error ("Invalid sender email: " +:+ sender))
            else inr tt
        | None => inr tt
        end
    end.

(** *** isPersistentError *)

Definition persistentErrorCodes : list string := ["EAUTH"; "EENVELOPE"; "EMESSAGE"].

Definition persistentErrorMessages : list string :=
  ["Invalid login";
   "Authentication failed";
   "Username and Password not accepted";
   "Invalid credentials"].

Definition isPersistentError (error : JsError) : bool :=
  match code error with
  | Some c => Js.arrayIncludes persistentErrorCodes c
  | None => false
  end
  || existsb (fun msg => Js.includes (Js.toLowerCase (message error)) (Js.toLowerCase msg))
       persistentErrorMessages.

(** *** sendEmail *)

Definition mailOptions (emailData : EmailData.t) : MailOptions.t :=
  {| MailOptions.from := EmailData.from emailData;
     MailOptions.to := EmailData.to emailData;
     MailOptions.subject := EmailData.subject emailData;
     MailOptions.text := EmailData.text emailData;
     MailOptions.html := EmailData.html emailData;
     MailOptions.replyTo := EmailData.replyTo emailData;
     MailOptions.attachments := default [] (EmailData.attachments emailData);
     MailOptions.headers := [("X-Mailer", "Cold Outreach Platform"); ("X-Priority", "3")] |}.

(** [sendWithTransporter(transporterInfo, emailData)] *)
Definition sendWithTransporter {A : Type} (transporterInfo : TransporterInfo)
  (emailData : EmailData.t) (k : JsError + SentInfo -> Prog A) : Prog A :=
  SendMail (transporter transporterInfo) (mailOptions emailData) k.

(** [this.transporters.filter(t => t.isHealthy)]. The array holds the very
    objects of [this.transporters]: such a reference is the position of the
    object in [this.transporters], kept with the object as it was read. *)
Definition healthyTransporters (this : EmailService) : list (nat * TransporterInfo) :=
  filter (fun it => isHealthy it.2) (imap pair (transporters this)).

(** [transporterInfo.emailsSent++] on the object at position [i]. *)
Definition countSent (i : nat) (this : EmailService) : EmailService :=
  {| transporters :=
       alter (fun info =>
                {| transporter := transporter info;
                   name := name info;
                   isHealthy := isHealthy info;
                   lastError := lastError info;
                   emailsSent := S (emailsSent info) |}) i (transporters this);
     isInitialized := isInitialized this |}.

(** [transporterInfo.isHealthy = false; transporterInfo.lastError = msg] on
    the object at position [i]. *)
Definition markUnhealthy (i : nat) (msg : string) (this : EmailService) : EmailService :=
  {| transporters :=
       alter (fun info =>
                {| transporter := transporter info;
                   name := name info;
                   isHealthy := false;
                   lastError := Some msg;
                   emailsSent := emailsSent info |}) i (transporters this);
     isInitialized := isInitialized this |}.

(** The [catch] block of the loop of [sendEmail]. *)
Definition recordFailure (i : nat) (error : JsError) (this : EmailService) : EmailService :=
  if isPersistentError error then markUnhealthy i (message error) this else this.

Definition allProvidersFailed (lastErr : option JsError) : JsError :=
  Error ("Failed to send email with all providers. Last error: "
         +:+ Js.interpolate (message <$> lastErr)).

(** The [for] loop of [sendEmail] over the healthy transporters, and the
    [throw] that follows it. *)
Fixpoint sendLoop (emailData : EmailData.t) (healthy : list (nat * TransporterInfo))
  (lastErr : option JsError) (this : EmailService)
  : Prog (EmailService * (JsError + SendResult)) :=
  match healthy with
  | [] => Ret (this, inl (allProvidersFailed lastErr))
  | (i, transporterInfo) :: healthy' =>
      sendWithTransporter transporterInfo emailData
        (fun outcome =>
           match outcome with
           | inr result =>
               Ret (countSent i this,
                    inr {| success := true;
                           messageId := info_messageId result;
                           provider := name transporterInfo;
                           response := info_response result |})
           | inl error =>
               sendLoop emailData healthy' (Some error) (recordFailure i error this)
           end)
  end.

(** [sendEmail] once [initialize()] has returned. *)
Definition sendInitialized (this : EmailService) (emailData : EmailData.t)
  : Prog (EmailService * (JsError + SendResult)) :=
  match validateEmailData emailData with
  | inl error => Ret (this, inl error)
  | inr _ =>
      if length (healthyTransporters this) =? 0
      then Ret (this, inl (Error "No healthy email providers available"))
      else sendLoop emailData (healthyTransporters this) None this
  end.

(** [sendEmail(emailData)] with the module [lib] in the place of
    [nodemailer]: the lazy initialisation comes first. *)
Definition sendEmailWith (lib : Nodemailer.t) (config : list Provider.t)
  (this : EmailService) (emailData : EmailData.t)
  : Prog (EmailService * (JsError + SendResult)) :=
  '(this', initialized) ← initializeWith lib config this;
  match initialized with
  | inl error => Ret (this', inl error)
  | inr _ => sendInitialized this' emailData
  end.

(** [sendEmail(emailData)], with the module that the service requires. *)
Definition sendEmail (config : list Provider.t) (this : EmailService) (emailData : EmailData.t)
  : Prog (EmailService * (JsError + SendResult)) :=
  sendEmailWith nodemailer config this emailData.

(** *** healthCheck and getStats *)

Module Health.
Record Status : Type :=
  { name : string;
    isHealthy : bool;
    lastError : option string;
    emailsSent : nat }.
Record Report : Type := { overall : bool; providers : list Status }.
End Health.

(** One turn of the loop of [healthCheck]: the object after the handshake,
    and the entry pushed to [healthStatus]. *)
Definition recheck (info : TransporterInfo) (outcome : option JsError) : TransporterInfo :=
  match outcome with
  | None =>
      {| transporter := transporter info;
         name := name info;
         isHealthy := true;
         lastError := None;
         emailsSent := emailsSent info |}
  | Some error =>
      {| transporter := transporter info;
         name := name info;
         isHealthy := false;
         lastError := Some (message error);
         emailsSent := emailsSent info |}
  end.

Definition healthEntry (info : TransporterInfo) (outcome : option JsError) : Health.Status :=
  match outcome with
  | None =>
      {| Health.name := name info;
         Health.isHealthy := true;
         Health.lastError := None;
         Health.emailsSent := emailsSent info |}
  | Some error =>
      {| Health.name := name info;
         Health.isHealthy := false;
         Health.lastError := Some (message error);
         Health.emailsSent := emailsSent info |}
  end.

(** The loop over [this.transporters]: [pending] are the objects still to
    visit, [visited] the ones already rewritten. *)
Fixpoint healthCheckLoop (pending visited : list TransporterInfo)
  (healthStatus : list Health.Status) : Prog (list TransporterInfo * list Health.Status) :=
  match pending with
  | [] => Ret (visited, healthStatus)
  | info :: pending' =>
      Verify (transporter info)
        (fun outcome =>
           healthCheckLoop pending' (visited ++ [recheck info outcome])
             (healthStatus ++ [healthEntry info outcome]))
  end.

Definition healthCheck (this : EmailService) : Prog (EmailService * Health.Report) :=
  '(visited, healthStatus) ← healthCheckLoop (transporters this) [] [];
  Ret ({| transporters := visited; isInitialized := isInitialized this |},
       {| Health.overall := existsb Health.isHealthy healthStatus;
          Health.providers := healthStatus |}).

Module Stats.
Record Entry : Type :=
  { name : string;
    isHealthy : bool;
    emailsSent : nat;
    lastError : option string }.
Record t : Type :=
  { providers : list Entry; totalProviders : nat; healthyProviders : nat }.
End Stats.

Definition getStats (this : EmailService) : Stats.t :=
  {| Stats.providers :=
       map (fun t => {| Stats.name := name t;
                        Stats.isHealthy := isHealthy t;
                        Stats.emailsSent := emailsSent t;
                        Stats.lastError := lastError t |}) (transporters this);
     Stats.totalProviders := length (transporters this);
     Stats.healthyProviders := length (filter (fun t => isHealthy t) (transporters this)) |}.

(** *** createPersonalizedEmail *)

(** [GetSubstitution] of [String.prototype.replace] for a pattern without
    capture groups: [$$] is a dollar sign, [$&] the matched text, [$`] and
    [$'] the text before and after the match; any other [$] stands for
    itself. *)
Fixpoint getSubstitution (matched before after replacement : string) : string :=
  match replacement with
  | EmptyString => EmptyString
  | String c r =>
      if Ascii.eqb c "$"
      then
        match r with
        | EmptyString => String c EmptyString
        | String d r' =>
            if Ascii.eqb d "$" then String "$" (getSubstitution matched before after r')
            else if Ascii.eqb d "&" then matched +:+ getSubstitution matched before after r'
            else if Ascii.eqb d "`" then before +:+ getSubstitution matched before after r'
            else if Ascii.eqb d "'" then after +:+ getSubstitution matched before after r'
            else String c (getSubstitution matched before after r)
        end
      else String c (getSubstitution matched before after r)
  end.

(** A pattern of literal characters under the [i] flag matches at the
    head of [s]. *)
Fixpoint matchesAt (pattern s : string) : bool :=
  match pattern, s with
  | EmptyString, _ => true
  | String a pattern', String b s' =>
      Ascii.eqb (Js.canonicalize a) (Js.canonicalize b) && matchesAt pattern' s'
  | String _ _, EmptyString => false
  end.

(** The scan of [whole.replace(new RegExp(pattern, 'gi'), replacement)] for
    a non-empty pattern of literal characters: [rest] is [whole] from
    [position] on, and [skip] counts the characters of the last match still
    to pass over. *)
Fixpoint replaceFrom (pattern replacement whole : string) (position skip : nat)
  (rest : string) : string :=
  match rest with
  | EmptyString => EmptyString
  | String c rest' =>
      match skip with
      | S skip' => replaceFrom pattern replacement whole (S position) skip' rest'
      | 0 =>
          if matchesAt pattern rest
          then
            getSubstitution (Js.take (String.length pattern) rest)
              (Js.take position whole)
              (Js.drop (position + String.length pattern) whole) replacement
            +:+ replaceFrom pattern replacement whole (S position)
                  (String.length pattern - 1) rest'
          else String c (replaceFrom pattern replacement whole (S position) 0 rest')
      end
  end.

Definition replaceAll (pattern replacement whole : string) : string :=
  replaceFrom pattern replacement whole 0 0 whole.

Module Prospect.
Record t : Type :=
  { firstName : option string;
    lastName : option string;
    fullName : option string;
    company : option string;
    jobTitle : option string;
    location : option string }.
End Prospect.

Module Campaign.
Record t : Type :=
  { name : option string; senderName : option string; senderEmail : option string }.
End Campaign.

Module Template.
Record t : Type :=
  { subject : string; content : string; htmlContent : option string }.
End Template.

Module Personalized.
Record t : Type := { subject : string; text : string; html : option string }.
End Personalized.

(** The [variables] object, in the order of its keys. *)
Definition variables (prospect : Prospect.t) (campaignData : Campaign.t)
  : list (string * string) :=
  [("firstName", Js.orElse (Prospect.firstName prospect) "there");
   ("lastName", Js.orElse (Prospect.lastName prospect) EmptyString);
   ("fullName",
     Js.orElse (Prospect.fullName prospect) (Js.orElse (Prospect.firstName prospect) "there"));
   ("company", Js.orElse (Prospect.company prospect) "your company");
   ("jobTitle", Js.orElse (Prospect.jobTitle prospect) "your role");
   ("location", Js.orElse (Prospect.location prospect) EmptyString);
   ("campaignName", Js.orElse (Campaign.name campaignData) EmptyString);
   ("senderName", Js.orElse (Campaign.senderName campaignData) EmptyString);
   ("senderEmail", Js.orElse (Campaign.senderEmail campaignData) EmptyString)].

(** The source of the regular expression, [`{{${key}}}`]. For the keys of
    [variables] its braces form no quantifier: every character is literal. *)
Definition placeholder (key : string) : string := "{{" +:+ key +:+ "}}".

(** One turn of [Object.entries(variables).forEach]. *)
Definition personalizeWith (acc : Personalized.t) (entry : string * string) : Personalized.t :=
  {| Personalized.subject :=
       replaceAll (placeholder entry.1) entry.2 (Personalized.subject acc);
     Personalized.text :=
       replaceAll (placeholder entry.1) entry.2 (Personalized.text acc);
     Personalized.html :=
       match Personalized.html acc with
       | Some h =>
           if Js.nonEmpty h then Some (replaceAll (placeholder entry.1) entry.2 h)
           else Some h
       | None => None
       end |}.

Definition createPersonalizedEmail (template : Template.t) (prospect : Prospect.t)
  (campaignData : Campaign.t) : Personalized.t :=
  fold_left personalizeWith (variables prospect campaignData)
    {| Personalized.subject := Template.subject template;
       Personalized.text := Template.content template;
       Personalized.html := Template.htmlContent template |}.

(** *** sendBulkEmails *)

Module BulkOptions.
Record t : Type :=
  { batchSize : option nat;
    delayBetweenBatches : option nat;
    continueOnError : option bool }.
End BulkOptions.

Module Bulk.
Record Sent : Type :=
  { sent_index : nat; sent_email : option Recipients; sent_result : SendResult }.
Record Failed : Type :=
  { failed_index : nat; failed_email : option Recipients; failed_error : string }.
Record Results : Type :=
  { sent : list Sent; failed : list Failed; total : nat }.
End Bulk.

(** What [sendBulkEmails] does, as seen from outside: a wave is the batch
    whose [sendEmail] calls are started together, each message with its
    index in the input; a pause is one [delay(delayBetweenBatches)]. *)
Inductive BulkEvent : Type :=
| Wave (batch : list (nat * EmailData.t))
| Pause (ms : nat).

(** [emails.slice(i, j)] *)
Definition slice {A : Type} (i j : nat) (l : list A) : list A :=
  take (j - i) (drop i l).

Section SendBulkEmails.

(** The calls of one wave run interleaved on the shared service, so how
    the call for the message at an input index settles is taken as given,
    and so is the order in which the calls of a wave settle. *)
Variable settles : nat -> EmailData.t -> JsError + SendResult.
Variable settleOrder : list (nat * EmailData.t) -> list (nat * EmailData.t).

(** The callbacks of one wave, in the order in which they settle; a
    rejected callback rejects [Promise.all]. *)
Fixpoint settleBatch (continueOnError : bool) (settling : list (nat * EmailData.t))
  (results : Bulk.Results) : JsError + Bulk.Results :=
  match settling with
  | [] => inr results
  | (index, email) :: settling' =>
      match settles index email with
      | inr result =>
          settleBatch continueOnError settling'
            {| Bulk.sent :=
                 Bulk.sent results
                 ++ [{| Bulk.sent_index := index;
                        Bulk.sent_email := EmailData.to email;
                        Bulk.sent_result := result |}];
               Bulk.failed := Bulk.failed results;
               Bulk.total := Bulk.total results |}
      | inl error =>
          let results' :=
            {| Bulk.sent := Bulk.sent results;
               Bulk.failed :=
                 Bulk.failed results
                 ++ [{| Bulk.failed_index := index;
                        Bulk.failed_email := EmailData.to email;
                        Bulk.failed_error := message error |}];
               Bulk.total := Bulk.total results |} in
          if continueOnError then settleBatch continueOnError settling' results'
          else inl error
      end
  end.

(** The [for] loop over the batches. [fuel] bounds the number of turns:
    with a batch size of zero the loop of the source never ends, and the
    model has no result. *)
Fixpoint bulkLoop (emails : list EmailData.t) (batchSize delayBetweenBatches : nat)
  (continueOnError : bool) (fuel i : nat) (results : Bulk.Results)
  : option ((JsError + Bulk.Results) * list BulkEvent) :=
  if i <? length emails
  then
    match fuel with
    | 0 => None
    | S fuel' =>
        let batch := slice i (i + batchSize) emails in
        let wave := imap (fun index email => (i + index, email)) batch in
        match settleBatch continueOnError (settleOrder wave) results with
        | inl error => Some (inl error, [Wave wave])
        | inr results' =>
            let pause :=
              if i + batchSize <? length emails then [Pause delayBetweenBatches] else [] in
            match bulkLoop emails batchSize delayBetweenBatches continueOnError
                    fuel' (i + batchSize) results' with
            | Some (outcome, events) => Some (outcome, Wave wave :: pause ++ events)
            | None => None
            end
        end
    end
  else Some (inr results, []).

Definition sendBulkEmails (emails : list EmailData.t) (options : BulkOptions.t)
  : option ((JsError + Bulk.Results) * list BulkEvent) :=
  bulkLoop emails
    (default 10 (BulkOptions.batchSize options))
    (default 1000 (BulkOptions.delayBetweenBatches options))
    (default true (BulkOptions.continueOnError options))
    (length emails) 0
    {| Bulk.sent := []; Bulk.failed := []; Bulk.total := length emails |}.

End SendBulkEmails.


(** * The scraping service and the further methods of the email service

    Rational numbers stand for the progress of a scraping job, and a finite
    map for the [Map] of the active jobs. *)

From Stdlib Require Import QArith Qminmax.
From stdpp Require Import gmap.

(** *** sendFollowUp *)

(** The keys of [followUpData] that [sendEmail] reads. A key of the object
    is absent ([None]) or present, and then its value may still be
    undefined ([Some None]): the spread copies every key that is present. *)
Module FollowUpData.
Record t : Type :=
  { to : option (option Recipients);
    subject : option (option string);
    text : option (option string);
    html : option (option string);
    from : option (option string);
    replyTo : option (option string);
    attachments : option (option (list string)) }.
End FollowUpData.

(** A property that is undefined, null or a string. Where the service
    tests such a property or hands it on, undefined and null do the same,
    and it is a field that is absent or a string; a template literal
    writes the two differently. *)
Module Property.
Inductive t : Type :=
| Undefined
| Null
| Str (s : string).

Definition field (p : t) : option string :=
  match p with
  | Str s => Some s
  | Undefined | Null => None
  end.

(** [`${p}`] *)
Definition interpolate (p : t) : string :=
  match p with
  | Undefined => "undefined"
  | Null => "null"
  | Str s => s
  end.
End Property.

(** The email that is followed up: the properties that [sendEmail] reads
    off an email, and the id it was sent under. *)
Module OriginalEmail.
Record t : Type :=
  { to : option Recipients;
    subject : Property.t;
    text : option string;
    html : option string;
    from : option string;
    replyTo : option string;
    attachments : option (list string);
    messageId : option string }.

(** The email as [sendEmail] reads it. *)
Definition fields (originalEmail : t) : EmailData.t :=
  {| EmailData.to := to originalEmail;
     EmailData.subject := Property.field (subject originalEmail);
     EmailData.text := text originalEmail;
     EmailData.html := html originalEmail;
     EmailData.from := from originalEmail;
     EmailData.replyTo := replyTo originalEmail;
     EmailData.attachments := attachments originalEmail |}.
End OriginalEmail.

(** The object [followUpEmail]: the fields that [sendEmail] reads, and the
    [headers] key. *)
Module FollowUpEmail.
Record t : Type :=
  { fields : EmailData.t; headers : list (string * option string) }.
End FollowUpEmail.

(** One key of [{...originalEmail, ...followUpData}]. *)
Definition spread {A : Type} (original : option A) (followUp : option (option A)) : option A :=
  match followUp with
  | Some value => value
  | None => original
  end.

(** [followUpData.subject || `Re: ${originalEmail.subject}`] *)
Definition followUpSubject (originalEmail : OriginalEmail.t) (followUpData : FollowUpData.t)
  : string :=
  Js.orElse (mjoin (FollowUpData.subject followUpData))
    ("Re: " +:+ Property.interpolate (OriginalEmail.subject originalEmail)).

Definition followUpEmail (originalEmail : OriginalEmail.t) (followUpData : FollowUpData.t)
  : FollowUpEmail.t :=
  {| FollowUpEmail.fields :=
       {| EmailData.to :=
            spread (EmailData.to (OriginalEmail.fields originalEmail))
              (FollowUpData.to followUpData);
          EmailData.subject := Some (followUpSubject originalEmail followUpData);
          EmailData.text :=
            spread (EmailData.text (OriginalEmail.fields originalEmail))
              (FollowUpData.text followUpData);
          EmailData.html :=
            spread (EmailData.html (OriginalEmail.fields originalEmail))
              (FollowUpData.html followUpData);
          EmailData.from :=
            spread (EmailData.from (OriginalEmail.fields originalEmail))
              (FollowUpData.from followUpData);
          EmailData.replyTo :=
            spread (EmailData.replyTo (OriginalEmail.fields originalEmail))
              (FollowUpData.replyTo followUpData);
          EmailData.attachments :=
            spread (EmailData.attachments (OriginalEmail.fields originalEmail))
              (FollowUpData.attachments followUpData) |};
     FollowUpEmail.headers :=
       [("In-Reply-To", OriginalEmail.messageId originalEmail);
        ("References", OriginalEmail.messageId originalEmail)] |}.

(** [sendFollowUp]: [sendEmail] reads its seven fields off the object and
    no other key. *)
Definition sendFollowUp (config : list Provider.t) (this : EmailService)
  (originalEmail : OriginalEmail.t) (followUpData : FollowUpData.t)
  : Prog (EmailService * (JsError + SendResult)) :=
  sendEmail config this (FollowUpEmail.fields (followUpEmail originalEmail followUpData)).

(** *** checkEmailService (routes/health.js) *)

Module EmailHealth.
Record t : Type := { healthy : bool; providers : nat }.
End EmailHealth.

(** The [try] block of [checkEmailService]; [healthCheck] catches the
    failure of every handshake itself. *)
Definition checkEmailService (this : EmailService) : Prog (EmailService * EmailHealth.t) :=
  '(this', healthCheck) ← healthCheck this;
  Ret (this',
       {| EmailHealth.healthy := Health.overall healthCheck;
          EmailHealth.providers := length (Health.providers healthCheck) |}).

(** ** ScrapingService (services/scrapingService.js) *)

(** *** cleanText *)

(** [text.replace(/\s+/g, ' ')]: every maximal run of white space becomes
    one space. [inRun] tells that the character before was white space. *)
Fixpoint replaceWhiteSpaceRuns (inRun : bool) (text : string) : string :=
  match text with
  | EmptyString => EmptyString
  | String c text' =>
      if Js.isWhiteSpace c
      then if inRun then replaceWhiteSpaceRuns true text'
           else String " " (replaceWhiteSpaceRuns true text')
      else String c (replaceWhiteSpaceRuns false text')
  end.

Fixpoint trimStart (s : string) : string :=
  match s with
  | EmptyString => EmptyString
  | String c s' => if Js.isWhiteSpace c then trimStart s' else s
  end.

Fixpoint trimEnd (s : string) : string :=
  match s with
  | EmptyString => EmptyString
  | String c s' =>
      match trimEnd s' with
      | EmptyString => if Js.isWhiteSpace c then EmptyString else String c EmptyString
      | String d t => String c (String d t)
      end
  end.

(** [String.prototype.trim] *)
Definition trim (s : string) : string := trimEnd (trimStart s).

(** [cleanText(text)]; a text that is null, undefined or empty gives
    null. *)
Definition cleanText (text : option string) : option string :=
  if negb (Js.truthy text) then None
  else Some (trim (replaceWhiteSpaceRuns false (default EmptyString text))).

(** *** isCommonEmail *)

(** [s.split(separator)] for a separator of one character: the pieces
    between the separators, at least one. *)
Fixpoint split (separator : ascii) (s : string) : list string :=
  match s with
  | EmptyString => [EmptyString]
  | String c s' =>
      if Ascii.eqb c separator then EmptyString :: split separator s'
      else
        match split separator s' with
        | piece :: pieces => String c piece :: pieces
        | [] => [String c EmptyString]
        end
  end.

Definition commonDomains : list string :=
  ["gmail.com"; "yahoo.com"; "hotmail.com"; "outlook.com"].

(** [commonDomains.includes(email.split('@')[1])]; without an [@] the
    domain is undefined, which the list does not hold. *)
Definition isCommonEmail (email : string) : bool :=
  match split "@" email !! 1 with
  | Some domain => Js.arrayIncludes commonDomains domain
  | None => false
  end.

(** *** validateProfile *)

(** A profile as [scrapeLinkedInPage] builds it; [validateProfile] reads
    and writes the keys below and no other. *)
Module Profile.
Record t : Type :=
  { name : option string;
    jobTitle : option string;
    company : option string;
    location : option string;
    linkedinUrl : option string;
    email : option string }.
End Profile.

(** One job of [activeScrapingJobs]. *)
Module Job.
Record t : Type := { status : string; progress : Q }.
End Job.

(** The object that [scrapeLinkedInProfiles] returns. *)
Module Scraped.
Record t : Type :=
  { jobId : string;
    profiles : list Profile.t;
    totalFound : nat;
    totalProcessed : nat;
    status : string }.
End Scraped.

(** What [scrapeLinkedInProfiles] does, as seen from outside: the pages it
    asks for and the delays it waits. *)
Inductive ScrapeEvent : Type :=
| Requested (page : nat)
| Waited (ms : nat).

(** [this.activeScrapingJobs.get(jobId) || { status: 'not_found', progress: 0 }] *)
Definition getJobStatus (activeScrapingJobs : gmap string Job.t) (jobId : string) : Job.t :=
  default {| Job.status := "not_found"; Job.progress := 0%Q |} (activeScrapingJobs !! jobId).

Section ScrapeLinkedInProfiles.

(** [emailValidator.validate] of the package email-validator. *)
Variable emailValidatorValidate : string -> bool.

(** What the two calls in the [try] block of the loop give for a page
    number: [buildLinkedInSearchUrl] and then [scrapeLinkedInPage] on the
    address it built; either of them may throw. *)
Variable scrapeLinkedInPage : nat -> JsError + list Profile.t.

(** [config.scraping.delayMs] *)
Variable delayMs : nat.

(** [validateProfile(profile)]: the answer, and the profile as the call
    leaves it. *)
Definition validateProfile (profile : Profile.t) : bool * Profile.t :=
  if negb (Js.truthy (Profile.name profile))
     || (String.length (default EmptyString (Profile.name profile)) <? 2)
  then (false, profile)
  else
    (true,
     {| Profile.name := cleanText (Profile.name profile);
        Profile.jobTitle := cleanText (Profile.jobTitle profile);
        Profile.company := cleanText (Profile.company profile);
        Profile.location := cleanText (Profile.location profile);
        Profile.linkedinUrl := Profile.linkedinUrl profile;
        Profile.email :=
          match Profile.email profile with
          | Some address =>
              if Js.nonEmpty address && negb (emailValidatorValidate address)
              then None else Some address
          | None => None
          end |}).

(** [profiles.filter(profile => this.validateProfile(profile))]: the
    profiles accepted, as the calls left them. *)
Definition validProfiles (profiles : list Profile.t) : list Profile.t :=
  omap (fun profile =>
          let '(valid, profile') := validateProfile profile in
          if valid then Some profile' else None) profiles.

(** [Math.min((results.length / maxResults) * 100, 100)] *)
Definition progressOf (found maxResults : nat) : Q :=
  Qmin (inject_Z (Z.of_nat found) / inject_Z (Z.of_nat maxResults) * 100) 100.

(** The [while] loop. [fuel] bounds the number of turns. *)
Fixpoint scrapeLoop (fuel maxResults : nat) (jobId : string)
  (results : list Profile.t) (page totalProcessed : nat)
  (activeScrapingJobs : gmap string Job.t)
  : option (list Profile.t * nat * gmap string Job.t * list ScrapeEvent) :=
  if (length results <? maxResults) && (page <=? 10)
  then
    match fuel with
    | 0 => None
    | S fuel' =>
        match scrapeLinkedInPage page with
        | inr profiles =>
            if length profiles =? 0
            then Some (results, totalProcessed, activeScrapingJobs, [Requested page])
            else
              let filteredProfiles :=
                take (maxResults - length results) (validProfiles profiles) in
              let results' := results ++ filteredProfiles in
              let jobs' :=
                <[jobId := {| Job.status := "running";
                              Job.progress := progressOf (length results') maxResults |}]>
                  activeScrapingJobs in
              match scrapeLoop fuel' maxResults jobId results' (S page)
                      (totalProcessed + length profiles) jobs' with
              | Some (out, events) => Some (out, Requested page :: Waited delayMs :: events)
              | None => None
              end
        | inl pageError =>
            match scrapeLoop fuel' maxResults jobId results (S page) totalProcessed
                    activeScrapingJobs with
            | Some (out, events) => Some (out, Requested page :: events)
            | None => None
            end
        end
    end
  else Some (results, totalProcessed, activeScrapingJobs, []).

(** [scrapeLinkedInProfiles(searchUrl, options)], with [now] the digits of
    [Date.now()] and [maxResults] the option of that name, if given. *)
Definition scrapeLinkedInProfiles (now : string) (maxResults : option nat)
  (activeScrapingJobs : gmap string Job.t)
  : option (Scraped.t * gmap string Job.t * list ScrapeEvent) :=
  let maxResults := default 50 maxResults in
  let jobId := "linkedin_" +:+ now in
  let jobs := <[jobId := {| Job.status := "running"; Job.progress := 0%Q |}]> activeScrapingJobs in
  match scrapeLoop 10 maxResults jobId [] 1 0 jobs with
  | Some (results, totalProcessed, jobs', events) =>
      Some ({| Scraped.jobId := jobId;
               Scraped.profiles := results;
               Scraped.totalFound := length results;
               Scraped.totalProcessed := totalProcessed;
               Scraped.status := "completed" |},
            <[jobId := {| Job.status := "completed"; Job.progress := 100%Q |}]> jobs',
            events)
  | None => None
  end.

End ScrapeLinkedInProfiles.
(** ** Vocabulary of the properties *)

(** *** Runs *)

(** [after calls r]: the calls [calls] were issued before the run [r]. *)
Definition after {A : Type} (calls : list Call) (r : option (A * list Call))
  : option (A * list Call) :=
  match r with
  | Some (a, calls') => Some (a, calls ++ calls')
  | None => None
  end.

(** The replies of transports that reject one send after the other. *)
Definition failures (errors : list JsError) : list Reply :=
  map (fun e => SendMailReply (inl e)) errors.

(** The call that an attempt on a healthy transporter issues. *)
Definition attempt (emailData : EmailData.t) (it : nat * TransporterInfo) : Call :=
  SendMailCall (transporter it.2) (mailOptions emailData).

(** The handshake with a transport. *)
Definition handshake (t : Transporter) : Call := VerifyCall t.

(** A handshake succeeded. *)
Definition verified (outcome : option JsError) : bool :=
  match outcome with None => true | Some _ => false end.

(** *** Messages and their defects *)

(** The defects of a message that validation looks for. *)
Definition missingRecipient (emailData : EmailData.t) : Prop :=
  toPresent (EmailData.to emailData) = false.

Definition missingSubject (emailData : EmailData.t) : Prop :=
  Js.truthy (EmailData.subject emailData) = false.

Definition missingBody (emailData : EmailData.t) : Prop :=
  Js.truthy (EmailData.text emailData) = false
  /\ Js.truthy (EmailData.html emailData) = false.

Definition malformedRecipient (emailData : EmailData.t) (a : string) : Prop :=
  a ∈ recipients (EmailData.to emailData) /\ isValidEmail a = false.

Definition malformedSender (emailData : EmailData.t) (a : string) : Prop :=
  EmailData.from emailData = Some a /\ Js.nonEmpty a = true /\ isValidEmail a = false.

Definition invalidMessage (emailData : EmailData.t) : Prop :=
  missingRecipient emailData
  \/ missingSubject emailData
  \/ missingBody emailData
  \/ (exists a, malformedRecipient emailData a)
  \/ (exists a, malformedSender emailData a).

(** A validation error names a field of the message that has the defect. *)
Inductive ValidationError (emailData : EmailData.t) : JsError -> Prop :=
| RecipientRequired :
    missingRecipient emailData ->
    ValidationError emailData (Error "Recipient email is required")
| SubjectRequired :
    missingSubject emailData ->
    ValidationError emailData (Error "Email subject is required")
| ContentRequired :
    missingBody emailData ->
    ValidationError emailData (Error "Email content (text or html) is required")
| InvalidRecipient a :
    malformedRecipient emailData a ->
    ValidationError emailData (Error ("Invalid recipient email: " +:+ a))
| InvalidSender a :
    malformedSender emailData a ->
    ValidationError emailData (Error ("Invalid sender email: " +:+ a)).

(** *** Channels and services *)

(** The object of a channel once it has been marked unhealthy. *)
Definition unhealthy (info : TransporterInfo) (msg : string) : TransporterInfo :=
  {| transporter := transporter info;
     name := name info;
     isHealthy := false;
     lastError := Some msg;
     emailsSent := emailsSent info |}.

(** The object of a channel after one more message went out through it. *)
Definition sentOneMore (info : TransporterInfo) : TransporterInfo :=
  {| transporter := transporter info;
     name := name info;
     isHealthy := isHealthy info;
     lastError := lastError info;
     emailsSent := S (emailsSent info) |}.

(** The service after the attempts on [healthy] failed with [errors], one
    after the other. *)
Fixpoint recordFailures (healthy : list (nat * TransporterInfo)) (errors : list JsError)
  (this : EmailService) : EmailService :=
  match healthy, errors with
  | (i, _) :: healthy', e :: errors' => recordFailures healthy' errors' (recordFailure i e this)
  | _, _ => this
  end.

(** A service as the methods of the class leave it: it has channels only
    once it is initialised. *)
Definition wellFormed (this : EmailService) : Prop :=
  isInitialized this = false -> transporters this = [].

(** The providers of the configuration that have a host, a user and a
    password. *)
Definition configured (config : list Provider.t) : list Provider.t :=
  filter (fun provider => hasCredentials provider) config.

Definition transportOf (provider : Provider.t) : Transporter :=
  transportFor (transportOptions provider).

(** The channel of a provider, by the outcome of the handshake. *)
Definition verifiedChannel (provider : Provider.t) (outcome : option JsError)
  : TransporterInfo :=
  pushedChannel (transportOf provider) provider outcome.

Definition healthyChannel (provider : Provider.t) : TransporterInfo :=
  verifiedChannel provider None.

(** *** Kinds of error *)

(** The kinds of error that the classification takes for persistent: an
    authentication failure has the code [EAUTH] or a message that mentions
    a refused login, whatever the case of its letters; the two kinds of
    malformed mail have a code of their own. *)
Definition mentions (msg phrase : string) : Prop :=
  Js.includes (Js.toLowerCase msg) (Js.toLowerCase phrase) = true.

Definition authenticationFailure (e : JsError) : Prop :=
  code e = Some "EAUTH"
  \/ mentions (message e) "Invalid login"
  \/ mentions (message e) "Authentication failed"
  \/ mentions (message e) "Username and Password not accepted"
  \/ mentions (message e) "Invalid credentials".

Definition malformedEnvelope (e : JsError) : Prop := code e = Some "EENVELOPE".

Definition malformedMessage (e : JsError) : Prop := code e = Some "EMESSAGE".

(** *** Reports of bulk sending *)

(** The entries that the callbacks of a wave push to the two lists of the
    report, in the order in which the calls settle. *)
Definition sentEntries (settles : nat -> EmailData.t -> JsError + SendResult)
  (settling : list (nat * EmailData.t)) : list Bulk.Sent :=
  omap (fun ie : nat * EmailData.t =>
          match settles ie.1 ie.2 with
          | inr result =>
              Some {| Bulk.sent_index := ie.1;
                      Bulk.sent_email := EmailData.to ie.2;
                      Bulk.sent_result := result |}
          | inl _ => None
          end) settling.

Definition failedEntries (settles : nat -> EmailData.t -> JsError + SendResult)
  (settling : list (nat * EmailData.t)) : list Bulk.Failed :=
  omap (fun ie : nat * EmailData.t =>
          match settles ie.1 ie.2 with
          | inr _ => None
          | inl error =>
              Some {| Bulk.failed_index := ie.1;
                      Bulk.failed_email := EmailData.to ie.2;
                      Bulk.failed_error := message error |}
          end) settling.

(** The input indices that a report mentions, first those of [sent], then
    those of [failed]. *)
Definition reportIndices (results : Bulk.Results) : list nat :=
  map Bulk.sent_index (Bulk.sent results) ++ map Bulk.failed_index (Bulk.failed results).

(** An entry of the report carries the index of a message of the input,
    the address of that message, and the way its call settled. *)
Definition sentTagged (settles : nat -> EmailData.t -> JsError + SendResult)
  (emails : list EmailData.t) (entry : Bulk.Sent) : Prop :=
  exists email,
    emails !! Bulk.sent_index entry = Some email
    /\ Bulk.sent_email entry = EmailData.to email
    /\ settles (Bulk.sent_index entry) email = inr (Bulk.sent_result entry).

Definition failedTagged (settles : nat -> EmailData.t -> JsError + SendResult)
  (emails : list EmailData.t) (entry : Bulk.Failed) : Prop :=
  exists email error,
    emails !! Bulk.failed_index entry = Some email
    /\ Bulk.failed_email entry = EmailData.to email
    /\ settles (Bulk.failed_index entry) email = inl error
    /\ Bulk.failed_error entry = message error.

(** The batch dispatched by the turn of the loop that starts at [i]. *)
Definition waveAt (emails : list EmailData.t) (batchSize i : nat) : list (nat * EmailData.t) :=
  imap (fun index email => (i + index, email)) (slice i (i + batchSize) emails).

(** *** Templates

    The placeholders that [createPersonalizedEmail] knows, the value it
    has for each, and templates as sequences of text and placeholders. *)

Inductive Key : Type :=
| FirstName | LastName | FullName | Company | JobTitle | Location
| CampaignName | SenderName | SenderEmail.

Definition keys : list Key :=
  [FirstName; LastName; FullName; Company; JobTitle; Location;
   CampaignName; SenderName; SenderEmail].

Definition keyName (k : Key) : string :=
  match k with
  | FirstName => "firstName"
  | LastName => "lastName"
  | FullName => "fullName"
  | Company => "company"
  | JobTitle => "jobTitle"
  | Location => "location"
  | CampaignName => "campaignName"
  | SenderName => "senderName"
  | SenderEmail => "senderEmail"
  end.

(** The value supplied for a placeholder, if any; the full name falls back
    on the first name. *)
Definition supplied (prospect : Prospect.t) (campaignData : Campaign.t) (k : Key)
  : option string :=
  match k with
  | FirstName => Prospect.firstName prospect
  | LastName => Prospect.lastName prospect
  | FullName =>
      if Js.truthy (Prospect.fullName prospect) then Prospect.fullName prospect
      else Prospect.firstName prospect
  | Company => Prospect.company prospect
  | JobTitle => Prospect.jobTitle prospect
  | Location => Prospect.location prospect
  | CampaignName => Campaign.name campaignData
  | SenderName => Campaign.senderName campaignData
  | SenderEmail => Campaign.senderEmail campaignData
  end.

(** The text that stands in for a value that is missing or empty. *)
Definition neutralDefault (k : Key) : string :=
  match k with
  | FirstName => "there"
  | FullName => "there"
  | Company => "your company"
  | JobTitle => "your role"
  | LastName | Location | CampaignName | SenderName | SenderEmail => EmptyString
  end.

Definition valueOf (prospect : Prospect.t) (campaignData : Campaign.t) (k : Key) : string :=
  Js.orElse (supplied prospect campaignData k) (neutralDefault k).

(** The text as the [i] flag of a regular expression reads it. *)
Fixpoint canonical (s : string) : string :=
  match s with
  | EmptyString => EmptyString
  | String c s' => String (Js.canonicalize c) (canonical s')
  end.

(** [spelled] is the placeholder of [k], in whatever letter case. *)
Definition spells (spelled : string) (k : Key) : Prop :=
  canonical spelled = canonical (placeholder (keyName k)).

(** A template is a sequence of text, of placeholders of the nine names,
    each as the template spells it, and of placeholders of other names. *)
Inductive Segment : Type :=
| Text (s : string)
| Placeholder (k : Key) (spelled : string)
| Other (name : string).

(** The text of a template, and the text with a value in the place of
    every placeholder of the nine names. *)
Fixpoint render (segments : list Segment) : string :=
  match segments with
  | [] => EmptyString
  | Text s :: segments' => s +:+ render segments'
  | Placeholder _ spelled :: segments' => spelled +:+ render segments'
  | Other name :: segments' => placeholder name +:+ render segments'
  end.

Fixpoint personalized (value : Key -> string) (segments : list Segment) : string :=
  match segments with
  | [] => EmptyString
  | Text s :: segments' => s +:+ personalized value segments'
  | Placeholder k _ :: segments' => value k +:+ personalized value segments'
  | Other name :: segments' => placeholder name +:+ personalized value segments'
  end.

(** No character of [s] is among [excluded]. *)
Fixpoint without (excluded : list ascii) (s : string) : bool :=
  match s with
  | EmptyString => true
  | String c s' => negb (existsb (Ascii.eqb c) excluded) && without excluded s'
  end.

(** A text without an opening brace. *)
Definition braceFree (s : string) : bool := without ["{"%char] s.

(** A value has neither an opening brace nor a dollar sign. *)
Definition plainValue (s : string) : bool := without ["{"%char; "$"%char] s.

(** A value without the replacement patterns of [String.prototype.replace]:
    no dollar sign is followed by a dollar sign, an ampersand, a backtick
    or an apostrophe. *)
Fixpoint noPattern (v : string) : bool :=
  match v with
  | EmptyString => true
  | String c v' =>
      (if Ascii.eqb c "$"
       then match v' with
            | EmptyString => true
            | String d _ => negb (existsb (Ascii.eqb d) ["$"; "&"; "`"; "'"]%char)
            end
       else true)
      && noPattern v'
  end.

(** No two opening braces in a row; [opened] tells that the character
    before the text is an opening brace. *)
Fixpoint noDoubleBrace (opened : bool) (s : string) : bool :=
  match s with
  | EmptyString => true
  | String c s' =>
      if Ascii.eqb c "{" then negb opened && noDoubleBrace true s'
      else noDoubleBrace false s'
  end.

(** The last character is an opening brace. *)
Fixpoint endsOpen (opened : bool) (s : string) : bool :=
  match s with
  | EmptyString => opened
  | String c s' => endsOpen (Ascii.eqb c "{") s'
  end.

(** The text does not begin with one opening brace followed by another
    character. *)
Definition startQuiet (s : string) : bool :=
  match s with
  | String c (String d _) => negb (Ascii.eqb c "{") || Ascii.eqb d "{"
  | _ => true
  end.

(** Two opening braces in a row occur only at the start of placeholders. *)
Fixpoint calm (opened : bool) (segments : list Segment) : bool :=
  match segments with
  | [] => true
  | Text s :: segments' => noDoubleBrace opened s && calm (endsOpen opened s) segments'
  | Placeholder _ _ :: segments' => calm false segments'
  | Other _ :: segments' => calm false segments'
  end.

(** A placeholder of the nine names is spelled as its key, in whatever
    letter case, and its value has no replacement pattern; the name of
    another placeholder has no brace and is none of the nine, in whatever
    letter case. *)
Definition accepts (value : Key -> string) (segment : Segment) : bool :=
  match segment with
  | Text _ => true
  | Placeholder k spelled =>
      String.eqb (canonical spelled) (canonical (placeholder (keyName k)))
      && noPattern (value k)
  | Other name =>
      without ["{"; "}"]%char name
      && forallb (fun k => negb (String.eqb (canonical name) (canonical (keyName k)))) keys
  end.

(** The template with the values in the place of the placeholders of the
    nine names. *)
Definition filled (value : Key -> string) (segments : list Segment) : list Segment :=
  map (fun segment =>
         match segment with
         | Placeholder k _ => Text (value k)
         | _ => segment
         end) segments.

(** A template that the values fill as one expects: every segment is
    accepted, and with the values in place two opening braces in a row
    occur only at the start of the placeholders of other names. *)
Definition fillable (value : Key -> string) (segments : list Segment) : bool :=
  forallb (accepts value) segments && calm false (filled value segments).

(** A template with one placeholder substituted throughout. *)
Definition fill (k : Key) (v : string) (segment : Segment) : Segment :=
  match segment with
  | Placeholder k' _ =>
      if String.eqb (keyName k) (keyName k') then Text v else segment
  | _ => segment
  end.

(** A template after the turns of the loop for the keys [ks]. *)
Definition fillAll (value : Key -> string) (ks : list Key) (segments : list Segment)
  : list Segment :=
  fold_left (fun segments k => map (fill k (value k)) segments) ks segments.

(** ** Sample data

    The providers of the configuration, the messages of the unit tests,
    some services and some outcomes, for use in examples. *)

Definition smtpProvider (providerName hostName : string) : Provider.t :=
  {| Provider.name := providerName;
     Provider.host := Some hostName;
     Provider.port := 587;
     Provider.secure := false;
     Provider.auth :=
       {| Provider.user := Some "test@test.com"; Provider.pass := Some "testpass" |} |}.

Definition primary : Provider.t := smtpProvider "primary" "smtp.test.com".
Definition secondary : Provider.t := smtpProvider "secondary" "smtp2.test.com".
Definition tertiary : Provider.t := smtpProvider "tertiary" "smtp3.test.com".

(** A provider without password, as the optional ones of the
    configuration when their variables are unset. *)
Definition unconfigured : Provider.t :=
  {| Provider.name := "secondary";
     Provider.host := Some "smtp2.test.com";
     Provider.port := 587;
     Provider.secure := false;
     Provider.auth := {| Provider.user := Some EmptyString; Provider.pass := Some EmptyString |} |}.

Definition threeChannels : EmailService :=
  {| transporters := [healthyChannel primary; healthyChannel secondary; healthyChannel tertiary];
     isInitialized := true |}.

Definition testEmail : EmailData.t :=
  {| EmailData.to := Some (Address "test@example.com");
     EmailData.subject := Some "Test Subject";
     EmailData.text := Some "Test content";
     EmailData.html := None;
     EmailData.from := Some "sender@example.com";
     EmailData.replyTo := None;
     EmailData.attachments := None |}.

Definition withoutRecipient : EmailData.t :=
  {| EmailData.to := None;
     EmailData.subject := Some "Test Subject";
     EmailData.text := Some "Test content";
     EmailData.html := None;
     EmailData.from := None;
     EmailData.replyTo := None;
     EmailData.attachments := None |}.

Definition invalidRecipient : EmailData.t :=
  {| EmailData.to := Some (Address "invalid-email");
     EmailData.subject := Some "Test Subject";
     EmailData.text := Some "Test content";
     EmailData.html := None;
     EmailData.from := None;
     EmailData.replyTo := None;
     EmailData.attachments := None |}.

Definition toNobody (sender : option string) : EmailData.t :=
  {| EmailData.to := Some (Addresses []);
     EmailData.subject := Some "Test Subject";
     EmailData.text := Some "Test content";
     EmailData.html := None;
     EmailData.from := sender;
     EmailData.replyTo := None;
     EmailData.attachments := None |}.

Definition invalidLogin : JsError :=
  {| code := Some "EAUTH"; message := "Invalid login: 535 Authentication failed" |}.

Definition connectionTimeout : JsError :=
  {| code := Some "ETIMEDOUT"; message := "Connection timeout" |}.

(** An initialised service whose only channel failed its handshake. *)
Definition allDown : EmailService :=
  {| transporters := [verifiedChannel primary (Some connectionTimeout)];
     isInitialized := true |}.

Definition accepted : SentInfo :=
  {| info_messageId := "test-message-id"; info_response := "Email sent successfully" |}.

(** A run of bulk sending for the examples: the calls for the messages at
    odd indices time out, and the calls of a wave settle last to first. *)
Definition oddOnesTimeOut (index : nat) (email : EmailData.t) : JsError + SendResult :=
  if Nat.even index
  then inr {| success := true;
              messageId := info_messageId accepted;
              provider := "primary";
              response := info_response accepted |}
  else inl connectionTimeout.

Definition batchesOfTen : BulkOptions.t :=
  {| BulkOptions.batchSize := Some 10;
     BulkOptions.delayBetweenBatches := Some 50;
     BulkOptions.continueOnError := None |}.

Definition anaAtAcme : Prospect.t :=
  {| Prospect.firstName := Some "Ana";
     Prospect.lastName := None;
     Prospect.fullName := None;
     Prospect.company := Some "Acme";
     Prospect.jobTitle := None;
     Prospect.location := None |}.

Definition johnDoe : Prospect.t :=
  {| Prospect.firstName := Some "John";
     Prospect.lastName := Some "Doe";
     Prospect.fullName := None;
     Prospect.company := Some "Test Corp";
     Prospect.jobTitle := None;
     Prospect.location := None |}.

Definition nobody : Prospect.t :=
  {| Prospect.firstName := None;
     Prospect.lastName := None;
     Prospect.fullName := None;
     Prospect.company := None;
     Prospect.jobTitle := None;
     Prospect.location := None |}.

Definition firstNamed (v : string) : Prospect.t :=
  {| Prospect.firstName := Some v;
     Prospect.lastName := None;
     Prospect.fullName := None;
     Prospect.company := None;
     Prospect.jobTitle := None;
     Prospect.location := None |}.

Definition noCampaign : Campaign.t :=
  {| Campaign.name := None; Campaign.senderName := None; Campaign.senderEmail := None |}.

Definition testCampaign : Campaign.t :=
  {| Campaign.name := Some "Test Campaign";
     Campaign.senderName := Some "Jane Smith";
     Campaign.senderEmail := None |}.

Definition helloTemplate (subject : string) : Template.t :=
  {| Template.subject := subject;
     Template.content := "Hi {{firstName}} from {{company}}";
     Template.htmlContent := Some "<p>Hi {{firstName}} from {{company}}</p>" |}.

(** A template with a style sheet, a placeholder in capitals, a placeholder
    within braces and a placeholder of another name; a prospect whose
    values have dollar signs and braces. *)
Definition styledSubject : list Segment :=
  [Text "Offer for "; Placeholder Company "{{COMPANY}}"; Text " "; Other "nickname"].

Definition styledText : list Segment :=
  [Text "Hi "; Placeholder FirstName "{{firstName}}"; Text ", {";
   Placeholder Company "{{company}}"; Text "} "; Placeholder LastName "{{lastName}}"].

Definition styledHtml : list Segment :=
  [Text "<style>p { color: red }</style><p>Hi "; Placeholder FirstName "{{firstName}}";
   Text " of "; Placeholder Company "{{company}}"; Text "</p>"].

Definition styled : Template.t :=
  {| Template.subject := "Offer for {{COMPANY}} {{nickname}}";
     Template.content := "Hi {{firstName}}, {{{company}}} {{lastName}}";
     Template.htmlContent :=
       Some "<style>p { color: red }</style><p>Hi {{firstName}} of {{company}}</p>" |}.

Definition toysRUs : Prospect.t :=
  {| Prospect.firstName := Some "A$AP";
     Prospect.lastName := None;
     Prospect.fullName := None;
     Prospect.company := Some "Toys{R}Us $1 Store";
     Prospect.jobTitle := None;
     Prospect.location := None |}.

(** ** Vocabulary of the further properties *)

(** *** Regular expressions *)

(** The strings of the language of a regular expression. *)
Inductive Matches : Regex.regex -> string -> Prop :=
| MatchesEmpty : Matches Regex.Empty EmptyString
| MatchesClass p c : p c = true -> Matches (Regex.Class p) (String c EmptyString)
| MatchesSeq r1 r2 s1 s2 :
    Matches r1 s1 -> Matches r2 s2 -> Matches (Regex.Seq r1 r2) (s1 +:+ s2)
| MatchesOrL r1 r2 s : Matches r1 s -> Matches (Regex.Or r1 r2) s
| MatchesOrR r1 r2 s : Matches r2 s -> Matches (Regex.Or r1 r2) s
| MatchesManyNil r : Matches (Regex.Many r) EmptyString
| MatchesManyCons r s1 s2 :
    Matches r s1 -> Matches (Regex.Many r) s2 -> Matches (Regex.Many r) (s1 +:+ s2).

(** Every character of [s] satisfies [p]. *)
Fixpoint allChars (p : ascii -> bool) (s : string) : bool :=
  match s with
  | EmptyString => true
  | String c s' => p c && allChars p s'
  end.

(** A part of an address: not empty, no white space, no [@]. *)
Definition addressPart (s : string) : bool :=
  Js.nonEmpty s && allChars notSpaceNorAt s.

(** The number of occurrences of a character. *)
Fixpoint occurrences (c : ascii) (s : string) : nat :=
  match s with
  | EmptyString => 0
  | String d s' => (if Ascii.eqb c d then 1 else 0) + occurrences c s'
  end.

(** *** Runs of sendEmail *)

(** The result that [sendEmail] returns when a channel accepted the mail. *)
Definition sentThrough (info : TransporterInfo) (sent : SentInfo) : SendResult :=
  {| success := true;
     messageId := info_messageId sent;
     provider := name info;
     response := info_response sent |}.

(** What failed attempts may do to the object of a channel: nothing, or
    make it unhealthy; an object that is healthy afterwards is untouched. *)
Definition demotedFrom (info info' : TransporterInfo) : Prop :=
  transporter info' = transporter info
  /\ name info' = name info
  /\ emailsSent info' = emailsSent info
  /\ (isHealthy info' = true -> info' = info).

(** The counter of the channel at a position. *)
Definition sentBy (this : EmailService) (j : nat) : option nat :=
  emailsSent <$> transporters this !! j.

(** *** Health and statistics *)

(** Two channel objects that differ at most in their health flag and
    their last error. *)
Definition sameUpToHealth (info1 info2 : TransporterInfo) : Prop :=
  transporter info1 = transporter info2
  /\ name info1 = name info2
  /\ emailsSent info1 = emailsSent info2.

(** The entry of [getStats] for a channel, read as an entry of the report
    of [healthCheck]. *)
Definition statusOf (entry : Stats.Entry) : Health.Status :=
  {| Health.name := Stats.name entry;
     Health.isHealthy := Stats.isHealthy entry;
     Health.lastError := Stats.lastError entry;
     Health.emailsSent := Stats.emailsSent entry |}.

(** *** Follow-ups *)

(** A call hands a header of the given name to the transport. *)
Definition carries (headerName : string) (c : Call) : Prop :=
  match c with
  | SendMailCall _ o => headerName ∈ (MailOptions.headers o).*1
  | VerifyCall _ => False
  end.

(** Follow-up data that sets at most the subject, the reply address and
    the attachments. *)
Definition keepsRecipientAndBody (followUpData : FollowUpData.t) : Prop :=
  FollowUpData.to followUpData = None
  /\ FollowUpData.text followUpData = None
  /\ FollowUpData.html followUpData = None
  /\ FollowUpData.from followUpData = None.

Definition originalTestEmail : OriginalEmail.t :=
  {| OriginalEmail.to := EmailData.to testEmail;
     OriginalEmail.subject := Property.Str "Test Subject";
     OriginalEmail.text := EmailData.text testEmail;
     OriginalEmail.html := EmailData.html testEmail;
     OriginalEmail.from := EmailData.from testEmail;
     OriginalEmail.replyTo := EmailData.replyTo testEmail;
     OriginalEmail.attachments := EmailData.attachments testEmail;
     OriginalEmail.messageId := Some "test-message-id" |}.

Definition noOverride : FollowUpData.t :=
  {| FollowUpData.to := None;
     FollowUpData.subject := None;
     FollowUpData.text := None;
     FollowUpData.html := None;
     FollowUpData.from := None;
     FollowUpData.replyTo := None;
     FollowUpData.attachments := None |}.

(** *** Persistent errors *)

(** The message has a part that reads as the phrase when the case of the
    letters is ignored. *)
Definition hasPhrase (msg listed : string) : Prop :=
  exists before phrase rest,
    msg = before +:+ phrase +:+ rest
    /\ Js.toLowerCase phrase = Js.toLowerCase listed.

(** *** Bulk sending *)

(** The events of a run whose waves are separated by pauses. *)
Definition separated (ms : nat) (waves : list (list (nat * EmailData.t))) : list BulkEvent :=
  match waves with
  | [] => []
  | wave :: waves' => Wave wave :: flat_map (fun w => [Pause ms; Wave w]) waves'
  end.

(** The number of batches, [Math.ceil(emails.length / batchSize)]. *)
Definition batches (emails : list EmailData.t) (batchSize : nat) : nat :=
  (length emails + batchSize - 1) / batchSize.

(** The start indices of the batches. *)
Definition batchStarts (emails : list EmailData.t) (batchSize : nat) : list nat :=
  map (fun k => k * batchSize) (seq 0 (batches emails batchSize)).

Definition batchesOfFour : BulkOptions.t :=
  {| BulkOptions.batchSize := Some 4;
     BulkOptions.delayBetweenBatches := Some 250;
     BulkOptions.continueOnError := None |}.

Definition noBatches : BulkOptions.t :=
  {| BulkOptions.batchSize := Some 0;
     BulkOptions.delayBetweenBatches := None;
     BulkOptions.continueOnError := None |}.

Definition stopOnError : BulkOptions.t :=
  {| BulkOptions.batchSize := Some 4;
     BulkOptions.delayBetweenBatches := None;
     BulkOptions.continueOnError := Some false |}.

(** A template without placeholders. *)
Definition plainNote : Template.t :=
  {| Template.subject := "Quick question";
     Template.content := "Are you free on Friday? It costs $5.";
     Template.htmlContent := Some "<p>Are you free on Friday?</p>" |}.

(** *** Texts *)

(** A text of white space only, and a word: a non-empty text without white
    space. *)
Definition blank (s : string) : bool := allChars Js.isWhiteSpace s.

Definition word (s : string) : bool :=
  Js.nonEmpty s && allChars (fun c => negb (Js.isWhiteSpace c)) s.

(** The words that follow the first word of a text, each after its gap. *)
Fixpoint spaced (more : list (string * string)) : string :=
  match more with
  | [] => EmptyString
  | (gap, next) :: more' => gap +:+ next +:+ spaced more'
  end.

(** Every gap is white space, and not empty; what follows it is a word. *)
Definition gapped (more : list (string * string)) : Prop :=
  Forall (fun gw => Js.nonEmpty gw.1 = true /\ blank gw.1 = true /\ word gw.2 = true) more.

(** The same words, one space apart. *)
Definition singleSpaced (more : list (string * string)) : list (string * string) :=
  map (fun gw => (" ", gw.2)) more.

(** Words one space apart, with nothing before and nothing after. *)
Definition tidy (s : string) : Prop :=
  exists first more,
    word first = true /\ gapped more /\ s = first +:+ spaced (singleSpaced more).

(** A text without the character [c]. *)
Definition lacks (c : ascii) (s : string) : bool :=
  allChars (fun d => negb (Ascii.eqb d c)) s.

(** *** Scraping *)

(** The pages that a run asked for, in order. *)
Definition pagesOf (events : list ScrapeEvent) : list nat :=
  omap (fun e => match e with Requested page => Some page | Waited _ => None end) events.

(** A field that is missing, empty, or words one space apart. *)
Definition clean (field : option string) : Prop :=
  match field with
  | None => True
  | Some text => text = EmptyString \/ tidy text
  end.

(** The profile [cleaned] is what [validateProfile] made of a profile that
    one of the [pages] held. *)
Definition acceptedFrom (emailValidatorValidate : string -> bool)
  (scrapeLinkedInPage : nat -> JsError + list Profile.t) (pages : list nat)
  (cleaned : Profile.t) : Prop :=
  exists page profiles profile,
    page ∈ pages
    /\ scrapeLinkedInPage page = inr profiles
    /\ profile ∈ profiles
    /\ validateProfile emailValidatorValidate profile = (true, cleaned).

Definition completed : Job.t := {| Job.status := "completed"; Job.progress := 100%Q |}.

(** A first page with one profile to keep and one to reject, and a second
    page that cannot be read; no further page has a profile. *)
Definition johnScraped : Profile.t :=
  {| Profile.name := Some "  John   Doe ";
     Profile.jobTitle := Some "Software Engineer";
     Profile.company := None;
     Profile.location := Some "   ";
     Profile.linkedinUrl := Some "https://www.linkedin.com/in/johndoe";
     Profile.email := Some "john at example" |}.

Definition nameless : Profile.t :=
  {| Profile.name := Some "J";
     Profile.jobTitle := Some "Manager";
     Profile.company := None;
     Profile.location := None;
     Profile.linkedinUrl := None;
     Profile.email := None |}.

Definition johnCleaned : Profile.t :=
  {| Profile.name := Some "John Doe";
     Profile.jobTitle := Some "Software Engineer";
     Profile.company := None;
     Profile.location := Some EmptyString;
     Profile.linkedinUrl := Some "https://www.linkedin.com/in/johndoe";
     Profile.email := None |}.

Definition twoPages (page : nat) : JsError + list Profile.t :=
  match page with
  | 1 => inr [johnScraped; nameless]
  | 2 => inl connectionTimeout
  | _ => inr []
  end.

(** An address that [validateProfile] leaves on a profile. *)
Definition checkedEmail (emailValidatorValidate : string -> bool) (email : option string)
  : Prop :=
  match email with
  | None => True
  | Some address => address = EmptyString \/ emailValidatorValidate address = true
  end.

(** A stand-in for the validator: an address has an [@]. *)
Definition hasAt (address : string) : bool := negb (lacks "@" address).

(** *** Placeholders in any letter case *)

(** A template whose placeholders are not in the case of the keys. *)
Definition shouting : Template.t :=
  {| Template.subject := "Hi {{FIRSTNAME}}!";
     Template.content := "News for {{Company}}";
     Template.htmlContent := None |}.
(** * Properties *)

(** ** Running programs *)

Lemma after_nil {A : Type} (r : option (A * list Call)) : after [] r = r.
Proof. destruct r as [[a calls]|]; reflexivity. Qed.

Lemma after_cons {A : Type} c calls (r : option (A * list Call)) :
  after (c :: calls) r = issued c (after calls r).
Proof. destruct r as [[a calls']|]; reflexivity. Qed.

Lemma issued_Some {A : Type} c (r : option (A * list Call)) a calls :
  issued c r = Some (a, calls) ->
  exists calls', calls = c :: calls' /\ r = Some (a, calls').
Proof.
  destruct r as [[a' calls']|]; simpl; intros H; [|discriminate].
  injection H as -> <-. eauto.
Qed.

(** Running [p] and then [f]: the script splits at the end of [p]. *)
Lemma exec_bind {A B : Type} (p : Prog A) (f : A -> Prog B) script1 script2 a calls1 :
  exec p script1 = Some (a, calls1) ->
  exec (p ≫= f) (script1 ++ script2) = after calls1 (exec (f a) script2).
Proof.
  unfold mbind, prog_bind.
  revert script1 calls1.
  induction p as [a0|t k IH|t o k IH]; intros script1 calls1 Hp.
  - destruct script1; [|discriminate]. injection Hp as -> <-.
    simpl. by rewrite after_nil.
  - destruct script1 as [|[r|r] script1]; try discriminate.
    simpl in Hp. apply issued_Some in Hp as (calls' & -> & Hk).
    simpl. rewrite (IH r _ _ Hk). by rewrite after_cons.
  - destruct script1 as [|[r|r] script1]; try discriminate.
    simpl in Hp. apply issued_Some in Hp as (calls' & -> & Hk).
    simpl. rewrite (IH r _ _ Hk). by rewrite after_cons.
Qed.

(** A run of [p] and then [f] splits into a run of each. *)
Lemma exec_bind_inv {A B : Type} (p : Prog A) (f : A -> Prog B) script b calls :
  exec (p ≫= f) script = Some (b, calls) ->
  exists script1 script2 a calls1 calls2,
    script = script1 ++ script2
    /\ exec p script1 = Some (a, calls1)
    /\ exec (f a) script2 = Some (b, calls2)
    /\ calls = calls1 ++ calls2.
Proof.
  unfold mbind, prog_bind. revert script calls.
  induction p as [a|t k IH|t o k IH]; intros script calls; simpl.
  - intros H. by exists [], script, a, [], calls.
  - destruct script as [|[r|r] script]; try discriminate.
    intros (calls' & -> & (s1 & s2 & a & c1 & c2 & -> & H1 & H2 & ->)%IH)%issued_Some.
    exists (VerifyReply r :: s1), s2, a, (VerifyCall t :: c1), c2.
    simpl. by rewrite H1.
  - destruct script as [|[r|r] script]; try discriminate.
    intros (calls' & -> & (s1 & s2 & a & c1 & c2 & -> & H1 & H2 & ->)%IH)%issued_Some.
    exists (SendMailReply r :: s1), s2, a, (SendMailCall t o :: c1), c2.
    simpl. by rewrite H1.
Qed.

(** ** Initialisation comes first *)

Lemma initialize_initialized config this :
  isInitialized this = true -> initialize config this = Ret (this, inr tt).
Proof. intros H. unfold initialize, initializeWith. by rewrite H. Qed.

Lemma sendEmail_initialized config this emailData :
  isInitialized this = true ->
  sendEmail config this emailData = sendInitialized this emailData.
Proof.
  intros H. unfold sendEmail, sendEmailWith. fold (initialize config this).
  rewrite (initialize_initialized _ _ H). reflexivity.
Qed.

(** [initialize] comes first; when it returns normally the call goes on
    as on the service that [initialize] leaves. *)
Lemma sendEmail_lazy config this emailData script0 this0 calls0 script :
  exec (initialize config this) script0 = Some ((this0, inr tt), calls0) ->
  exec (sendEmail config this emailData) (script0 ++ script)
  = after calls0 (exec (sendInitialized this0 emailData) script).
Proof.
  intros H. unfold sendEmail, sendEmailWith. fold (initialize config this).
  by rewrite (exec_bind _ _ _ script _ _ H).
Qed.

(** ** Validation *)

Lemma validateEmailData_error emailData e :
  validateEmailData emailData = inl e -> ValidationError emailData e.
Proof.
  unfold validateEmailData.
  destruct (toPresent (EmailData.to emailData)) eqn:Hto; simpl.
  2:{ intros [= <-]. by constructor. }
  destruct (Js.truthy (EmailData.subject emailData)) eqn:Hsubject; simpl.
  2:{ intros [= <-]. by constructor. }
  destruct (Js.truthy (EmailData.text emailData)) eqn:Htext,
           (Js.truthy (EmailData.html emailData)) eqn:Hhtml; simpl;
    try (intros [= <-]; by constructor).
  all: destruct (List.find _ _) as [a|] eqn:Hfind;
    [ intros [= <-]; apply find_some in Hfind as [Hin Hbad];
      apply InvalidRecipient; split;
      [ by apply list_elem_of_In | by apply negb_true_iff in Hbad ]
    | destruct (EmailData.from emailData) as [sender|] eqn:Hfrom; [|discriminate];
      destruct (Js.nonEmpty sender && negb (isValidEmail sender)) eqn:Hsender;
      [|discriminate];
      intros [= <-]; apply andb_true_iff in Hsender as [Hne Hbad];
      apply InvalidSender; repeat split; [done | done | by apply negb_true_iff in Hbad] ].
Qed.

Lemma validateEmailData_ok emailData :
  validateEmailData emailData = inr tt -> ~ invalidMessage emailData.
Proof.
  unfold validateEmailData, invalidMessage, missingRecipient, missingSubject,
    missingBody, malformedRecipient, malformedSender.
  destruct (toPresent (EmailData.to emailData)) eqn:Hto; simpl; [|discriminate].
  destruct (Js.truthy (EmailData.subject emailData)) eqn:Hsubject; simpl; [|discriminate].
  destruct (negb (Js.truthy (EmailData.text emailData))
            && negb (Js.truthy (EmailData.html emailData))) eqn:Hbody; [discriminate|].
  destruct (List.find _ _) as [a|] eqn:Hfind; [discriminate|].
  intros Hfrom [H|[H|[[Ht Hh]|[[a [Hin Hbad]]|[a (Hsome & Hne & Hbad)]]]]];
    try discriminate.
  - rewrite Ht, Hh in Hbody. discriminate.
  - apply list_elem_of_In in Hin.
    pose proof (find_none _ _ Hfind _ Hin) as Hok. simpl in Hok.
    rewrite Hbad in Hok. discriminate.
  - rewrite Hsome, Hne, Hbad in Hfrom. discriminate.
Qed.

Lemma validateEmailData_invalid emailData :
  invalidMessage emailData ->
  exists e, validateEmailData emailData = inl e /\ ValidationError emailData e.
Proof.
  intros Hinvalid.
  destruct (validateEmailData emailData) as [e|[]] eqn:Hv.
  - exists e. split; [done|]. by apply validateEmailData_error.
  - by apply validateEmailData_ok in Hv.
Qed.

(** X29. On an initialised mailer, a message that lacks a recipient, a
    subject or both bodies, or has a malformed recipient or sender address,
    makes [sendEmail] fail with a validation error naming a field that has
    the defect; the call is a plain return: no call to any transport is
    issued and the service is left as it was. *)
Theorem sendEmail_rejects_invalid_message config this emailData :
  isInitialized this = true ->
  invalidMessage emailData ->
  exists e,
    ValidationError emailData e
    /\ sendEmail config this emailData = Ret (this, inl e).
Proof.
  intros Hinit Hinvalid.
  destruct (validateEmailData_invalid _ Hinvalid) as (e & Hv & He).
  exists e. split; [done|].
  rewrite (sendEmail_initialized _ _ _ Hinit).
  unfold sendInitialized. by rewrite Hv.
Qed.

Lemma sendEmail_rejects_invalid_message_witness :
  exists e,
    ValidationError withoutRecipient e
    /\ sendEmail [primary] threeChannels withoutRecipient = Ret (threeChannels, inl e).
Proof.
  apply (sendEmail_rejects_invalid_message [primary] threeChannels withoutRecipient).
  - reflexivity.
  - left. reflexivity.
Defined.

(** C2. On the first call of a fresh service, with a provider that has
    its credentials, [sendEmail] does not come to validate the message:
    the lazy initialisation runs first and throws the TypeError of the call
    of [nodemailer.createTransporter]. A message without recipient is
    rejected with that error, which is no validation error; no call to a
    transport is made and the service stays as it was. *)
Theorem sendEmail_invalid_message_on_first_call :
  invalidMessage withoutRecipient
  /\ sendEmail [primary] newEmailService withoutRecipient
     = Ret (newEmailService,
            inl (TypeError "nodemailer.createTransporter is not a function"))
  /\ exec (sendEmail [primary] newEmailService withoutRecipient) []
     = Some ((newEmailService,
              inl (TypeError "nodemailer.createTransporter is not a function")), [])
  /\ ~ ValidationError withoutRecipient
         (TypeError "nodemailer.createTransporter is not a function").
Proof.
  split; [left; reflexivity|]. split; [reflexivity|]. split; [reflexivity|].
  intros H. inversion H.
Qed.

(** C10, as amended. A message whose recipient field is the empty array,
    with a subject, a body and a sender that is absent or well formed,
    passes validation, and the call goes on to the healthy channels with an
    empty list of recipients. *)
Theorem sendEmail_accepts_empty_recipient_list config this emailData :
  EmailData.to emailData = Some (Addresses []) ->
  Js.truthy (EmailData.subject emailData) = true ->
  Js.truthy (EmailData.text emailData) = true \/ Js.truthy (EmailData.html emailData) = true ->
  (forall a, EmailData.from emailData = Some a -> Js.nonEmpty a = true -> isValidEmail a = true) ->
  isInitialized this = true ->
  validateEmailData emailData = inr tt
  /\ recipients (MailOptions.to (mailOptions emailData)) = []
  /\ sendEmail config this emailData
     = if length (healthyTransporters this) =? 0
       then Ret (this, inl (Error "No healthy email providers available"))
       else sendLoop emailData (healthyTransporters this) None this.
Proof.
  intros Hto Hsubject Hbody Hfrom Hinit.
  assert (Hv : validateEmailData emailData = inr tt).
  { unfold validateEmailData. rewrite Hto, Hsubject. simpl.
    assert (negb (Js.truthy (EmailData.text emailData))
            && negb (Js.truthy (EmailData.html emailData)) = false) as ->.
    { destruct Hbody as [-> | ->]; simpl; [done | by rewrite andb_false_r]. }
    destruct (EmailData.from emailData) as [sender|] eqn:Hsender; [|done].
    destruct (Js.nonEmpty sender) eqn:Hne; [|done].
    by rewrite (Hfrom sender eq_refl Hne). }
  split; [done|]. split; [simpl; by rewrite Hto|].
  rewrite (sendEmail_initialized _ _ _ Hinit).
  unfold sendInitialized. by rewrite Hv.
Qed.

Lemma sendEmail_accepts_empty_recipient_list_witness :
  validateEmailData (toNobody None) = inr tt
  /\ recipients (MailOptions.to (mailOptions (toNobody None))) = []
  /\ sendEmail [primary] threeChannels (toNobody None)
     = if length (healthyTransporters threeChannels) =? 0
       then Ret (threeChannels, inl (Error "No healthy email providers available"))
       else sendLoop (toNobody None) (healthyTransporters threeChannels) None threeChannels.
Proof.
  apply (sendEmail_accepts_empty_recipient_list [primary] threeChannels (toNobody None)).
  - reflexivity.
  - reflexivity.
  - left. reflexivity.
  - intros a H. discriminate H.
  - reflexivity.
Defined.

(** C10 as stated fails when the sender is malformed: the recipient checks
    pass on the empty array, but validation still raises an error. *)
Lemma sendEmail_empty_recipient_list_bad_sender :
  EmailData.to (toNobody (Some "nobody")) = Some (Addresses [])
  /\ Js.truthy (EmailData.subject (toNobody (Some "nobody"))) = true
  /\ Js.truthy (EmailData.text (toNobody (Some "nobody"))) = true
  /\ validateEmailData (toNobody (Some "nobody")) = inl (Error "Invalid sender email: nobody")
  /\ sendEmail [primary] threeChannels (toNobody (Some "nobody"))
     = Ret (threeChannels, inl (Error "Invalid sender email: nobody")).
Proof. repeat split. Qed.

(** ** No healthy provider *)

Lemma initializeLoop_verifies_only lib providers pushed script out calls :
  exec (initializeLoop lib providers pushed) script = Some (out, calls) ->
  Forall (fun c => isSendMailCall c = false) calls.
Proof.
  revert pushed script calls.
  induction providers as [|provider providers IH]; intros pushed script calls; simpl.
  - destruct script; [|discriminate]. intros [= _ <-]. constructor.
  - destruct (hasCredentials provider); [|by apply IH].
    destruct (Nodemailer.createTransporter lib) as [create|].
    + destruct script as [|[r|r] script]; try discriminate. simpl.
      intros (calls' & -> & Hk)%issued_Some.
      constructor; [done|]. by eapply IH.
    + destruct script; [|discriminate]. intros [= _ <-]. constructor.
Qed.

Lemma initializeWith_verifies_only lib config this script out calls :
  exec (initializeWith lib config this) script = Some (out, calls) ->
  Forall (fun c => isSendMailCall c = false) calls.
Proof.
  unfold initializeWith. destruct (isInitialized this).
  { destruct script; [|discriminate]. intros [= _ <-]. constructor. }
  intros (s1 & s2 & [pushed thrown] & c1 & c2 & -> & Hloop & Hend & ->)%exec_bind_inv.
  apply initializeLoop_verifies_only in Hloop.
  apply Forall_app. split; [done|].
  destruct s2; [|by destruct thrown; [|destruct (length pushed =? 0)]].
  destruct thrown; [|destruct (length pushed =? 0)]; injection Hend as _ <-; constructor.
Qed.

Lemma initialize_verifies_only config this script out calls :
  exec (initialize config this) script = Some (out, calls) ->
  Forall (fun c => isSendMailCall c = false) calls.
Proof. apply initializeWith_verifies_only. Qed.

(** C3. For a valid message, if the filter for healthy channels yields
    the empty list (on the service as lazy initialisation leaves it, which
    is the service itself when it is initialised already), [sendEmail]
    fails with the no-healthy-provider error right after initialisation:
    the only calls issued are the handshakes of initialisation, and no
    [sendMail] is among them. *)
Theorem sendEmail_no_healthy_provider config this emailData script0 this0 calls0 :
  exec (initialize config this) script0 = Some ((this0, inr tt), calls0) ->
  validateEmailData emailData = inr tt ->
  healthyTransporters this0 = [] ->
  exec (sendEmail config this emailData) script0
  = Some ((this0, inl (Error "No healthy email providers available")), calls0)
  /\ Forall (fun c => isSendMailCall c = false) calls0.
Proof.
  intros Hinit Hvalid Hnone.
  split; [|by eapply initialize_verifies_only].
  pose proof (sendEmail_lazy config this emailData script0 this0 calls0 [] Hinit) as H.
  rewrite app_nil_r in H. rewrite H.
  unfold sendInitialized. rewrite Hvalid, Hnone. simpl. by rewrite app_nil_r.
Qed.

Lemma sendEmail_no_healthy_provider_witness :
  exec (sendEmail [primary] allDown testEmail) []
  = Some ((allDown, inl (Error "No healthy email providers available")), [])
  /\ Forall (fun c => isSendMailCall c = false) [].
Proof.
  apply (sendEmail_no_healthy_provider [primary] allDown testEmail [] allDown []).
  - reflexivity.
  - reflexivity.
  - reflexivity.
Defined.

(** ** Failover *)

(** C1. On a mailer with three channels, all healthy, where the send on
    the first channel fails with a persistent error and the send on the
    second succeeds, [sendEmail] returns a success tagged with the name of
    the second channel; afterwards the first channel is unhealthy with the
    message of the error as its [lastError], the sent counter of the second
    channel is one higher, and the third channel is as before: exactly two
    calls were issued, none of them to the third channel. *)
Theorem sendEmail_fails_over_to_second_channel config this emailData c1 c2 c3 e info :
  isInitialized this = true ->
  transporters this = [c1; c2; c3] ->
  isHealthy c1 = true -> isHealthy c2 = true -> isHealthy c3 = true ->
  validateEmailData emailData = inr tt ->
  isPersistentError e = true ->
  exec (sendEmail config this emailData) [SendMailReply (inl e); SendMailReply (inr info)]
  = Some (({| transporters := [unhealthy c1 (message e); sentOneMore c2; c3];
              isInitialized := true |},
           inr {| success := true;
                  messageId := info_messageId info;
                  provider := name c2;
                  response := info_response info |}),
          [SendMailCall (transporter c1) (mailOptions emailData);
           SendMailCall (transporter c2) (mailOptions emailData)]).
Proof.
  intros Hinit Hts H1 H2 H3 Hvalid He.
  rewrite (sendEmail_initialized _ _ _ Hinit).
  unfold sendInitialized. rewrite Hvalid.
  assert (Hh : healthyTransporters this = [(0, c1); (1, c2); (2, c3)]).
  { unfold healthyTransporters. rewrite Hts. simpl.
    rewrite !filter_cons_True by (simpl; by rewrite ?H1, ?H2, ?H3). done. }
  rewrite Hh. simpl.
  unfold recordFailure. rewrite He.
  unfold countSent, markUnhealthy. rewrite Hts, Hinit. reflexivity.
Qed.

Lemma sendEmail_fails_over_to_second_channel_witness :
  exec (sendEmail [primary; secondary; tertiary] threeChannels testEmail)
    [SendMailReply (inl invalidLogin); SendMailReply (inr accepted)]
  = Some (({| transporters :=
                [unhealthy (healthyChannel primary) (message invalidLogin);
                 sentOneMore (healthyChannel secondary);
                 healthyChannel tertiary];
              isInitialized := true |},
           inr {| success := true;
                  messageId := info_messageId accepted;
                  provider := name (healthyChannel secondary);
                  response := info_response accepted |}),
          [SendMailCall (transporter (healthyChannel primary)) (mailOptions testEmail);
           SendMailCall (transporter (healthyChannel secondary)) (mailOptions testEmail)]).
Proof.
  apply (sendEmail_fails_over_to_second_channel [primary; secondary; tertiary]
           threeChannels testEmail (healthyChannel primary) (healthyChannel secondary)
           (healthyChannel tertiary) invalidLogin accepted); reflexivity.
Defined.

(** *** The healthy channels of a service *)

Lemma healthyTransporters_lookup this i info :
  (i, info) ∈ healthyTransporters this ->
  transporters this !! i = Some info /\ isHealthy info = true.
Proof.
  unfold healthyTransporters. rewrite list_elem_of_filter. simpl.
  intros [Hh (j & y & [= -> ->] & Hl)%elem_of_lookup_imap].
  split; [done|]. by apply Is_true_true.
Qed.

Lemma healthyTransporters_NoDup this : NoDup (healthyTransporters this).*1.
Proof.
  unfold healthyTransporters.
  eapply sublist_NoDup; [|apply fmap_sublist, sublist_filter].
  rewrite fmap_imap.
  rewrite (imap_ext _ (fun j _ => id j)); [|done].
  rewrite (imap_seq_0 (transporters this) id), list_fmap_id.
  apply NoDup_seq.
Qed.

(** *** What a failed attempt does to the service *)

Lemma lookup_recordFailure_ne i j e this :
  i <> j -> transporters (recordFailure i e this) !! j = transporters this !! j.
Proof.
  intros Hne. unfold recordFailure, markUnhealthy.
  destruct (isPersistentError e); [|done]. simpl. by apply list_lookup_alter_ne.
Qed.

Lemma lookup_recordFailure_eq i e this info :
  transporters this !! i = Some info ->
  transporters (recordFailure i e this) !! i
  = Some (if isPersistentError e then unhealthy info (message e) else info).
Proof.
  intros Hi. unfold recordFailure, markUnhealthy.
  destruct (isPersistentError e); [|done]. simpl.
  by rewrite list_lookup_alter_eq, Hi.
Qed.

Lemma lookup_countSent_ne i j this :
  i <> j -> transporters (countSent i this) !! j = transporters this !! j.
Proof. intros Hne. simpl. by apply list_lookup_alter_ne. Qed.

Lemma lookup_recordFailures_other healthy errors this j :
  j ∉ healthy.*1 ->
  transporters (recordFailures healthy errors this) !! j = transporters this !! j.
Proof.
  revert errors this.
  induction healthy as [|[i info] healthy IH]; intros errors this Hj; [done|].
  destruct errors as [|e errors]; [done|]. simpl.
  rewrite fmap_cons in Hj. apply not_elem_of_cons in Hj as [Hne Hj].
  rewrite IH by done. apply lookup_recordFailure_ne. by intros ->.
Qed.

(** *** The loop *)

Lemma sendLoop_failures emailData before rest errors lastErr this script :
  length errors = length before ->
  exec (sendLoop emailData (before ++ rest) lastErr this) (failures errors ++ script)
  = after (map (attempt emailData) before)
      (exec (sendLoop emailData rest (from_option Some lastErr (last errors))
               (recordFailures before errors this)) script).
Proof.
  revert errors lastErr this.
  induction before as [|[i info] before IH]; intros errors lastErr this Hlen.
  - destruct errors; [|discriminate]. simpl. by rewrite after_nil.
  - destruct errors as [|e errors]; [discriminate|].
    injection Hlen as Hlen. simpl.
    rewrite (IH errors (Some e) _ Hlen). rewrite after_cons.
    do 3 f_equal. destruct errors as [|e' errors]; [done|].
    change (last (e :: e' :: errors)) with (last (e' :: errors)).
    destruct (last (e' :: errors)) eqn:Hlast; [done|].
    by apply last_None in Hlast.
Qed.

Lemma sendLoop_other emailData healthy lastErr this script this' result calls j :
  exec (sendLoop emailData healthy lastErr this) script = Some ((this', result), calls) ->
  j ∉ healthy.*1 ->
  transporters this' !! j = transporters this !! j.
Proof.
  revert lastErr this script calls.
  induction healthy as [|[i info] healthy IH]; intros lastErr this script calls.
  - destruct script; [|discriminate]. by intros [= <- _ _].
  - destruct script as [|[r|[e|sent]] script]; try discriminate; simpl;
      intros (calls' & -> & Hk)%issued_Some Hj;
      simpl in Hj; apply not_elem_of_cons in Hj as [Hne Hj].
    + rewrite (IH _ _ _ _ Hk Hj). apply lookup_recordFailure_ne. by intros ->.
    + destruct script; [|discriminate]. injection Hk as <- _ _.
      apply lookup_countSent_ne. by intros ->.
Qed.

Lemma sendLoop_first emailData next healthy lastErr this script out calls :
  exec (sendLoop emailData (next :: healthy) lastErr this) script = Some (out, calls) ->
  calls !! 0 = Some (attempt emailData next).
Proof.
  destruct next as [i info].
  destruct script as [|[r|r] script]; try discriminate; simpl.
  by intros (calls' & -> & _)%issued_Some.
Qed.

(** C5. For a valid message on a mailer with at least one healthy channel,
    if the send fails on every healthy channel, [sendEmail] fails with the
    error that all providers failed, whose message ends with the message of
    the last failure of the loop; every healthy channel was tried once, in
    order. *)
Theorem sendEmail_all_providers_fail config this emailData errors eLast :
  isInitialized this = true ->
  validateEmailData emailData = inr tt ->
  length (healthyTransporters this) = S (length errors) ->
  exec (sendEmail config this emailData) (failures (errors ++ [eLast]))
  = Some ((recordFailures (healthyTransporters this) (errors ++ [eLast]) this,
           inl (Error ("Failed to send email with all providers. Last error: "
                       +:+ message eLast))),
          map (attempt emailData) (healthyTransporters this)).
Proof.
  intros Hinit Hvalid Hlen.
  rewrite (sendEmail_initialized _ _ _ Hinit).
  unfold sendInitialized. rewrite Hvalid, Hlen. simpl.
  pose proof (sendLoop_failures emailData (healthyTransporters this) []
                (errors ++ [eLast]) None this []) as H.
  rewrite !app_nil_r in H. rewrite H.
  - simpl. rewrite last_snoc, app_nil_r. reflexivity.
  - rewrite length_app, Hlen. simpl. lia.
Qed.

Lemma sendEmail_all_providers_fail_witness :
  exec (sendEmail [primary; secondary; tertiary] threeChannels testEmail)
    (failures ([connectionTimeout; invalidLogin] ++ [connectionTimeout]))
  = Some ((recordFailures (healthyTransporters threeChannels)
             ([connectionTimeout; invalidLogin] ++ [connectionTimeout]) threeChannels,
           inl (Error ("Failed to send email with all providers. Last error: "
                       +:+ message connectionTimeout))),
          map (attempt testEmail) (healthyTransporters threeChannels)).
Proof.
  apply (sendEmail_all_providers_fail [primary; secondary; tertiary] threeChannels
           testEmail [connectionTimeout; invalidLogin] connectionTimeout); reflexivity.
Defined.

(** *** Classification of errors *)

Lemma persistentErrorCodes_includes c :
  Js.arrayIncludes persistentErrorCodes c = true
  <-> c = "EAUTH" \/ c = "EENVELOPE" \/ c = "EMESSAGE".
Proof.
  unfold Js.arrayIncludes, persistentErrorCodes. cbn [existsb].
  rewrite !orb_true_iff, !String.eqb_eq. intuition discriminate.
Qed.

Lemma isPersistentError_kinds e :
  isPersistentError e = true
  <-> authenticationFailure e \/ malformedEnvelope e \/ malformedMessage e.
Proof.
  unfold isPersistentError, authenticationFailure, malformedEnvelope, malformedMessage,
    mentions, persistentErrorMessages.
  cbn [existsb]. rewrite !orb_true_iff.
  destruct (code e) as [c|].
  - rewrite persistentErrorCodes_includes.
    split.
    + intros [[ -> | [ -> | -> ]]|[?|[?|[?|[?|?]]]]]; try discriminate; auto 10.
    + intros [[[= ->]|?]|[[= ->]|[= ->]]]; auto 10.
      right. intuition.
  - split.
    + intros [?|[?|[?|[?|[?|?]]]]]; try discriminate; auto 10.
    + intros [[?|?]|[?|?]]; try discriminate. right. intuition.
Qed.

(** C4. Let the send on a healthy channel fail with [e] in a call of
    [sendEmail], after the sends on the healthy channels before it failed
    too. The error is taken for persistent exactly when it is an
    authentication failure, a malformed envelope or a malformed message.
    If it is, the channel ends up unhealthy with the message of [e] as its
    [lastError]; if it is not, the object of the channel is as it was.
    In both cases the loop goes on: the next call issued is the send on the
    next healthy channel, and when there is none the call fails with the
    error that all providers failed, which carries the message of [e]. *)
Theorem sendEmail_failure_classified config this emailData
    before i info rest errors e script this' result calls :
  isInitialized this = true ->
  validateEmailData emailData = inr tt ->
  healthyTransporters this = before ++ (i, info) :: rest ->
  length errors = length before ->
  exec (sendEmail config this emailData) (failures errors ++ SendMailReply (inl e) :: script)
  = Some ((this', result), calls) ->
  (isPersistentError e = true
   <-> authenticationFailure e \/ malformedEnvelope e \/ malformedMessage e)
  /\ (isPersistentError e = true ->
      transporters this' !! i = Some (unhealthy info (message e)))
  /\ (isPersistentError e = false -> transporters this' !! i = Some info)
  /\ match rest with
     | next :: _ => calls !! S (length before) = Some (attempt emailData next)
     | [] => result = inl (allProvidersFailed (Some e))
     end.
Proof.
  intros Hinit Hvalid Hhealthy Hlen Hrun.
  split; [apply isPersistentError_kinds|].
  pose proof (healthyTransporters_NoDup this) as Hnodup.
  rewrite Hhealthy, fmap_app, fmap_cons in Hnodup. simpl in Hnodup.
  apply NoDup_app in Hnodup as (_ & Hbefore & [Hrest _]%NoDup_cons).
  assert (Hi : i ∉ before.*1).
  { intros Hin. apply (Hbefore _ Hin). by left. }
  assert (Hinfo : transporters this !! i = Some info).
  { apply healthyTransporters_lookup. rewrite Hhealthy.
    apply elem_of_app. right. by left. }
  rewrite (sendEmail_initialized _ _ _ Hinit) in Hrun.
  unfold sendInitialized in Hrun. rewrite Hvalid, Hhealthy in Hrun.
  rewrite length_app in Hrun. simpl in Hrun.
  replace (length before + S (length rest) =? 0) with false in Hrun
    by (symmetry; apply Nat.eqb_neq; lia).
  rewrite (sendLoop_failures _ _ _ _ _ _ _ Hlen) in Hrun.
  simpl in Hrun.
  destruct (exec (sendLoop emailData rest (Some e)
                    (recordFailure i e (recordFailures before errors this))) script)
    as [[[this2 result2] calls2]|] eqn:Hloop; simpl in Hrun; [|discriminate].
  injection Hrun as <- <- <-.
  assert (Hthis2 : transporters this2 !! i
                   = Some (if isPersistentError e then unhealthy info (message e) else info)).
  { rewrite (sendLoop_other _ _ _ _ _ _ _ _ _ Hloop Hrest).
    apply lookup_recordFailure_eq.
    by rewrite lookup_recordFailures_other. }
  split; [intros He; by rewrite Hthis2, He|].
  split; [intros He; by rewrite Hthis2, He|].
  destruct rest as [|next rest].
  - destruct script; [|discriminate]. simpl in Hloop. by injection Hloop as _ <- _.
  - apply sendLoop_first in Hloop.
    rewrite lookup_app_r; rewrite length_map; [|lia].
    by replace (S (length before) - length before) with 1 by lia.
Qed.

Lemma sendEmail_failure_classified_witness :
  (isPersistentError invalidLogin = true
   <-> authenticationFailure invalidLogin \/ malformedEnvelope invalidLogin
       \/ malformedMessage invalidLogin)
  /\ (isPersistentError invalidLogin = true ->
      transporters
        {| transporters :=
             [healthyChannel primary;
              unhealthy (healthyChannel secondary) (message invalidLogin);
              sentOneMore (healthyChannel tertiary)];
           isInitialized := true |} !! 1
      = Some (unhealthy (healthyChannel secondary) (message invalidLogin)))
  /\ (isPersistentError invalidLogin = false ->
      transporters
        {| transporters :=
             [healthyChannel primary;
              unhealthy (healthyChannel secondary) (message invalidLogin);
              sentOneMore (healthyChannel tertiary)];
           isInitialized := true |} !! 1
      = Some (healthyChannel secondary))
  /\ [attempt testEmail (0, healthyChannel primary);
      attempt testEmail (1, healthyChannel secondary);
      attempt testEmail (2, healthyChannel tertiary)] !! 2
     = Some (attempt testEmail (2, healthyChannel tertiary)).
Proof.
  apply (sendEmail_failure_classified [primary; secondary; tertiary] threeChannels testEmail
           [(0, healthyChannel primary)] 1 (healthyChannel secondary)
           [(2, healthyChannel tertiary)] [connectionTimeout] invalidLogin
           [SendMailReply (inr accepted)]
           {| transporters :=
                [healthyChannel primary;
                 unhealthy (healthyChannel secondary) (message invalidLogin);
                 sentOneMore (healthyChannel tertiary)];
              isInitialized := true |}
           (inr {| success := true;
                   messageId := info_messageId accepted;
                   provider := name (healthyChannel tertiary);
                   response := info_response accepted |})
           [attempt testEmail (0, healthyChannel primary);
            attempt testEmail (1, healthyChannel secondary);
            attempt testEmail (2, healthyChannel tertiary)]); reflexivity.
Defined.

(** ** Health check *)

Lemma healthCheckLoop_run pending visited healthStatus outcomes :
  length outcomes = length pending ->
  exec (healthCheckLoop pending visited healthStatus) (map VerifyReply outcomes)
  = Some ((visited ++ zip_with recheck pending outcomes,
           healthStatus ++ zip_with healthEntry pending outcomes),
          map (fun info => handshake (transporter info)) pending).
Proof.
  revert visited healthStatus outcomes.
  induction pending as [|info pending IH]; intros visited healthStatus outcomes Hlen.
  - destruct outcomes; [|discriminate]. simpl. by rewrite !app_nil_r.
  - destruct outcomes as [|outcome outcomes]; [discriminate|].
    injection Hlen as Hlen. simpl.
    rewrite (IH _ _ _ Hlen). simpl. by rewrite <- !app_assoc.
Qed.

Lemma healthCheck_run this outcomes :
  length outcomes = length (transporters this) ->
  exec (healthCheck this) (map VerifyReply outcomes)
  = Some (({| transporters := zip_with recheck (transporters this) outcomes;
              isInitialized := isInitialized this |},
           {| Health.overall :=
                existsb Health.isHealthy (zip_with healthEntry (transporters this) outcomes);
              Health.providers := zip_with healthEntry (transporters this) outcomes |}),
          map (fun info => handshake (transporter info)) (transporters this)).
Proof.
  intros Hlen. unfold healthCheck.
  pose proof (healthCheckLoop_run (transporters this) [] [] outcomes Hlen) as Hloop.
  pose proof (exec_bind (healthCheckLoop (transporters this) [] [])
    (fun x : list TransporterInfo * list Health.Status =>
       match x with
       | (visited, healthStatus) =>
           Ret ({| transporters := visited; isInitialized := isInitialized this |},
                {| Health.overall := existsb Health.isHealthy healthStatus;
                   Health.providers := healthStatus |})
       end)
    (map VerifyReply outcomes) [] _ _ Hloop) as Hb.
  rewrite app_nil_r in Hb. rewrite Hb. simpl. by rewrite app_nil_r.
Qed.

(** C6. [healthCheck] shakes hands with every configured channel, healthy
    or not, in order. A channel whose handshake succeeds is healthy
    afterwards and has no [lastError], whatever its flag was before; a
    channel whose handshake fails is unhealthy afterwards with the message
    of the error as [lastError]; name, transport and sent counter are kept.
    The report has one entry for every channel, with the fresh status. *)
Theorem healthCheck_refreshes_every_channel this outcomes :
  length outcomes = length (transporters this) ->
  exists this' report,
    exec (healthCheck this) (map VerifyReply outcomes)
    = Some ((this', report),
            map (fun info => handshake (transporter info)) (transporters this))
    /\ length (transporters this') = length (transporters this)
    /\ length (Health.providers report) = length (transporters this)
    /\ forall i info outcome,
         transporters this !! i = Some info ->
         outcomes !! i = Some outcome ->
         exists info' status,
           transporters this' !! i = Some info'
           /\ Health.providers report !! i = Some status
           /\ transporter info' = transporter info
           /\ name info' = name info
           /\ emailsSent info' = emailsSent info
           /\ isHealthy info' = verified outcome
           /\ lastError info' = message <$> outcome
           /\ Health.name status = name info
           /\ Health.emailsSent status = emailsSent info
           /\ Health.isHealthy status = verified outcome
           /\ Health.lastError status = message <$> outcome.
Proof.
  intros Hlen. eexists _, _.
  split; [by apply healthCheck_run|]. simpl.
  split; [rewrite length_zip_with; lia|].
  split; [rewrite length_zip_with; lia|].
  intros i info outcome Hinfo Houtcome.
  exists (recheck info outcome), (healthEntry info outcome).
  rewrite !lookup_zip_with, Hinfo, Houtcome. simpl.
  by destruct outcome.
Qed.

Lemma healthCheck_refreshes_every_channel_witness :
  exists this' report,
    exec (healthCheck
            {| transporters :=
                 [unhealthy (healthyChannel primary) (message invalidLogin);
                  healthyChannel secondary];
               isInitialized := true |})
      (map VerifyReply [None; Some connectionTimeout])
    = Some ((this', report),
            [handshake (transportOf primary); handshake (transportOf secondary)])
    /\ length (transporters this') = 2
    /\ length (Health.providers report) = 2
    /\ forall i info outcome,
         [unhealthy (healthyChannel primary) (message invalidLogin);
          healthyChannel secondary] !! i = Some info ->
         [None; Some connectionTimeout] !! i = Some outcome ->
         exists info' status,
           transporters this' !! i = Some info'
           /\ Health.providers report !! i = Some status
           /\ transporter info' = transporter info
           /\ name info' = name info
           /\ emailsSent info' = emailsSent info
           /\ isHealthy info' = verified outcome
           /\ lastError info' = message <$> outcome
           /\ Health.name status = name info
           /\ Health.emailsSent status = emailsSent info
           /\ Health.isHealthy status = verified outcome
           /\ Health.lastError status = message <$> outcome.
Proof.
  apply (healthCheck_refreshes_every_channel
           {| transporters :=
                [unhealthy (healthyChannel primary) (message invalidLogin);
                 healthyChannel secondary];
              isInitialized := true |}
           [None; Some connectionTimeout]).
  reflexivity.
Defined.

(** ** Initialisation *)

Lemma configured_cons provider config :
  configured (provider :: config)
  = if hasCredentials provider then provider :: configured config else configured config.
Proof.
  unfold configured. destruct (hasCredentials provider) eqn:H.
  - apply filter_cons_True. by rewrite H.
  - apply filter_cons_False. rewrite H. intros [].
Qed.

(** Where the module has no [createTransporter], the loop ends at the
    first provider that has its credentials, before any handshake. *)
Lemma initializeLoop_nodemailer config pushed :
  initializeLoop nodemailer config pushed
  = Ret (pushed,
         match configured config with
         | [] => None
         | _ :: _ => Some (TypeError "nodemailer.createTransporter is not a function")
         end).
Proof.
  induction config as [|provider config IH]; [done|].
  rewrite configured_cons. cbn [initializeLoop].
  by destruct (hasCredentials provider).
Qed.

(** With a module that has the factory, as the unit tests mock it, the
    loop shakes hands with every provider that has its credentials. *)
Lemma initializeLoop_run config pushed outcomes :
  length outcomes = length (configured config) ->
  exec (initializeLoop jestMock config pushed) (map VerifyReply outcomes)
  = Some ((pushed ++ zip_with verifiedChannel (configured config) outcomes, None),
          map (fun provider => handshake (transportOf provider)) (configured config)).
Proof.
  revert pushed outcomes.
  induction config as [|provider config IH]; intros pushed outcomes.
  - destruct outcomes; [|discriminate]. intros _. simpl. by rewrite app_nil_r.
  - rewrite configured_cons. simpl.
    destruct (hasCredentials provider); [|by apply IH].
    destruct outcomes as [|outcome outcomes]; [discriminate|].
    intros [= Hlen]. simpl.
    rewrite (IH _ _ Hlen). simpl. by rewrite <- app_assoc.
Qed.

(** With a module that has the factory, as the unit tests mock it,
    [initialize] does what its comments and the tests say: it passes over the
    providers that lack a host, a user or a password and shakes hands with
    the others only; each of these becomes a channel, healthy when the
    handshake succeeded and unhealthy with the message of the error when it
    failed; and it throws exactly when no provider became a channel. *)
Lemma initializeWith_factory_configures_channels config this outcomes :
  isInitialized this = false ->
  length outcomes = length (configured config) ->
  exists this' thrown,
    exec (initializeWith jestMock config this) (map VerifyReply outcomes)
    = Some ((this', thrown),
            map (fun provider => handshake (transportOf provider)) (configured config))
    /\ length (transporters this') = length (configured config)
    /\ (forall i provider outcome,
          configured config !! i = Some provider ->
          outcomes !! i = Some outcome ->
          transporters this' !! i
          = Some {| transporter := transportOf provider;
                    name := Provider.name provider;
                    isHealthy := verified outcome;
                    lastError := message <$> outcome;
                    emailsSent := 0 |})
    /\ (thrown = inl (Error "No email providers configured") <-> transporters this' = [])
    /\ (thrown = inr tt <-> transporters this' <> [])
    /\ (isInitialized this' = true <-> thrown = inr tt).
Proof.
  intros Hinit Hlen.
  pose proof (initializeLoop_run config [] outcomes Hlen) as Hloop. simpl in Hloop.
  unfold initializeWith. rewrite Hinit.
  set (channels := zip_with verifiedChannel (configured config) outcomes) in *.
  assert (Hchannels : length channels = length (configured config)).
  { unfold channels. rewrite length_zip_with; lia. }
  exists {| transporters := channels; isInitialized := negb (length channels =? 0) |},
    (if length channels =? 0
     then inl (Error "No email providers configured") else inr tt).
  split.
  { match goal with
    | |- context [mbind ?f (initializeLoop jestMock config [])] =>
        pose proof (exec_bind (initializeLoop jestMock config []) f
                      (map VerifyReply outcomes) [] _ _ Hloop) as Hb
    end.
    rewrite app_nil_r in Hb. rewrite Hb.
    destruct (length channels =? 0); simpl; by rewrite app_nil_r. }
  simpl. split; [done|]. split.
  { intros i provider outcome Hprovider Houtcome.
    unfold channels. rewrite lookup_zip_with, Hprovider, Houtcome. simpl.
    by destruct outcome. }
  destruct channels as [|channel channels']; simpl; intuition discriminate.
Qed.

(** C9. With the module that the service requires, [initialize] does not
    do what the claim says. On a service that is not initialised yet and
    with a configuration in which a provider has its host, user and
    password, it throws the TypeError of the call of
    [nodemailer.createTransporter], at the first such provider: it shakes
    hands with no provider, records no channel, healthy or unhealthy, and
    leaves the service uninitialised. So it fails although providers are
    configured. *)
Theorem initialize_fails_with_configured_provider config this :
  isInitialized this = false ->
  configured config <> [] ->
  initialize config this
  = Ret (newEmailService,
         inl (TypeError "nodemailer.createTransporter is not a function"))
  /\ exec (initialize config this) []
     = Some ((newEmailService,
              inl (TypeError "nodemailer.createTransporter is not a function")), []).
Proof.
  intros Hinit Hconfigured.
  assert (H : initialize config this
              = Ret (newEmailService,
                     inl (TypeError "nodemailer.createTransporter is not a function"))).
  { unfold initialize, initializeWith. rewrite Hinit, initializeLoop_nodemailer.
    by destruct (configured config). }
  by rewrite H.
Qed.

Lemma initialize_fails_with_configured_provider_witness :
  initialize [unconfigured; primary; tertiary] newEmailService
  = Ret (newEmailService,
         inl (TypeError "nodemailer.createTransporter is not a function"))
  /\ exec (initialize [unconfigured; primary; tertiary] newEmailService) []
     = Some ((newEmailService,
              inl (TypeError "nodemailer.createTransporter is not a function")), []).
Proof.
  apply (initialize_fails_with_configured_provider [unconfigured; primary; tertiary]
           newEmailService).
  - reflexivity.
  - discriminate.
Defined.

(** ** Bulk sending *)

Section BulkProperties.

Variable settles : nat -> EmailData.t -> JsError + SendResult.
Variable settleOrder : list (nat * EmailData.t) -> list (nat * EmailData.t).
Hypothesis settleOrder_permutes : forall wave, settleOrder wave ≡ₚ wave.

Lemma settleBatch_continue settling results :
  settleBatch settles true settling results
  = inr {| Bulk.sent := Bulk.sent results ++ sentEntries settles settling;
           Bulk.failed := Bulk.failed results ++ failedEntries settles settling;
           Bulk.total := Bulk.total results |}.
Proof.
  revert results. induction settling as [|[index email] settling IH]; intros results.
  - simpl. rewrite !app_nil_r. by destruct results.
  - unfold sentEntries, failedEntries in *. simpl.
    destruct (settles index email) as [error|result]; rewrite IH; simpl;
      by rewrite <- ?app_assoc.
Qed.

Lemma entries_indices settling :
  map Bulk.sent_index (sentEntries settles settling)
  ++ map Bulk.failed_index (failedEntries settles settling)
  ≡ₚ settling.*1.
Proof.
  unfold sentEntries, failedEntries.
  induction settling as [|[index email] settling IH]; [done|]. simpl.
  destruct (settles index email); simpl.
  - rewrite <- Permutation_middle. by constructor.
  - by constructor.
Qed.

Lemma waveAt_lookup emails batchSize i index email :
  (index, email) ∈ waveAt emails batchSize i -> emails !! index = Some email.
Proof.
  unfold waveAt, slice.
  intros (k & y & [= -> ->] & Hk)%elem_of_lookup_imap.
  apply lookup_take_Some in Hk as [Hk _].
  by rewrite lookup_drop in Hk.
Qed.

Lemma waveAt_indices emails batchSize i :
  (waveAt emails batchSize i).*1 = seq i (min batchSize (length emails - i)).
Proof.
  unfold waveAt, slice. rewrite fmap_imap.
  rewrite (imap_ext _ (fun index _ => id (i + index))); [|done].
  rewrite (imap_seq _ id), list_fmap_id.
  by rewrite length_take, length_drop, Nat.add_sub'.
Qed.

Lemma sentEntries_tagged emails settling :
  (forall index email, (index, email) ∈ settling -> emails !! index = Some email) ->
  Forall (sentTagged settles emails) (sentEntries settles settling).
Proof.
  intros Hin. apply Forall_forall. intros entry.
  unfold sentEntries. rewrite list_elem_of_omap.
  intros ([index email] & Helem & Hentry). simpl in Hentry.
  destruct (settles index email) as [|result] eqn:Hs; [discriminate|].
  injection Hentry as <-. exists email. simpl. eauto.
Qed.

Lemma failedEntries_tagged emails settling :
  (forall index email, (index, email) ∈ settling -> emails !! index = Some email) ->
  Forall (failedTagged settles emails) (failedEntries settles settling).
Proof.
  intros Hin. apply Forall_forall. intros entry.
  unfold failedEntries. rewrite list_elem_of_omap.
  intros ([index email] & Helem & Hentry). simpl in Hentry.
  destruct (settles index email) as [error|] eqn:Hs; [|discriminate].
  injection Hentry as <-. exists email, error. simpl. eauto.
Qed.

(** One turn of the loop when failures do not stop it. *)
Lemma bulkLoop_turn emails batchSize delay fuel i results :
  i < length emails ->
  bulkLoop settles settleOrder emails batchSize delay true (S fuel) i results
  = match bulkLoop settles settleOrder emails batchSize delay true fuel (i + batchSize)
            {| Bulk.sent :=
                 Bulk.sent results
                 ++ sentEntries settles (settleOrder (waveAt emails batchSize i));
               Bulk.failed :=
                 Bulk.failed results
                 ++ failedEntries settles (settleOrder (waveAt emails batchSize i));
               Bulk.total := Bulk.total results |} with
    | Some (outcome, events) =>
        Some (outcome,
              Wave (waveAt emails batchSize i)
              :: (if i + batchSize <? length emails then [Pause delay] else []) ++ events)
    | None => None
    end.
Proof.
  intros Hi. cbn [bulkLoop].
  replace (i <? length emails) with true by (symmetry; apply Nat.ltb_lt; lia).
  fold (waveAt emails batchSize i). by rewrite settleBatch_continue.
Qed.

Lemma bulkLoop_end emails batchSize delay continueOnError fuel i results :
  length emails <= i ->
  bulkLoop settles settleOrder emails batchSize delay continueOnError fuel i results
  = Some (inr results, []).
Proof.
  intros Hi. destruct fuel; cbn [bulkLoop];
    by replace (i <? length emails) with false by (symmetry; apply Nat.ltb_ge; lia).
Qed.

Lemma seq_wave_rest i batchSize n :
  seq i (min batchSize (n - i)) ++ seq (i + batchSize) (n - (i + batchSize)) = seq i (n - i).
Proof.
  destruct (decide (batchSize <= n - i)) as [Hle|Hgt].
  - rewrite Nat.min_l by done.
    replace (seq i (n - i)) with (seq i (batchSize + (n - (i + batchSize))))
      by (f_equal; lia).
    by rewrite seq_app.
  - rewrite Nat.min_r by lia.
    replace (n - (i + batchSize)) with 0 by lia. simpl. by rewrite app_nil_r.
Qed.

(** With a positive batch size and failures that do not stop the loop,
    [sendBulkEmails] returns, and from turn [i] on the report gains every
    index from [i] to the end of the input, each exactly once. *)
Lemma bulkLoop_report emails batchSize delay fuel i results :
  0 < batchSize ->
  length emails - i <= fuel ->
  exists results' events,
    bulkLoop settles settleOrder emails batchSize delay true fuel i results
    = Some (inr results', events)
    /\ Bulk.total results' = Bulk.total results
    /\ reportIndices results' ≡ₚ reportIndices results ++ seq i (length emails - i)
    /\ (Forall (sentTagged settles emails) (Bulk.sent results) ->
        Forall (sentTagged settles emails) (Bulk.sent results'))
    /\ (Forall (failedTagged settles emails) (Bulk.failed results) ->
        Forall (failedTagged settles emails) (Bulk.failed results')).
Proof.
  intros Hpos. revert i results.
  induction fuel as [|fuel IH]; intros i results Hfuel.
  - exists results, []. rewrite bulkLoop_end by lia.
    replace (length emails - i) with 0 by lia. simpl. by rewrite app_nil_r.
  - destruct (decide (i < length emails)) as [Hi|Hi].
    2:{ exists results, []. rewrite bulkLoop_end by lia.
        replace (length emails - i) with 0 by lia. simpl. by rewrite app_nil_r. }
    rewrite (bulkLoop_turn _ _ _ _ _ _ Hi).
    set (wave := waveAt emails batchSize i).
    destruct (IH (i + batchSize)
                {| Bulk.sent := Bulk.sent results ++ sentEntries settles (settleOrder wave);
                   Bulk.failed :=
                     Bulk.failed results ++ failedEntries settles (settleOrder wave);
                   Bulk.total := Bulk.total results |})
      as (results' & events & -> & Htotal & Hindices & Hsent & Hfailed); [lia|].
    eexists _, _. split; [reflexivity|]. split; [done|].
    assert (Hwave : forall index email,
               (index, email) ∈ settleOrder wave -> emails !! index = Some email).
    { intros index email Hin. rewrite settleOrder_permutes in Hin.
      by eapply waveAt_lookup. }
    split; [|split].
    + assert (Hgain : map Bulk.sent_index (sentEntries settles (settleOrder wave))
                      ++ map Bulk.failed_index (failedEntries settles (settleOrder wave))
                      ≡ₚ seq i (min batchSize (length emails - i))).
      { rewrite entries_indices, <- waveAt_indices.
        apply fmap_Permutation, settleOrder_permutes. }
      rewrite Hindices. unfold reportIndices. simpl. rewrite !map_app.
      rewrite <- (seq_wave_rest i batchSize (length emails)), <- Hgain.
      solve_Permutation.
    + intros H. apply Hsent. simpl. apply Forall_app. split; [done|].
      by apply sentEntries_tagged.
    + intros H. apply Hfailed. simpl. apply Forall_app. split; [done|].
      by apply failedEntries_tagged.
Qed.

(** For every positive batch size, [sendBulkEmails] returns when failures
    do not stop it, and its report mentions every message of the input
    exactly once. *)
Lemma sendBulkEmails_reports_every_message emails options :
  0 < default 10 (BulkOptions.batchSize options) ->
  default true (BulkOptions.continueOnError options) = true ->
  exists report events,
    sendBulkEmails settles settleOrder emails options = Some (inr report, events)
    /\ reportIndices report ≡ₚ seq 0 (length emails)
    /\ Forall (sentTagged settles emails) (Bulk.sent report)
    /\ Forall (failedTagged settles emails) (Bulk.failed report)
    /\ Bulk.total report = length emails.
Proof.
  intros Hsize Hcontinue. unfold sendBulkEmails. rewrite Hcontinue.
  destruct (bulkLoop_report emails (default 10 (BulkOptions.batchSize options))
              (default 1000 (BulkOptions.delayBetweenBatches options)) (length emails) 0
              {| Bulk.sent := []; Bulk.failed := []; Bulk.total := length emails |})
    as (report & events & Hrun & Htotal & Hindices & Hsent & Hfailed); [done|lia|].
  exists report, events. simpl in *. rewrite Nat.sub_0_r in Hindices.
  repeat split; auto.
Qed.

(** With a batch size of zero the loop never advances: on a non-empty
    input the model has no result, whatever the fuel. *)
Lemma bulkLoop_batchSize_zero emails delay continueOnError fuel results :
  emails <> [] ->
  bulkLoop settles settleOrder emails 0 delay continueOnError fuel 0 results = None.
Proof.
  intros Hemails.
  assert (Hlen : (0 <? length emails) = true).
  { apply Nat.ltb_lt. destruct emails; [done|simpl; lia]. }
  assert (Hwave : settleOrder
                    (imap (fun index email => (0 + index, email)) (slice 0 (0 + 0) emails))
                  = []).
  { apply Permutation_nil_r. by rewrite settleOrder_permutes. }
  revert results. induction fuel as [|fuel IH]; intros results; cbn [bulkLoop];
    rewrite Hlen; [done|].
  rewrite Hwave. cbn [settleBatch]. by rewrite IH.
Qed.

Lemma waveAt_length emails batchSize i :
  length (waveAt emails batchSize i) = min batchSize (length emails - i).
Proof.
  unfold waveAt, slice.
  by rewrite length_imap, length_take, length_drop, Nat.add_sub'.
Qed.

(** C7. Over 25 messages with a batch size of 10 and failures that do not
    stop the loop, [sendBulkEmails] returns a report after three waves of
    10, 10 and 5 messages, which cover the input in order, each message
    with its input index, and it pauses for the configured delay after the
    first and after the second wave. Whatever the way and the order in
    which the calls of a wave settle, every input index from 0 to 24 occurs
    exactly once in the [sent] and [failed] lists taken together; every
    entry carries the address of the message at its index and the outcome
    of the call for it; the two lists have 25 entries together. *)
Theorem sendBulkEmails_25_in_batches_of_10 emails options :
  length emails = 25 ->
  default 10 (BulkOptions.batchSize options) = 10 ->
  default true (BulkOptions.continueOnError options) = true ->
  exists report wave1 wave2 wave3,
    sendBulkEmails settles settleOrder emails options
    = Some (inr report,
            [Wave wave1;
             Pause (default 1000 (BulkOptions.delayBetweenBatches options));
             Wave wave2;
             Pause (default 1000 (BulkOptions.delayBetweenBatches options));
             Wave wave3])
    /\ length wave1 = 10 /\ length wave2 = 10 /\ length wave3 = 5
    /\ wave1 ++ wave2 ++ wave3 = imap pair emails
    /\ reportIndices report ≡ₚ seq 0 25
    /\ Forall (sentTagged settles emails) (Bulk.sent report)
    /\ Forall (failedTagged settles emails) (Bulk.failed report)
    /\ length (Bulk.sent report) + length (Bulk.failed report) = 25
    /\ Bulk.total report = 25.
Proof.
  intros Hlen Hsize Hcontinue.
  unfold sendBulkEmails. rewrite Hsize, Hcontinue.
  set (delay := default 1000 (BulkOptions.delayBetweenBatches options)).
  destruct (bulkLoop_report emails 10 delay (length emails) 0
              {| Bulk.sent := []; Bulk.failed := []; Bulk.total := length emails |})
    as (report & events & Hrun & Htotal & Hindices & Hsent & Hfailed); [lia|lia|].
  simpl in Htotal, Hindices, Hsent, Hfailed.
  rewrite Nat.sub_0_r, Hlen in Hindices. rewrite Hlen in Htotal.
  exists report, (waveAt emails 10 0), (waveAt emails 10 10), (waveAt emails 10 20).
  split.
  { rewrite Hrun. revert Hrun. rewrite Hlen at 1.
    rewrite (bulkLoop_turn _ _ _ 24 0) by lia.
    rewrite (bulkLoop_turn _ _ _ 23 (0 + 10)) by lia.
    rewrite (bulkLoop_turn _ _ _ 22 (0 + 10 + 10)) by lia.
    rewrite bulkLoop_end by (rewrite Hlen; simpl; lia).
    rewrite Hlen. simpl. by intros [= <- <-]. }
  rewrite !waveAt_length, Hlen.
  split; [done|]. split; [done|]. split; [done|].
  split.
  { clear -Hlen. unfold waveAt, slice.
    do 25 (destruct emails as [|? emails]; [discriminate|]).
    destruct emails; [|discriminate]. reflexivity. }
  split; [done|].
  split; [by apply Hsent|]. split; [by apply Hfailed|]. split; [|done].
  apply Permutation_length in Hindices.
  unfold reportIndices in Hindices.
  by rewrite length_app, !length_map, length_seq in Hindices.
Qed.

End BulkProperties.

Lemma sendBulkEmails_25_in_batches_of_10_witness :
  exists report wave1 wave2 wave3,
    sendBulkEmails oddOnesTimeOut reverse (replicate 25 testEmail) batchesOfTen
    = Some (inr report,
            [Wave wave1;
             Pause (default 1000 (BulkOptions.delayBetweenBatches batchesOfTen));
             Wave wave2;
             Pause (default 1000 (BulkOptions.delayBetweenBatches batchesOfTen));
             Wave wave3])
    /\ length wave1 = 10 /\ length wave2 = 10 /\ length wave3 = 5
    /\ wave1 ++ wave2 ++ wave3 = imap pair (replicate 25 testEmail)
    /\ reportIndices report ≡ₚ seq 0 25
    /\ Forall (sentTagged oddOnesTimeOut (replicate 25 testEmail)) (Bulk.sent report)
    /\ Forall (failedTagged oddOnesTimeOut (replicate 25 testEmail)) (Bulk.failed report)
    /\ length (Bulk.sent report) + length (Bulk.failed report) = 25
    /\ Bulk.total report = 25.
Proof.
  apply (sendBulkEmails_25_in_batches_of_10 oddOnesTimeOut reverse
           (fun wave => reverse_Permutation wave) (replicate 25 testEmail) batchesOfTen);
    reflexivity.
Defined.

(** ** Personalisation *)

Lemma variables_valueOf prospect campaignData :
  variables prospect campaignData
  = map (fun k => (keyName k, valueOf prospect campaignData k)) keys.
Proof.
  unfold variables, valueOf, keys. simpl.
  destruct (Prospect.fullName prospect) as [[|c s]|]; reflexivity.
Qed.

Lemma canonicalize_brace c :
  Ascii.eqb (Js.canonicalize "{") (Js.canonicalize c) = Ascii.eqb "{" c.
Proof. destruct c as [[] [] [] [] [] [] [] []]; reflexivity. Qed.

Lemma matchesAt_itself pattern rest : matchesAt pattern (pattern +:+ rest) = true.
Proof.
  induction pattern as [|c pattern IH]; [by destruct rest|].
  simpl. by rewrite Ascii.eqb_refl, IH.
Qed.

Lemma placeholder_braces key :
  placeholder key = String "{" (String "{" (key +:+ "}}")).
Proof. reflexivity. Qed.

Lemma append_cons c s rest : String c s +:+ rest = String c (s +:+ rest).
Proof. reflexivity. Qed.

Lemma matchesAt_cons a pattern b s :
  matchesAt (String a pattern) (String b s)
  = Ascii.eqb (Js.canonicalize a) (Js.canonicalize b) && matchesAt pattern s.
Proof. reflexivity. Qed.

Lemma replaceFrom_cons pattern v whole pos c rest :
  replaceFrom pattern v whole pos 0 (String c rest)
  = if matchesAt pattern (String c rest)
    then getSubstitution (Js.take (String.length pattern) (String c rest))
           (Js.take pos whole) (Js.drop (pos + String.length pattern) whole) v
         +:+ replaceFrom pattern v whole (S pos) (String.length pattern - 1) rest
    else String c (replaceFrom pattern v whole (S pos) 0 rest).
Proof. reflexivity. Qed.

Lemma replaceFrom_skip_cons pattern v whole pos skip c rest :
  replaceFrom pattern v whole pos (S skip) (String c rest)
  = replaceFrom pattern v whole (S pos) skip rest.
Proof. reflexivity. Qed.

(** Text without an opening brace is copied as it is. *)
Lemma replaceFrom_text pattern v whole s :
  forall pos rest,
    braceFree s = true ->
    replaceFrom (String "{" pattern) v whole pos 0 (s +:+ rest)
    = s +:+ replaceFrom (String "{" pattern) v whole (String.length s + pos) 0 rest.
Proof.
  unfold braceFree.
  induction s as [|c s IH]; intros pos rest; [done|].
  cbn [without existsb]. rewrite orb_false_r.
  intros [Hc%negb_true_iff Hs]%andb_true_iff.
  rewrite append_cons, replaceFrom_cons, matchesAt_cons.
  rewrite canonicalize_brace, Ascii.eqb_sym, Hc. cbn [andb].
  rewrite (IH _ _ Hs). cbn [String.length]. by rewrite Nat.add_succ_r.
Qed.

(** The characters of a match are passed over. *)
Lemma replaceFrom_skip pattern v whole s :
  forall pos rest,
    replaceFrom pattern v whole pos (String.length s) (s +:+ rest)
    = replaceFrom pattern v whole (String.length s + pos) 0 rest.
Proof.
  induction s as [|c s IH]; intros pos rest; [done|].
  cbn [String.length]. rewrite append_cons, replaceFrom_skip_cons.
  rewrite IH. by rewrite Nat.add_succ_r.
Qed.

Lemma append_nil_l s : EmptyString +:+ s = s.
Proof. reflexivity. Qed.

Lemma append_nil_r s : s +:+ EmptyString = s.
Proof. induction s as [|c s IH]; [done|]. by rewrite append_cons, IH. Qed.

Lemma append_assoc s1 s2 s3 : (s1 +:+ s2) +:+ s3 = s1 +:+ (s2 +:+ s3).
Proof. induction s1 as [|c s1 IH]; [done|]. by rewrite !append_cons, IH. Qed.

Lemma keyName_inj k k' : String.eqb (keyName k) (keyName k') = true -> k = k'.
Proof. destruct k, k'; simpl; intros H; (reflexivity || discriminate H). Qed.

Lemma plainValue_braceFree v : plainValue v = true -> braceFree v = true.
Proof.
  unfold plainValue, braceFree.
  induction v as [|c v IH]; [done|]. cbn [without existsb].
  rewrite !orb_false_r.
  intros [[Hb _]%negb_true_iff%orb_false_iff Hv]%andb_true_iff.
  by rewrite Hb, IH.
Qed.

(** A value without replacement patterns is written as it is. *)
Lemma getSubstitution_noPattern matched before after v :
  noPattern v = true -> getSubstitution matched before after v = v.
Proof.
  induction v as [|c v IH]; [done|]. cbn [noPattern].
  intros [Hc Hv]%andb_true_iff. cbn [getSubstitution].
  destruct (Ascii.eqb c "$") eqn:Hd; [|by rewrite IH].
  destruct v as [|d v']; [done|].
  cbn [existsb] in Hc. rewrite orb_false_r in Hc.
  apply negb_true_iff in Hc. rewrite !orb_false_iff in Hc.
  destruct Hc as (H1 & H2 & H3 & H4).
  rewrite H1, H2, H3, H4. by rewrite IH.
Qed.

Lemma plainValue_noPattern v : plainValue v = true -> noPattern v = true.
Proof.
  unfold plainValue. induction v as [|c v IH]; [done|]. cbn [without existsb noPattern].
  rewrite orb_false_r. intros [[_ Hd]%negb_true_iff%orb_false_iff Hv]%andb_true_iff.
  rewrite Hd. by apply IH.
Qed.

(** *** Letter case *)

Lemma canonicalize_idemp c : Js.canonicalize (Js.canonicalize c) = Js.canonicalize c.
Proof. destruct c as [[] [] [] [] [] [] [] []]; reflexivity. Qed.

Lemma canonical_app a b : canonical (a +:+ b) = canonical a +:+ canonical b.
Proof.
  induction a as [|c a IH]; [done|].
  rewrite append_cons. cbn [canonical]. by rewrite IH, append_cons.
Qed.

Lemma canonical_length s : String.length (canonical s) = String.length s.
Proof. induction s as [|c s IH]; [done|]. cbn [canonical String.length]. by rewrite IH. Qed.

Lemma canonical_drop i s : canonical (Js.drop i s) = Js.drop i (canonical s).
Proof.
  revert s. induction i as [|i IH]; intros [|c s]; try done.
  cbn [Js.drop canonical]. apply IH.
Qed.

Lemma matchesAt_canonical pattern s :
  matchesAt pattern (canonical s) = matchesAt pattern s.
Proof.
  revert s. induction pattern as [|a pattern IH]; intros [|b s]; try done.
  cbn [canonical]. rewrite !matchesAt_cons, canonicalize_idemp. by rewrite IH.
Qed.

(** Where the pattern matches nowhere, the text is copied as it is. *)
Lemma replaceFrom_copy pattern v whole s :
  forall pos rest,
    (forall i, i < String.length s -> matchesAt pattern (Js.drop i s +:+ rest) = false) ->
    replaceFrom pattern v whole pos 0 (s +:+ rest)
    = s +:+ replaceFrom pattern v whole (String.length s + pos) 0 rest.
Proof.
  induction s as [|c s IH]; intros pos rest Hno; [done|].
  assert (H0 : matchesAt pattern (String c (s +:+ rest)) = false).
  { apply (Hno 0). cbn [String.length]. lia. }
  rewrite append_cons, replaceFrom_cons, H0.
  rewrite IH; [cbn [String.length]; by rewrite Nat.add_succ_r|].
  intros i Hi. apply (Hno (S i)). cbn [String.length]. lia.
Qed.

(** The placeholder of a key matches nowhere in the placeholder of another
    key, in whatever letter case that is written. *)
Lemma placeholder_other k k' i rest :
  k <> k' ->
  i < String.length (placeholder (keyName k)) ->
  matchesAt (placeholder (keyName k'))
    (Js.drop i (canonical (placeholder (keyName k))) +:+ rest) = false.
Proof.
  intros Hk Hi.
  destruct k, k'; try (by destruct Hk);
    (do 20 (destruct i as [|i]; [first [reflexivity|vm_compute in Hi; lia]|]));
    vm_compute in Hi; lia.
Qed.

Lemma spelled_other k k' v whole spelled pos rest :
  spells spelled k ->
  k <> k' ->
  replaceFrom (placeholder (keyName k')) v whole pos 0 (spelled +:+ rest)
  = spelled +:+ replaceFrom (placeholder (keyName k')) v whole
                  (String.length spelled + pos) 0 rest.
Proof.
  intros Hspelled Hk. apply replaceFrom_copy. intros i Hi.
  rewrite <- matchesAt_canonical, canonical_app, canonical_drop, Hspelled.
  apply placeholder_other; [done|].
  by rewrite <- canonical_length, <- Hspelled, canonical_length.
Qed.

Lemma spelled_same k v whole spelled pos rest :
  spells spelled k ->
  noPattern v = true ->
  replaceFrom (placeholder (keyName k)) v whole pos 0 (spelled +:+ rest)
  = v +:+ replaceFrom (placeholder (keyName k)) v whole
            (String.length spelled + pos) 0 rest.
Proof.
  intros Hspelled Hv.
  assert (Hmatch : matchesAt (placeholder (keyName k)) (spelled +:+ rest) = true).
  { rewrite <- matchesAt_canonical, canonical_app, Hspelled, <- canonical_app.
    rewrite matchesAt_canonical. apply matchesAt_itself. }
  assert (Hlen : String.length spelled = String.length (placeholder (keyName k))).
  { by rewrite <- canonical_length, Hspelled, canonical_length. }
  destruct spelled as [|c spelled]; [by destruct k|].
  rewrite append_cons in *. rewrite replaceFrom_cons, Hmatch.
  rewrite (getSubstitution_noPattern _ _ _ _ Hv).
  rewrite <- Hlen. cbn [String.length]. rewrite Nat.sub_1_r. cbn [Nat.pred].
  rewrite replaceFrom_skip. by rewrite Nat.add_succ_r.
Qed.

Lemma braceFree_app a b : braceFree (a +:+ b) = braceFree a && braceFree b.
Proof.
  unfold braceFree. induction a as [|c a IH]; [done|].
  rewrite append_cons. cbn [without]. by rewrite IH, andb_assoc.
Qed.


(** *** Braces *)

Lemma canonicalize_close c :
  Ascii.eqb (Js.canonicalize "}") (Js.canonicalize c) = Ascii.eqb "}" c.
Proof. destruct c as [[] [] [] [] [] [] [] []]; reflexivity. Qed.

Lemma spells_braces spelled k :
  spells spelled k -> exists inner, spelled = String "{" (String "{" inner).
Proof.
  unfold spells. rewrite placeholder_braces. cbn [canonical].
  destruct spelled as [|c1 [|c2 inner]]; cbn [canonical]; try discriminate.
  intros [= H1 H2 _]. exists inner.
  assert (Hbrace : forall c, Js.canonicalize c = Js.canonicalize "{" -> c = "{"%char).
  { intros c Hc. symmetry. apply Ascii.eqb_eq.
    by rewrite <- canonicalize_brace, Hc, Ascii.eqb_refl. }
  by rewrite (Hbrace _ H1), (Hbrace _ H2).
Qed.

(** After an opening brace no placeholder begins, unless the text goes
    on with one opening brace and another character. *)
Lemma after_brace_no_match j str :
  startQuiet str = true ->
  matchesAt (placeholder (keyName j)) (String "{" str) = false.
Proof.
  intros Hquiet. rewrite placeholder_braces, matchesAt_cons, Ascii.eqb_refl. cbn [andb].
  destruct str as [|c [|d x]].
  - reflexivity.
  - rewrite matchesAt_cons, canonicalize_brace.
    destruct (Ascii.eqb "{" c); [|done]. by destruct j.
  - cbn [startQuiet] in Hquiet. rewrite matchesAt_cons, canonicalize_brace.
    destruct (Ascii.eqb "{" c) eqn:Hc; [|done]. cbn [andb].
    rewrite Ascii.eqb_sym, Hc in Hquiet. cbn [negb orb] in Hquiet.
    apply Ascii.eqb_eq in Hquiet as ->. by destruct j.
Qed.

Lemma noDoubleBrace_step opened c s :
  noDoubleBrace opened (String c s) = true -> noDoubleBrace (Ascii.eqb c "{") s = true.
Proof.
  cbn [noDoubleBrace]. destruct (Ascii.eqb c "{"); [|done].
  by intros [_ ?]%andb_true_iff.
Qed.

(** Text without two opening braces in a row is copied as it is. *)
Lemma replaceFrom_quiet j v whole s :
  forall opened pos str,
    noDoubleBrace opened s = true ->
    (endsOpen opened s = true -> startQuiet str = true) ->
    replaceFrom (placeholder (keyName j)) v whole pos 0 (s +:+ str)
    = s +:+ replaceFrom (placeholder (keyName j)) v whole (String.length s + pos) 0 str.
Proof.
  induction s as [|c s IH]; intros opened pos str Hs Hend; [done|].
  pose proof (noDoubleBrace_step _ _ _ Hs) as Hs'. cbn [endsOpen] in Hend.
  assert (Hno : matchesAt (placeholder (keyName j)) (String c (s +:+ str)) = false).
  { destruct (Ascii.eqb c "{") eqn:Hc.
    - apply Ascii.eqb_eq in Hc as ->. apply after_brace_no_match.
      destruct s as [|d s'].
      + rewrite append_nil_l. by apply Hend.
      + cbn [noDoubleBrace] in Hs'. rewrite append_cons.
        destruct (Ascii.eqb d "{") eqn:Hd; [discriminate Hs'|].
        cbn [startQuiet]. rewrite Hd. by destruct (s' +:+ str).
    - by rewrite placeholder_braces, matchesAt_cons, canonicalize_brace, Ascii.eqb_sym, Hc. }
  rewrite append_cons, replaceFrom_cons, Hno.
  rewrite (IH (Ascii.eqb c "{")) by done.
  cbn [String.length]. by rewrite Nat.add_succ_r.
Qed.

Lemma noDoubleBrace_weaken opened s :
  noDoubleBrace opened s = true -> noDoubleBrace false s = true.
Proof.
  destruct s as [|c s]; [done|]. cbn [noDoubleBrace].
  destruct (Ascii.eqb c "{"); [|done]. by intros [_ ->]%andb_true_iff.
Qed.

Lemma endsOpen_cons opened c s : endsOpen opened (String c s) = endsOpen false (String c s).
Proof. reflexivity. Qed.

Lemma calm_weaken opened segments :
  calm opened segments = true -> calm false segments = true.
Proof.
  revert opened. induction segments as [|[s|k spelled|name] segments IH]; intros opened;
    try done.
  cbn [calm]. intros [Hs Hrest]%andb_true_iff.
  rewrite (noDoubleBrace_weaken _ _ Hs). cbn [andb].
  destruct s as [|c s]; [by eapply IH|]. by rewrite <- (endsOpen_cons opened).
Qed.

(** With the placeholders back in the place of their values the template
    is calm all the more. *)
Lemma calm_filled value segments :
  forall opened, calm opened (filled value segments) = true -> calm opened segments = true.
Proof.
  induction segments as [|[s|k spelled|name] segments IH]; intros opened; try done.
  - cbn [filled map calm]. intros [Hs Hrest]%andb_true_iff.
    rewrite Hs. by apply IH.
  - cbn [filled map calm]. intros [_ Hrest]%andb_true_iff.
    apply IH. by eapply calm_weaken.
  - cbn [filled map calm]. apply IH.
Qed.

Lemma accepts_spells value k spelled :
  accepts value (Placeholder k spelled) = true ->
  spells spelled k /\ noPattern (value k) = true.
Proof. cbn [accepts]. by intros [?%String.eqb_eq ?]%andb_true_iff. Qed.

(** A calm template does not begin with a single opening brace. *)
Lemma render_startQuiet value segments :
  forallb (accepts value) segments = true ->
  calm true segments = true ->
  startQuiet (render segments) = true.
Proof.
  induction segments as [|[s|k spelled|name] segments IH]; [done| | |].
  - cbn [forallb accepts calm render andb].
    intros Haccepted [Hs Hrest]%andb_true_iff.
    destruct s as [|c s]; [by apply IH|].
    cbn [noDoubleBrace] in Hs. rewrite append_cons.
    destruct (Ascii.eqb c "{") eqn:Hc; [discriminate Hs|].
    cbn [startQuiet]. rewrite Hc. by destruct (s +:+ render segments).
  - cbn [forallb render]. intros [[Hspelled _]%accepts_spells _]%andb_true_iff _.
    by destruct (spells_braces _ _ Hspelled) as (inner & ->).
  - intros _ _. cbn [render]. by rewrite placeholder_braces.
Qed.

(** *** Placeholders of other names *)

Lemma matchesAt_names key name str :
  without ["}"%char] key = true ->
  without ["{"; "}"]%char name = true ->
  matchesAt (key +:+ "}}") (name +:+ "}}" +:+ str) = true ->
  canonical name = canonical key.
Proof.
  revert name. induction key as [|a key IH]; intros [|d name]; cbn [without existsb];
    rewrite ?orb_false_r.
  - done.
  - intros _ [[_ Hd]%negb_true_iff%orb_false_iff _]%andb_true_iff.
    rewrite append_nil_l, !append_cons, matchesAt_cons, canonicalize_close.
    by rewrite Ascii.eqb_sym, Hd.
  - intros [Ha%negb_true_iff _]%andb_true_iff _.
    rewrite append_nil_l, !append_cons, matchesAt_cons.
    by rewrite Ascii.eqb_sym, canonicalize_close, Ascii.eqb_sym, Ha.
  - intros [_ Hkey]%andb_true_iff [_ Hname]%andb_true_iff.
    rewrite !append_cons, matchesAt_cons.
    intros [Hhead%Ascii.eqb_eq Htail]%andb_true_iff.
    cbn [canonical]. by rewrite Hhead, (IH name Hkey Hname Htail).
Qed.

Lemma keyName_close j : without ["}"%char] (keyName j) = true.
Proof. by destruct j. Qed.

(** The placeholder of a name that is none of the nine is copied as it
    is. *)
Lemma replaceFrom_other_name j v whole name pos str :
  without ["{"; "}"]%char name = true ->
  canonical name <> canonical (keyName j) ->
  replaceFrom (placeholder (keyName j)) v whole pos 0 (placeholder name +:+ str)
  = placeholder name
    +:+ replaceFrom (placeholder (keyName j)) v whole
          (String.length (placeholder name) + pos) 0 str.
Proof.
  intros Hname Hother.
  assert (Hfree : braceFree (name +:+ "}}") = true).
  { rewrite braceFree_app. cbn [andb]. rewrite andb_true_r.
    clear Hother. unfold braceFree. induction name as [|c name IH]; [done|].
    cbn [without existsb] in *. rewrite !orb_false_r in *.
    apply andb_true_iff in Hname as [[Hc _]%negb_true_iff%orb_false_iff Hname].
    by rewrite Hc, IH. }
  assert (Hfirst : matchesAt (placeholder (keyName j))
                     (String "{" (String "{" ((name +:+ "}}") +:+ str))) = false).
  { rewrite placeholder_braces, !matchesAt_cons, !Ascii.eqb_refl. cbn [andb].
    destruct (matchesAt _ _) eqn:Hm; [|done].
    rewrite append_assoc in Hm.
    destruct Hother. by apply (matchesAt_names _ _ str (keyName_close j) Hname). }
  assert (Hsecond : matchesAt (placeholder (keyName j))
                      (String "{" ((name +:+ "}}") +:+ str)) = false).
  { apply after_brace_no_match.
    destruct name as [|c name]; [reflexivity|].
    cbn [without existsb] in Hname.
    apply andb_true_iff in Hname as [[Hc _]%negb_true_iff%orb_false_iff _].
    rewrite !append_cons. cbn [startQuiet]. rewrite Hc.
    by destruct ((name +:+ "}}") +:+ str). }
  rewrite (placeholder_braces name), !append_cons.
  rewrite replaceFrom_cons, Hfirst, replaceFrom_cons, Hsecond.
  rewrite (placeholder_braces (keyName j)), replaceFrom_text by done.
  replace (String.length (String "{" (String "{" (name +:+ "}}"))) + pos)
    with (String.length (name +:+ "}}") + S (S pos)) by (cbn [String.length]; lia).
  done.
Qed.

(** *** The turns of the loop *)

(** One turn of the loop on a template: the placeholders of its key are
    filled, the others and the text are kept. *)
Lemma replaceFrom_render value j whole segments :
  forall opened pos,
    forallb (accepts value) segments = true ->
    calm opened segments = true ->
    replaceFrom (placeholder (keyName j)) (value j) whole pos 0 (render segments)
    = render (map (fill j (value j)) segments).
Proof.
  induction segments as [|[s|k spelled|name] segments IH]; intros opened pos; [done| | |].
  - cbn [forallb accepts calm render map fill andb].
    intros Haccepted [Hs Hrest]%andb_true_iff.
    rewrite (replaceFrom_quiet _ _ _ _ opened) by
      (done || (intros Hend; rewrite Hend in Hrest; by eapply render_startQuiet)).
    by rewrite (IH (endsOpen opened s)).
  - cbn [forallb calm render map fill].
    intros [[Hspelled Hvalue]%accepts_spells Haccepted]%andb_true_iff Hrest.
    destruct (String.eqb (keyName j) (keyName k)) eqn:Hk.
    + apply keyName_inj in Hk as <-. cbn [render].
      rewrite spelled_same by done. by rewrite (IH false).
    + cbn [render]. rewrite (spelled_other k j) by
        (done || (intros ->; by rewrite String.eqb_refl in Hk)).
      by rewrite (IH false).
  - cbn [forallb accepts calm render map fill].
    intros [[Hname Hnone]%andb_true_iff Haccepted]%andb_true_iff Hrest.
    rewrite replaceFrom_other_name; [by rewrite (IH false)|done|].
    intros Heq. rewrite forallb_forall in Hnone.
    assert (Hj : In j keys) by (destruct j; cbn; tauto).
    apply Hnone in Hj. by rewrite Heq, String.eqb_refl in Hj.
Qed.

Lemma accepts_fill value k segments :
  forallb (accepts value) segments = true ->
  forallb (accepts value) (map (fill k (value k)) segments) = true.
Proof.
  induction segments as [|segment segments IH]; [done|].
  cbn [forallb map]. intros [Hsegment Hrest]%andb_true_iff.
  rewrite (IH Hrest), andb_true_r.
  destruct segment as [s|k' spelled|name]; try done.
  cbn [fill]. by destruct (String.eqb (keyName k) (keyName k')).
Qed.

Lemma filled_fill value k segments :
  filled value (map (fill k (value k)) segments) = filled value segments.
Proof.
  unfold filled. rewrite map_map. apply map_ext. intros [s|k' spelled|name]; try done.
  cbn [fill]. destruct (String.eqb (keyName k) (keyName k')) eqn:Hk; [|done].
  by apply keyName_inj in Hk as <-.
Qed.

Lemma fillable_fill value k segments :
  fillable value segments = true ->
  fillable value (map (fill k (value k)) segments) = true.
Proof.
  unfold fillable. intros [Haccepted Hcalm]%andb_true_iff.
  by rewrite accepts_fill, filled_fill.
Qed.

Lemma replaceAll_render value k segments :
  fillable value segments = true ->
  replaceAll (placeholder (keyName k)) (value k) (render segments)
  = render (map (fill k (value k)) segments).
Proof.
  unfold fillable. intros [Haccepted Hcalm%calm_filled]%andb_true_iff.
  unfold replaceAll. by apply (replaceFrom_render _ _ _ _ false).
Qed.

(** All the turns of the loop, on the three fields. *)
Lemma personalizeWith_all value ks :
  forall subject text html,
    fillable value subject = true ->
    fillable value text = true ->
    (forall h, html = Some h -> fillable value h = true) ->
    fold_left personalizeWith (map (fun k => (keyName k, value k)) ks)
      {| Personalized.subject := render subject;
         Personalized.text := render text;
         Personalized.html := render <$> html |}
    = {| Personalized.subject := render (fillAll value ks subject);
         Personalized.text := render (fillAll value ks text);
         Personalized.html := render <$> (fillAll value ks <$> html) |}.
Proof.
  induction ks as [|k ks IH]; intros subject text html Hsubject Htext Hhtml.
  - simpl. by destruct html.
  - cbn [map fold_left]. unfold personalizeWith at 2. simpl.
    rewrite !replaceAll_render by done.
    assert (match render <$> html with
            | Some h =>
                if Js.nonEmpty h
                then Some (replaceAll (placeholder (keyName k)) (value k) h)
                else Some h
            | None => None
            end = render <$> (map (fill k (value k)) <$> html)) as ->.
    { destruct html as [h|]; [|done]. simpl.
      pose proof (replaceAll_render value k h (Hhtml h eq_refl)) as Hr.
      destruct (render h) eqn:Hh; simpl; [|by rewrite Hr].
      by rewrite <- Hr. }
    rewrite IH.
    + unfold fillAll. simpl. by destruct html.
    + by apply fillable_fill.
    + by apply fillable_fill.
    + intros h' Hh'. destruct html as [h|]; [|discriminate].
      injection Hh' as <-. apply fillable_fill; auto.
Qed.

Lemma fillAll_map value ks segments :
  fillAll value ks segments
  = map (fun segment => fold_left (fun segment k => fill k (value k) segment) ks segment)
      segments.
Proof.
  unfold fillAll. revert segments.
  induction ks as [|k ks IH]; intros segments; simpl.
  - by rewrite map_id.
  - by rewrite IH, map_map.
Qed.

Lemma render_fillAll value segments :
  render (fillAll value keys segments) = personalized value segments.
Proof.
  rewrite fillAll_map.
  induction segments as [|[s|k spelled|name] segments IH]; [done| | |].
  - simpl in *. by rewrite IH.
  - cbn [map personalized]. rewrite <- IH. by destruct k.
  - cbn [map personalized]. by rewrite <- IH.
Qed.

(** C8, as amended. Take a template whose subject, text body and HTML body
    are made of text, of placeholders of the nine names that
    [createPersonalizedEmail] knows, in whatever letter case, and of
    placeholders of other names. Let no value that is put in hold one of
    the replacement patterns [$$], [$&], [$`] and [$'], and let two opening
    braces in a row, once the values are in place, occur only at the start
    of the placeholders of other names. Then every placeholder of the nine
    names is replaced, in the subject, in the text body and in the HTML
    body (when there is one): by the value supplied for it when that is
    not empty, and by its neutral default otherwise. The text and the
    placeholders of other names are left as they are. *)
Theorem createPersonalizedEmail_fills_placeholders
    template prospect campaignData subject text html :
  Template.subject template = render subject ->
  Template.content template = render text ->
  Template.htmlContent template = render <$> html ->
  fillable (valueOf prospect campaignData) subject = true ->
  fillable (valueOf prospect campaignData) text = true ->
  (forall h, html = Some h -> fillable (valueOf prospect campaignData) h = true) ->
  createPersonalizedEmail template prospect campaignData
  = {| Personalized.subject :=
         personalized
           (fun k => Js.orElse (supplied prospect campaignData k) (neutralDefault k)) subject;
       Personalized.text :=
         personalized
           (fun k => Js.orElse (supplied prospect campaignData k) (neutralDefault k)) text;
       Personalized.html :=
         personalized
           (fun k => Js.orElse (supplied prospect campaignData k) (neutralDefault k))
         <$> html |}.
Proof.
  intros Hsubject Htext Hhtml Hs Ht Hh.
  unfold createPersonalizedEmail.
  rewrite variables_valueOf, Hsubject, Htext, Hhtml.
  rewrite personalizeWith_all by done.
  rewrite !render_fillAll. f_equal.
  destruct html as [h|]; [|done].
  unfold fmap, option_fmap, option_map. by rewrite render_fillAll.
Qed.

Lemma createPersonalizedEmail_fills_placeholders_witness :
  createPersonalizedEmail styled toysRUs noCampaign
  = {| Personalized.subject :=
         personalized
           (fun k => Js.orElse (supplied toysRUs noCampaign k) (neutralDefault k))
           styledSubject;
       Personalized.text :=
         personalized
           (fun k => Js.orElse (supplied toysRUs noCampaign k) (neutralDefault k))
           styledText;
       Personalized.html :=
         personalized
           (fun k => Js.orElse (supplied toysRUs noCampaign k) (neutralDefault k))
         <$> Some styledHtml |}.
Proof.
  apply (createPersonalizedEmail_fills_placeholders styled toysRUs noCampaign
           styledSubject styledText (Some styledHtml)); try reflexivity.
  by intros h [= <-].
Defined.

(** C8 as stated fails in two ways. A placeholder of a name other than
    the nine is left in the text as it is. And a supplied value is not
    always what replaces the placeholder: the value is read as a
    replacement pattern, so the value [$&] puts the placeholder itself back,
    and [$$] leaves a single dollar sign; a value that holds the
    placeholder of a later key is itself rewritten in a later turn. *)
Lemma createPersonalizedEmail_placeholders_left :
  Personalized.subject
    (createPersonalizedEmail (helloTemplate "Hello {{nickname}}") anaAtAcme noCampaign)
  = "Hello {{nickname}}"
  /\ Personalized.subject
       (createPersonalizedEmail (helloTemplate "Hello {{firstName}}") (firstNamed "$&")
          noCampaign)
     = "Hello {{firstName}}"
  /\ Personalized.subject
       (createPersonalizedEmail (helloTemplate "Hello {{firstName}}") (firstNamed "A$$AP")
          noCampaign)
     = "Hello A$AP"
  /\ Personalized.subject
       (createPersonalizedEmail (helloTemplate "Hello {{firstName}}")
          (firstNamed "{{company}}") noCampaign)
     = "Hello your company".
Proof. repeat split. Qed.

(** ** The services that the class produces

    The properties of [sendEmail] above are stated for an initialised
    service. A service has channels only once it is initialised, and every
    method keeps it so. *)

Lemma newEmailService_wellFormed : wellFormed newEmailService.
Proof. by intros _. Qed.

Lemma wellFormed_initialized this :
  wellFormed this -> transporters this <> [] -> isInitialized this = true.
Proof.
  unfold wellFormed. intros Hwf Hchannels.
  destruct (isInitialized this); [done|]. by destruct Hchannels; apply Hwf.
Qed.

Lemma initialize_wellFormed config this script this' thrown calls :
  wellFormed this ->
  exec (initialize config this) script = Some ((this', thrown), calls) ->
  wellFormed this'.
Proof.
  intros Hwf. unfold initialize, initializeWith.
  destruct (isInitialized this) eqn:Hinit.
  { destruct script; [|discriminate]. by intros [= <- _ _]. }
  rewrite initializeLoop_nodemailer.
  destruct script; [|by destruct (configured config)].
  destruct (configured config); simpl; intros [= <- _ _]; by intros _.
Qed.

Lemma recordFailure_shape i e this :
  length (transporters (recordFailure i e this)) = length (transporters this)
  /\ isInitialized (recordFailure i e this) = isInitialized this.
Proof.
  unfold recordFailure, markUnhealthy.
  destruct (isPersistentError e); simpl; [|done]. by rewrite length_alter.
Qed.

Lemma sendLoop_shape emailData healthy lastErr this script this' result calls :
  exec (sendLoop emailData healthy lastErr this) script = Some ((this', result), calls) ->
  length (transporters this') = length (transporters this)
  /\ isInitialized this' = isInitialized this.
Proof.
  revert lastErr this script calls.
  induction healthy as [|[i info] healthy IH]; intros lastErr this script calls.
  - destruct script; [|discriminate]. by intros [= <- _ _].
  - destruct script as [|[r|[e|sent]] script]; try discriminate; simpl;
      intros (calls' & -> & Hk)%issued_Some.
    + destruct (IH _ _ _ _ Hk) as [-> ->]. apply recordFailure_shape.
    + destruct script; [|discriminate]. injection Hk as <- _ _.
      simpl. by rewrite length_alter.
Qed.

Lemma sendInitialized_wellFormed this emailData script this' result calls :
  wellFormed this ->
  exec (sendInitialized this emailData) script = Some ((this', result), calls) ->
  wellFormed this'.
Proof.
  intros Hwf. unfold sendInitialized.
  destruct (validateEmailData emailData).
  { destruct script; [|discriminate]. by intros [= <- _ _]. }
  destruct (length (healthyTransporters this) =? 0).
  { destruct script; [|discriminate]. by intros [= <- _ _]. }
  intros [Hlen Hinit]%sendLoop_shape. unfold wellFormed in *.
  rewrite Hinit. intros Hthis%Hwf. rewrite Hthis in Hlen.
  by destruct (transporters this').
Qed.

Lemma healthCheck_wellFormed this outcomes this' report calls :
  wellFormed this ->
  exec (healthCheck this) (map VerifyReply outcomes) = Some ((this', report), calls) ->
  wellFormed this'.
Proof.
  intros Hwf Hrun.
  destruct (decide (length outcomes = length (transporters this))) as [Hlen|Hlen].
  - rewrite (healthCheck_run _ _ Hlen) in Hrun. injection Hrun as <- _ _.
    unfold wellFormed in *. simpl. intros Hthis%Hwf. by rewrite Hthis.
  - exfalso. revert Hrun. unfold healthCheck, mbind, prog_bind.
    generalize (@nil TransporterInfo) at 1. generalize (@nil Health.Status).
    revert outcomes calls Hlen.
    induction (transporters this) as [|info pending IH];
      intros outcomes calls Hlen healthStatus visited.
    + destruct outcomes; [done|discriminate].
    + destruct outcomes as [|outcome outcomes]; [discriminate|]. simpl.
      intros (calls' & -> & Hk)%issued_Some.
      eapply IH; [|exact Hk]. simpl in Hlen. lia.
Qed.

(** ** The unit tests of the repository, on the model

    The tests put a mock in the place of [nodemailer]: it has a
    [createTransporter], whose transports resolve [verify], and resolve
    [sendMail] with the message id [test-message-id]. *)

Example test_send_email_successfully :
  exec (sendEmailWith jestMock [primary] newEmailService testEmail)
    [VerifyReply None; SendMailReply (inr accepted)]
  = Some (({| transporters := [sentOneMore (healthyChannel primary)];
              isInitialized := true |},
           inr {| success := true;
                  messageId := "test-message-id";
                  provider := "primary";
                  response := "Email sent successfully" |}),
          [handshake (transportOf primary);
           SendMailCall (transportOf primary) (mailOptions testEmail)]).
Proof. reflexivity. Qed.

Example test_throw_for_invalid_email_data :
  sendEmail [primary] threeChannels withoutRecipient
  = Ret (threeChannels, inl (Error "Recipient email is required")).
Proof. reflexivity. Qed.

Example test_validate_email_addresses :
  sendEmail [primary] threeChannels invalidRecipient
  = Ret (threeChannels, inl (Error "Invalid recipient email: invalid-email")).
Proof. reflexivity. Qed.

Example test_replace_template_variables :
  createPersonalizedEmail (helloTemplate "Hello {{firstName}}") johnDoe testCampaign
  = {| Personalized.subject := "Hello John";
       Personalized.text := "Hi John from Test Corp";
       Personalized.html := Some "<p>Hi John from Test Corp</p>" |}.
Proof. reflexivity. Qed.

Example test_missing_prospect_data :
  createPersonalizedEmail
    {| Template.subject := "Hello {{firstName}}";
       Template.content := "Hi {{firstName}} from {{company}}";
       Template.htmlContent := None |}
    nobody noCampaign
  = {| Personalized.subject := "Hello there";
       Personalized.text := "Hi there from your company";
       Personalized.html := None |}.
Proof. reflexivity. Qed.

Example test_stats_after_failover :
  getStats
    {| transporters :=
         [unhealthy (healthyChannel primary) (message invalidLogin);
          sentOneMore (healthyChannel secondary);
          healthyChannel tertiary];
       isInitialized := true |}
  = {| Stats.providers :=
         [{| Stats.name := "primary";
             Stats.isHealthy := false;
             Stats.emailsSent := 0;
             Stats.lastError := Some "Invalid login: 535 Authentication failed" |};
          {| Stats.name := "secondary";
             Stats.isHealthy := true;
             Stats.emailsSent := 1;
             Stats.lastError := None |};
          {| Stats.name := "tertiary";
             Stats.isHealthy := true;
             Stats.emailsSent := 0;
             Stats.lastError := None |}];
       Stats.totalProviders := 3;
       Stats.healthyProviders := 2 |}.
Proof. reflexivity. Qed.

(** * Further properties *)

(** ** The address check *)

Lemma append_nil_inv s1 s2 :
  s1 +:+ s2 = EmptyString -> s1 = EmptyString /\ s2 = EmptyString.
Proof. destruct s1; [done|discriminate]. Qed.

Lemma nullable_Matches r : Regex.nullable r = true <-> Matches r EmptyString.
Proof.
  split.
  - induction r; simpl; try discriminate; intros H.
    + constructor.
    + apply andb_true_iff in H as [H1 H2].
      change EmptyString with (EmptyString +:+ EmptyString). constructor; auto.
    + apply orb_true_iff in H as [H|H]; [apply MatchesOrL|apply MatchesOrR]; auto.
    + constructor.
  - intros H. remember EmptyString as s eqn:Hs.
    induction H; simpl; try done.
    + apply append_nil_inv in Hs as [-> ->]. by rewrite IHMatches1, IHMatches2.
    + by rewrite IHMatches.
    + rewrite IHMatches by done. apply orb_true_r.
Qed.

Lemma Matches_Many_cons r c s :
  Matches (Regex.Many r) (String c s) ->
  exists s1 s2, s = s1 +:+ s2 /\ Matches r (String c s1) /\ Matches (Regex.Many r) s2.
Proof.
  intros H. remember (Regex.Many r) as r' eqn:Hr. remember (String c s) as s' eqn:Hs.
  induction H; try discriminate.
  injection Hr as ->.
  destruct s1 as [|c1 s1].
  - rewrite append_nil_l in Hs. by apply IHMatches2.
  - rewrite append_cons in Hs. injection Hs as -> <-. eauto.
Qed.

Lemma deriv_Matches r : forall c s, Matches (Regex.deriv c r) s <-> Matches r (String c s).
Proof.
  induction r as [| |p|r1 IH1 r2 IH2|r1 IH1 r2 IH2|r IH]; intros c s; simpl.
  - split; inversion 1.
  - split; inversion 1.
  - destruct (p c) eqn:Hp; split; intros H; inversion H; subst.
    + by constructor.
    + constructor.
    + congruence.
  - split.
    + intros H.
      assert (Hseq : Matches (Regex.Seq (Regex.deriv c r1) r2) s ->
                     Matches (Regex.Seq r1 r2) (String c s)).
      { intros Hs. inversion Hs; subst.
        change (String c (s1 +:+ s2)) with (String c s1 +:+ s2).
        constructor; [by apply IH1|done]. }
      destruct (Regex.nullable r1) eqn:Hn; [|by apply Hseq].
      inversion H; subst; [by apply Hseq|].
      change (String c s) with (EmptyString +:+ String c s).
      constructor; [by apply nullable_Matches|by apply IH2].
    + intros H. inversion H as [| |? ? s1 s2 H1 H2 Hr Hs| | | |]; subst.
      destruct s1 as [|c1 s1]; [rewrite append_nil_l in Hs|rewrite append_cons in Hs].
      * subst s2. apply nullable_Matches in H1. rewrite H1.
        apply MatchesOrR. by apply IH2.
      * injection Hs as -> <-.
        assert (Matches (Regex.Seq (Regex.deriv c r1) r2) (s1 +:+ s2))
          by (constructor; [by apply IH1|done]).
        destruct (Regex.nullable r1); [by apply MatchesOrL|done].
  - split; intros H; inversion H; subst.
    + apply MatchesOrL. by apply IH1.
    + apply MatchesOrR. by apply IH2.
    + apply MatchesOrL. by apply IH1.
    + apply MatchesOrR. by apply IH2.
  - split.
    + intros H. inversion H; subst.
      change (String c (s1 +:+ s2)) with (String c s1 +:+ s2).
      constructor; [by apply IH|done].
    + intros (s1 & s2 & -> & H1 & H2)%Matches_Many_cons.
      constructor; [by apply IH|done].
Qed.

(** The test by derivatives decides the language. *)
Lemma test_Matches r s : Regex.test r s = true <-> Matches r s.
Proof.
  revert r. induction s as [|c s IH]; intros r; simpl.
  - apply nullable_Matches.
  - rewrite IH. apply deriv_Matches.
Qed.

Lemma Matches_Class_inv p s :
  Matches (Regex.Class p) s -> exists c, s = String c EmptyString /\ p c = true.
Proof. inversion 1; subst. eauto. Qed.

Lemma Matches_Seq_inv r1 r2 s :
  Matches (Regex.Seq r1 r2) s ->
  exists s1 s2, s = s1 +:+ s2 /\ Matches r1 s1 /\ Matches r2 s2.
Proof. inversion 1; subst. eauto. Qed.

Lemma allChars_app p s1 s2 :
  allChars p (s1 +:+ s2) = allChars p s1 && allChars p s2.
Proof.
  induction s1 as [|c s1 IH]; [done|].
  rewrite append_cons. simpl. by rewrite IH, andb_assoc.
Qed.

Lemma Matches_Many_Class p s :
  Matches (Regex.Many (Regex.Class p)) s <-> allChars p s = true.
Proof.
  split.
  - intros H. remember (Regex.Many (Regex.Class p)) as r eqn:Hr.
    induction H; try discriminate; [done|].
    injection Hr as ->.
    apply Matches_Class_inv in H as (c & -> & Hc).
    rewrite allChars_app. simpl. rewrite Hc. simpl. by apply IHMatches2.
  - induction s as [|c s IH]; simpl; [constructor|].
    intros [Hc Hs]%andb_true_iff.
    change (String c s) with (String c EmptyString +:+ s).
    constructor; [by constructor|by apply IH].
Qed.

Lemma Matches_Plus_Class p s :
  Matches (Regex.Plus (Regex.Class p)) s <-> Js.nonEmpty s = true /\ allChars p s = true.
Proof.
  unfold Regex.Plus. split.
  - intros (s1 & s2 & -> & (c & -> & Hc)%Matches_Class_inv & H2%Matches_Many_Class)
      %Matches_Seq_inv.
    rewrite append_cons. simpl. by rewrite Hc, append_nil_l, H2.
  - intros [Hne H]. destruct s as [|c s]; [done|].
    simpl in H. apply andb_true_iff in H as [Hc Hs].
    change (String c s) with (String c EmptyString +:+ s).
    constructor; [by constructor|by apply Matches_Many_Class].
Qed.

Lemma Matches_Lit_inv c s : Matches (Regex.Lit c) s -> s = String c EmptyString.
Proof.
  intros (d & -> & Hd)%Matches_Class_inv. apply Ascii.eqb_eq in Hd. by subst.
Qed.

Lemma Matches_Lit c : Matches (Regex.Lit c) (String c EmptyString).
Proof. constructor. apply Ascii.eqb_refl. Qed.

Lemma addressPart_Matches s :
  Matches (Regex.Plus (Regex.Class notSpaceNorAt)) s <-> addressPart s = true.
Proof. rewrite Matches_Plus_Class. unfold addressPart. by rewrite andb_true_iff. Qed.

Lemma isValidEmail_parts s :
  isValidEmail s = true
  <-> exists localPart domain tld,
        s = localPart +:+ "@" +:+ domain +:+ "." +:+ tld
        /\ addressPart localPart = true
        /\ addressPart domain = true
        /\ addressPart tld = true.
Proof.
  unfold isValidEmail, emailRegex. rewrite test_Matches. split.
  - intros (a & s1 & -> & Ha%addressPart_Matches & H1)%Matches_Seq_inv.
    apply Matches_Seq_inv in H1 as (at' & s2 & -> & ->%Matches_Lit_inv & H2).
    apply Matches_Seq_inv in H2 as (b & s3 & -> & Hb%addressPart_Matches & H3).
    apply Matches_Seq_inv in H3 as (dot & c & -> & ->%Matches_Lit_inv & Hc%addressPart_Matches).
    by exists a, b, c.
  - intros (a & b & c & -> & Ha%addressPart_Matches & Hb%addressPart_Matches
            & Hc%addressPart_Matches).
    constructor; [done|]. constructor; [apply Matches_Lit|].
    constructor; [done|]. constructor; [apply Matches_Lit|done].
Qed.

(** X1. [isValidEmail] accepts exactly the strings made of a local part,
    an [@], a domain, a dot and a last part, where each of the three parts
    is non-empty and has neither white space nor [@]. *)
Theorem isValidEmail_shape s :
  isValidEmail s = true
  <-> exists localPart domain tld,
        s = localPart +:+ "@" +:+ domain +:+ "." +:+ tld
        /\ addressPart localPart = true
        /\ addressPart domain = true
        /\ addressPart tld = true.
Proof. apply isValidEmail_parts. Qed.

(** X2. An address that [isValidEmail] accepts has exactly one [@], no
    white space, and at least five characters. *)
Theorem isValidEmail_one_at_no_space s :
  isValidEmail s = true ->
  occurrences "@" s = 1
  /\ allChars (fun c => negb (Js.isWhiteSpace c)) s = true
  /\ 5 <= String.length s.
Proof.
  intros (a & b & c & -> & Ha & Hb & Hc)%isValidEmail_parts.
  assert (Hpart : forall x, addressPart x = true ->
            occurrences "@" x = 0
            /\ allChars (fun c => negb (Js.isWhiteSpace c)) x = true
            /\ 1 <= String.length x).
  { intros x [Hne Hx]%andb_true_iff. split; [|split].
    - clear Hne. induction x as [|d x IH]; [done|].
      cbn [allChars occurrences] in *. unfold notSpaceNorAt in Hx.
      apply andb_true_iff in Hx as [[_ Hd%negb_true_iff]%andb_true_iff Hx].
      rewrite Ascii.eqb_sym, Hd. by apply IH.
    - clear Hne. induction x as [|d x IH]; [done|].
      cbn [allChars] in *. unfold notSpaceNorAt in Hx.
      apply andb_true_iff in Hx as [[Hd _]%andb_true_iff Hx].
      rewrite Hd. by apply IH.
    - destruct x; [done|simpl; lia]. }
  assert (Hocc : forall x y, occurrences "@" (x +:+ y) = occurrences "@" x + occurrences "@" y).
  { intros x y. induction x as [|d x IH]; [done|].
    rewrite append_cons. cbn [occurrences]. rewrite IH. lia. }
  assert (Hlen : forall x y, String.length (x +:+ y) = String.length x + String.length y).
  { intros x y. induction x as [|d x IH]; [done|].
    rewrite append_cons. simpl. by rewrite IH. }
  destruct (Hpart a Ha) as (Ha1 & Ha2 & Ha3), (Hpart b Hb) as (Hb1 & Hb2 & Hb3),
    (Hpart c Hc) as (Hc1 & Hc2 & Hc3).
  rewrite !Hocc, !allChars_app, !Hlen, Ha1, Hb1, Hc1, Ha2, Hb2, Hc2.
  split; [done|]. split; [done|]. simpl. lia.
Qed.

Lemma isValidEmail_one_at_no_space_witness :
  occurrences "@" "test@example.com" = 1
  /\ allChars (fun c => negb (Js.isWhiteSpace c)) "test@example.com" = true
  /\ 5 <= String.length "test@example.com".
Proof. apply (isValidEmail_one_at_no_space "test@example.com"). reflexivity. Defined.

(** X3. [validateEmailData] accepts a message exactly when it has none of
    the five defects: a recipient is present and every recipient address
    is well formed, the subject is present, one of the bodies is present,
    and the sender, when given and not empty, is well formed. *)
Theorem validateEmailData_accepts_iff emailData :
  validateEmailData emailData = inr tt <-> ~ invalidMessage emailData.
Proof.
  split; [apply validateEmailData_ok|].
  intros Hvalid. destruct (validateEmailData emailData) as [e|[]] eqn:Hv; [|done].
  destruct Hvalid. apply validateEmailData_error in Hv.
  unfold invalidMessage. inversion Hv; subst; eauto 10.
Qed.

(** ** Every run of the failover loop *)

Lemma last_cons_from_option {A : Type} (x : A) (l : list A) (d : option A) :
  from_option Some (Some x) (last l) = from_option Some d (last (x :: l)).
Proof.
  destruct l as [|y l]; [done|].
  change (last (x :: y :: l)) with (last (y :: l)).
  destruct (last (y :: l)) eqn:Hlast; [done|]. by apply last_None in Hlast.
Qed.

(** A run of the loop is a series of rejections, ended by the first
    acceptance or by the end of the list of healthy channels. *)
Lemma sendLoop_runs emailData healthy :
  forall lastErr this script this' result calls,
    exec (sendLoop emailData healthy lastErr this) script = Some ((this', result), calls) ->
    (exists errors,
        script = failures errors
        /\ length errors = length healthy
        /\ this' = recordFailures healthy errors this
        /\ result = inl (allProvidersFailed (from_option Some lastErr (last errors)))
        /\ calls = map (attempt emailData) healthy)
    \/ (exists errors sent before i info rest,
          script = failures errors ++ [SendMailReply (inr sent)]
          /\ healthy = before ++ (i, info) :: rest
          /\ length errors = length before
          /\ this' = countSent i (recordFailures before errors this)
          /\ result = inr (sentThrough info sent)
          /\ calls = map (attempt emailData) (before ++ [(i, info)])).
Proof.
  induction healthy as [|[i info] healthy IH]; intros lastErr this script this' result calls.
  - destruct script; [|discriminate]. intros [= <- <- <-].
    left. by exists [].
  - destruct script as [|[r|[e|sent]] script]; try discriminate; simpl;
      intros (calls' & -> & Hk)%issued_Some.
    + apply IH in Hk
        as [(errors & -> & Hlen & -> & -> & ->)
           |(errors & sent & before & j & info' & rest & -> & -> & Hlen & -> & -> & ->)].
      * left. exists (e :: errors). simpl. rewrite Hlen.
        by rewrite last_cons_from_option with (d := lastErr).
      * right. exists (e :: errors), sent, ((i, info) :: before), j, info', rest.
        simpl. by rewrite Hlen.
    + destruct script; [|discriminate]. injection Hk as <- <- <-.
      right. by exists [], sent, [], i, info, healthy.
Qed.

(** The runs of [sendEmail] on an initialised service. *)
Lemma sendEmail_runs config this emailData script this' result calls :
  isInitialized this = true ->
  exec (sendEmail config this emailData) script = Some ((this', result), calls) ->
  (exists e,
      validateEmailData emailData = inl e
      /\ script = [] /\ this' = this /\ result = inl e /\ calls = [])
  \/ (validateEmailData emailData = inr tt
      /\ healthyTransporters this = []
      /\ script = [] /\ this' = this
      /\ result = inl (Error "No healthy email providers available") /\ calls = [])
  \/ (exists errors eLast,
        validateEmailData emailData = inr tt
        /\ script = failures (errors ++ [eLast])
        /\ length (healthyTransporters this) = S (length errors)
        /\ this' = recordFailures (healthyTransporters this) (errors ++ [eLast]) this
        /\ result = inl (allProvidersFailed (Some eLast))
        /\ calls = map (attempt emailData) (healthyTransporters this))
  \/ (exists errors sent before i info rest,
        validateEmailData emailData = inr tt
        /\ script = failures errors ++ [SendMailReply (inr sent)]
        /\ healthyTransporters this = before ++ (i, info) :: rest
        /\ length errors = length before
        /\ this' = countSent i (recordFailures before errors this)
        /\ result = inr (sentThrough info sent)
        /\ calls = map (attempt emailData) (before ++ [(i, info)])).
Proof.
  intros Hinit. rewrite (sendEmail_initialized _ _ _ Hinit). unfold sendInitialized.
  destruct (validateEmailData emailData) as [e|[]] eqn:Hv.
  { destruct script; [|discriminate]. intros [= <- <- <-]. left. by exists e. }
  destruct (healthyTransporters this) as [|first healthy] eqn:Hh.
  { destruct script; [|discriminate]. intros [= <- <- <-]. right. by left. }
  cbn [length Nat.eqb].
  intros [(errors & -> & Hlen & -> & -> & ->)
         |(errors & sent & before & j & info' & rest & -> & Hsplit & Hlen & -> & -> & ->)]
    %sendLoop_runs.
  - right. right. left.
    destruct errors as [|e errors _] using rev_ind; [discriminate|].
    exists errors, e. rewrite last_snoc. rewrite length_app in Hlen. simpl in *.
    repeat split; try done. lia.
  - right. right. right. by exists errors, sent, before, j, info', rest.
Qed.

(** ** What sendEmail keeps *)

Lemma demotedFrom_refl info : demotedFrom info info.
Proof. by repeat split. Qed.

Lemma recordFailure_demotes channels i e this :
  Forall2 demotedFrom channels (transporters this) ->
  Forall2 demotedFrom channels (transporters (recordFailure i e this)).
Proof.
  intros H. unfold recordFailure, markUnhealthy.
  destruct (isPersistentError e); [|done]. simpl.
  apply Forall2_alter_r; [done|].
  intros x y _ _ (Ht & Hn & Hs & _). by repeat split.
Qed.

Lemma recordFailures_demotes healthy errors this :
  Forall2 demotedFrom (transporters this) (transporters (recordFailures healthy errors this)).
Proof.
  assert (H : forall channels,
             Forall2 demotedFrom channels (transporters this) ->
             Forall2 demotedFrom channels
               (transporters (recordFailures healthy errors this))).
  { revert errors this.
    induction healthy as [|[i info] healthy IH]; intros errors this channels Hc; [done|].
    destruct errors as [|e errors]; [done|]. simpl.
    apply IH. by apply recordFailure_demotes. }
  apply H. apply Forall_Forall2_diag, Forall_forall. intros. apply demotedFrom_refl.
Qed.

Lemma recordFailures_isInitialized healthy errors this :
  isInitialized (recordFailures healthy errors this) = isInitialized this.
Proof.
  revert errors this.
  induction healthy as [|[i info] healthy IH]; intros errors this; [done|].
  destruct errors as [|e errors]; [done|]. simpl.
  rewrite IH. apply recordFailure_shape.
Qed.

Lemma demotedFrom_fields channels channels' :
  Forall2 demotedFrom channels channels' ->
  name <$> channels' = name <$> channels
  /\ transporter <$> channels' = transporter <$> channels
  /\ emailsSent <$> channels' = emailsSent <$> channels.
Proof.
  induction 1 as [|x y l k (Ht & Hn & Hs & _) _ (IH1 & IH2 & IH3)]; [done|].
  rewrite !fmap_cons. by rewrite Ht, Hn, Hs, IH1, IH2, IH3.
Qed.

Lemma countSent_fields i this :
  name <$> transporters (countSent i this) = name <$> transporters this
  /\ transporter <$> transporters (countSent i this) = transporter <$> transporters this.
Proof.
  simpl. split; (rewrite list_fmap_alter with (h := id);
    [by rewrite list_alter_id|by apply Forall_forall]).
Qed.

(** X4. A call of [sendEmail] on an initialised service keeps the list of
    channels: the service stays initialised, and the channels keep their
    number, order, names and transports, whatever the message, the replies
    and the outcome. *)
Theorem sendEmail_keeps_channels config this emailData script this' result calls :
  isInitialized this = true ->
  exec (sendEmail config this emailData) script = Some ((this', result), calls) ->
  isInitialized this' = true
  /\ name <$> transporters this' = name <$> transporters this
  /\ transporter <$> transporters this' = transporter <$> transporters this.
Proof.
  intros Hinit Hrun.
  destruct (sendEmail_runs _ _ _ _ _ _ _ Hinit Hrun)
    as [(e & _ & _ & -> & _)
       |[(_ & _ & _ & -> & _)
        |[(errors & eLast & _ & _ & _ & -> & _)
         |(errors & sent & before & i & info & rest & _ & _ & _ & _ & -> & _)]]];
    try done.
  - rewrite recordFailures_isInitialized. split; [done|].
    by destruct (demotedFrom_fields _ _ (recordFailures_demotes
      (healthyTransporters this) (errors ++ [eLast]) this)) as (? & ? & _).
  - destruct (countSent_fields i (recordFailures before errors this)) as [-> ->].
    simpl. rewrite recordFailures_isInitialized. split; [done|].
    by destruct (demotedFrom_fields _ _ (recordFailures_demotes before errors this))
      as (? & ? & _).
Qed.

Lemma sendEmail_keeps_channels_witness :
  isInitialized
    {| transporters :=
         [unhealthy (healthyChannel primary) (message invalidLogin);
          sentOneMore (healthyChannel secondary);
          healthyChannel tertiary];
       isInitialized := true |} = true
  /\ name <$> [unhealthy (healthyChannel primary) (message invalidLogin);
               sentOneMore (healthyChannel secondary);
               healthyChannel tertiary]
     = name <$> transporters threeChannels
  /\ transporter <$> [unhealthy (healthyChannel primary) (message invalidLogin);
                      sentOneMore (healthyChannel secondary);
                      healthyChannel tertiary]
     = transporter <$> transporters threeChannels.
Proof.
  apply (sendEmail_keeps_channels [primary; secondary; tertiary] threeChannels testEmail
           [SendMailReply (inl invalidLogin); SendMailReply (inr accepted)]
           {| transporters :=
                [unhealthy (healthyChannel primary) (message invalidLogin);
                 sentOneMore (healthyChannel secondary);
                 healthyChannel tertiary];
              isInitialized := true |}
           (inr (sentThrough (healthyChannel secondary) accepted))
           [attempt testEmail (0, healthyChannel primary);
            attempt testEmail (1, healthyChannel secondary)]); reflexivity.
Defined.

Lemma sentBy_demotes channels this j :
  Forall2 demotedFrom channels (transporters this) ->
  sentBy this j = emailsSent <$> channels !! j.
Proof.
  intros (_ & _ & Hs)%demotedFrom_fields. unfold sentBy.
  by rewrite <- !list_lookup_fmap, Hs.
Qed.

(** X5. [sendEmail] never makes a channel healthy: a channel that is
    healthy after a call on an initialised service was healthy before it,
    with the same [lastError]. *)
Theorem sendEmail_never_restores_health
    config this emailData script this' result calls j info' :
  isInitialized this = true ->
  exec (sendEmail config this emailData) script = Some ((this', result), calls) ->
  transporters this' !! j = Some info' ->
  isHealthy info' = true ->
  exists info,
    transporters this !! j = Some info
    /\ isHealthy info = true
    /\ lastError info' = lastError info.
Proof.
  intros Hinit Hrun Hj Hhealthy.
  assert (Hdemoted : forall healthy errors info1,
             transporters (recordFailures healthy errors this) !! j = Some info1 ->
             isHealthy info1 = true ->
             transporters this !! j = Some info1).
  { intros healthy errors info1 H1 Hh.
    destruct (Forall2_lookup_r _ _ _ _ _ (recordFailures_demotes healthy errors this) H1)
      as (info & Hinfo & _ & _ & _ & Hsame).
    by rewrite <- (Hsame Hh) in Hinfo. }
  destruct (sendEmail_runs _ _ _ _ _ _ _ Hinit Hrun)
    as [(e & _ & _ & -> & _)
       |[(_ & _ & _ & -> & _)
        |[(errors & eLast & _ & _ & _ & -> & _)
         |(errors & sent & before & i & info & rest & _ & _ & _ & _ & -> & _)]]];
    eauto.
  simpl in Hj. rewrite list_lookup_alter in Hj.
  destruct (decide (i = j)) as [->|Hne].
  - destruct (transporters (recordFailures before errors this) !! j) as [info1|] eqn:H1;
      [|discriminate].
    injection Hj as <-. simpl in *. eauto.
  - eauto.
Qed.

Lemma sendEmail_never_restores_health_witness :
  exists info,
    transporters threeChannels !! 1 = Some info
    /\ isHealthy info = true
    /\ lastError (sentOneMore (healthyChannel secondary)) = lastError info.
Proof.
  apply (sendEmail_never_restores_health [primary; secondary; tertiary] threeChannels testEmail
           [SendMailReply (inl invalidLogin); SendMailReply (inr accepted)]
           {| transporters :=
                [unhealthy (healthyChannel primary) (message invalidLogin);
                 sentOneMore (healthyChannel secondary);
                 healthyChannel tertiary];
              isInitialized := true |}
           (inr (sentThrough (healthyChannel secondary) accepted))
           [attempt testEmail (0, healthyChannel primary);
            attempt testEmail (1, healthyChannel secondary)]
           1 (sentOneMore (healthyChannel secondary))); reflexivity.
Defined.

(** X6. [sendEmail] counts what it sends. When a call on an initialised
    service fails, every sent counter is as before. When it succeeds, the
    result names a channel that was healthy before the call, the counter of
    that channel is one higher, and every other counter is as before. *)
Theorem sendEmail_counts_what_it_sends config this emailData script this' result calls :
  isInitialized this = true ->
  exec (sendEmail config this emailData) script = Some ((this', result), calls) ->
  match result with
  | inl _ => forall j, sentBy this' j = sentBy this j
  | inr sent =>
      exists i info,
        transporters this !! i = Some info
        /\ isHealthy info = true
        /\ provider sent = name info
        /\ sentBy this' i = Some (S (emailsSent info))
        /\ forall j, j <> i -> sentBy this' j = sentBy this j
  end.
Proof.
  intros Hinit Hrun.
  destruct (sendEmail_runs _ _ _ _ _ _ _ Hinit Hrun)
    as [(e & _ & _ & -> & -> & _)
       |[(_ & _ & _ & -> & -> & _)
        |[(errors & eLast & _ & _ & _ & -> & -> & _)
         |(errors & sent & before & i & info & rest & _ & _ & Hsplit & _ & -> & -> & _)]]];
    try done.
  - intros j. apply sentBy_demotes, recordFailures_demotes.
  - pose proof (healthyTransporters_NoDup this) as Hnodup.
    rewrite Hsplit, fmap_app, fmap_cons in Hnodup. simpl in Hnodup.
    apply NoDup_app in Hnodup as (_ & Hbefore & _).
    assert (Hi : i ∉ before.*1).
    { intros Hin. apply (Hbefore _ Hin). by left. }
    destruct (healthyTransporters_lookup this i info) as [Hinfo Hhealthy].
    { rewrite Hsplit. apply elem_of_app. right. by left. }
    exists i, info. repeat split; try done.
    + unfold sentBy. simpl.
      by rewrite list_lookup_alter_eq, lookup_recordFailures_other, Hinfo.
    + intros j Hj. unfold sentBy at 1. simpl.
      rewrite list_lookup_alter_ne by done.
      apply sentBy_demotes, recordFailures_demotes.
Qed.

Lemma sendEmail_counts_what_it_sends_witness :
  exists i info,
    transporters threeChannels !! i = Some info
    /\ isHealthy info = true
    /\ provider (sentThrough (healthyChannel secondary) accepted) = name info
    /\ sentBy
         {| transporters :=
              [unhealthy (healthyChannel primary) (message invalidLogin);
               sentOneMore (healthyChannel secondary);
               healthyChannel tertiary];
            isInitialized := true |} i
       = Some (S (emailsSent info))
    /\ forall j, j <> i ->
         sentBy
           {| transporters :=
                [unhealthy (healthyChannel primary) (message invalidLogin);
                 sentOneMore (healthyChannel secondary);
                 healthyChannel tertiary];
              isInitialized := true |} j
         = sentBy threeChannels j.
Proof.
  apply (sendEmail_counts_what_it_sends [primary; secondary; tertiary] threeChannels testEmail
           [SendMailReply (inl invalidLogin); SendMailReply (inr accepted)]
           {| transporters :=
                [unhealthy (healthyChannel primary) (message invalidLogin);
                 sentOneMore (healthyChannel secondary);
                 healthyChannel tertiary];
              isInitialized := true |}
           (inr (sentThrough (healthyChannel secondary) accepted))
           [attempt testEmail (0, healthyChannel primary);
            attempt testEmail (1, healthyChannel secondary)]); reflexivity.
Defined.

(** X7. On an initialised service [sendEmail] issues no handshake, and it
    tries only channels that were healthy when the call began: the calls
    are the sends on the first healthy channels, in their order and one per
    channel, as many as the transports gave replies. *)
Theorem sendEmail_tries_healthy_channels_in_order
    config this emailData script this' result calls :
  isInitialized this = true ->
  exec (sendEmail config this emailData) script = Some ((this', result), calls) ->
  length calls = length script
  /\ length calls <= length (healthyTransporters this)
  /\ calls = map (attempt emailData) (take (length calls) (healthyTransporters this)).
Proof.
  intros Hinit Hrun.
  destruct (sendEmail_runs _ _ _ _ _ _ _ Hinit Hrun)
    as [(e & _ & -> & _ & _ & ->)
       |[(_ & _ & -> & _ & _ & ->)
        |[(errors & eLast & _ & -> & Hlen & _ & _ & ->)
         |(errors & sent & before & i & info & rest & _ & -> & -> & Hlen & _ & _ & ->)]]];
    try (simpl; split; [done|split; [lia|done]]).
  - split; [|split].
    + unfold failures. rewrite !length_map, length_app, Hlen. simpl. lia.
    + by rewrite length_map.
    + by rewrite length_map, firstn_all.
  - split; [|split].
    + unfold failures. rewrite length_map, !length_app, length_map, Hlen. done.
    + rewrite length_map, !length_app. simpl. lia.
    + rewrite length_map, (cons_middle (i, info) before rest), app_assoc.
      by rewrite take_app_length.
Qed.

Lemma sendEmail_tries_healthy_channels_in_order_witness :
  length [attempt testEmail (0, healthyChannel primary);
          attempt testEmail (1, healthyChannel secondary)]
  = length [SendMailReply (inl invalidLogin); SendMailReply (inr accepted)]
  /\ length [attempt testEmail (0, healthyChannel primary);
             attempt testEmail (1, healthyChannel secondary)]
     <= length (healthyTransporters threeChannels)
  /\ [attempt testEmail (0, healthyChannel primary);
      attempt testEmail (1, healthyChannel secondary)]
     = map (attempt testEmail)
         (take (length [attempt testEmail (0, healthyChannel primary);
                        attempt testEmail (1, healthyChannel secondary)])
            (healthyTransporters threeChannels)).
Proof.
  apply (sendEmail_tries_healthy_channels_in_order [primary; secondary; tertiary]
           threeChannels testEmail
           [SendMailReply (inl invalidLogin); SendMailReply (inr accepted)]
           {| transporters :=
                [unhealthy (healthyChannel primary) (message invalidLogin);
                 sentOneMore (healthyChannel secondary);
                 healthyChannel tertiary];
              isInitialized := true |}
           (inr (sentThrough (healthyChannel secondary) accepted))); reflexivity.
Defined.

(** X8. The errors of [sendEmail] on an initialised service are of three
    kinds, all plain errors without a code: a validation error, the error
    that no provider is healthy, and the error that all providers failed,
    which quotes the message of the last rejection. The error of a
    transport is never thrown as it is. *)
Theorem sendEmail_errors config this emailData script this' e calls :
  isInitialized this = true ->
  exec (sendEmail config this emailData) script = Some ((this', inl e), calls) ->
  code e = None
  /\ (ValidationError emailData e
      \/ (healthyTransporters this = []
          /\ e = Error "No healthy email providers available")
      \/ exists errors eLast,
           script = failures (errors ++ [eLast])
           /\ e = Error ("Failed to send email with all providers. Last error: "
                         +:+ message eLast)).
Proof.
  intros Hinit Hrun.
  destruct (sendEmail_runs _ _ _ _ _ _ _ Hinit Hrun)
    as [(e' & Hv & _ & _ & [= <-] & _)
       |[(_ & Hh & _ & _ & [= ->] & _)
        |[(errors & eLast & _ & -> & _ & _ & [= ->] & _)
         |(errors & sent & before & i & info & rest & _ & _ & _ & _ & _ & [=] & _)]]].
  - apply validateEmailData_error in Hv. split; [by destruct Hv|by left].
  - split; [done|]. right. by left.
  - split; [done|]. right. right. by exists errors, eLast.
Qed.

Lemma sendEmail_errors_witness :
  code (allProvidersFailed (Some connectionTimeout)) = None
  /\ (ValidationError testEmail (allProvidersFailed (Some connectionTimeout))
      \/ (healthyTransporters threeChannels = []
          /\ allProvidersFailed (Some connectionTimeout)
             = Error "No healthy email providers available")
      \/ exists errors eLast,
           failures [invalidLogin; connectionTimeout; connectionTimeout]
           = failures (errors ++ [eLast])
           /\ allProvidersFailed (Some connectionTimeout)
              = Error ("Failed to send email with all providers. Last error: "
                       +:+ message eLast)).
Proof.
  apply (sendEmail_errors [primary; secondary; tertiary] threeChannels testEmail
           (failures [invalidLogin; connectionTimeout; connectionTimeout])
           (recordFailures (healthyTransporters threeChannels)
              [invalidLogin; connectionTimeout; connectionTimeout] threeChannels)
           (allProvidersFailed (Some connectionTimeout))
           (map (attempt testEmail) (healthyTransporters threeChannels))); reflexivity.
Defined.

(** ** Initialisation, again *)

(** X9. With the module that the service requires, [initialize] makes no
    call to any transport and never initialises a service. It returns
    normally only on a service that is initialised already, which it
    leaves as it is, whatever the configuration. On a service that is not
    initialised it throws and leaves the service as new: the TypeError of
    the call of [nodemailer.createTransporter] when a provider has its
    host, user and password, and the error that no provider is configured
    when none has. *)
Theorem initialize_outcomes config this script this' thrown calls :
  exec (initialize config this) script = Some ((this', thrown), calls) ->
  script = [] /\ calls = []
  /\ match thrown with
     | inl e =>
         isInitialized this = false
         /\ this' = newEmailService
         /\ e = match configured config with
                | [] => Error "No email providers configured"
                | _ :: _ => TypeError "nodemailer.createTransporter is not a function"
                end
     | inr _ =>
         isInitialized this = true
         /\ this' = this
         /\ forall config', initialize config' this' = Ret (this', inr tt)
     end.
Proof.
  unfold initialize, initializeWith. destruct (isInitialized this) eqn:Hinit.
  { destruct script; [|discriminate]. intros [= <- <- <-].
    split; [done|]. split; [done|]. split; [done|]. split; [done|].
    intros config'. by rewrite Hinit. }
  rewrite initializeLoop_nodemailer.
  destruct script; [|by destruct (configured config)].
  destruct (configured config); simpl; intros [= <- <- <-]; done.
Qed.

Lemma initialize_outcomes_witness :
  @nil Reply = [] /\ @nil Call = []
  /\ isInitialized newEmailService = false
  /\ newEmailService = newEmailService
  /\ TypeError "nodemailer.createTransporter is not a function"
     = match configured [unconfigured; primary] with
       | [] => Error "No email providers configured"
       | _ :: _ => TypeError "nodemailer.createTransporter is not a function"
       end.
Proof.
  apply (initialize_outcomes [unconfigured; primary] newEmailService [] newEmailService
           (inl (TypeError "nodemailer.createTransporter is not a function")) []).
  reflexivity.
Defined.

(** ** Health check and statistics *)

(** Every run of [healthCheck] shakes hands once with every channel. *)
Lemma healthCheck_runs this script this' report calls :
  exec (healthCheck this) script = Some ((this', report), calls) ->
  exists outcomes,
    script = map VerifyReply outcomes
    /\ length outcomes = length (transporters this).
Proof.
  unfold healthCheck.
  intros (s1 & s2 & [visited statuses] & c1 & c2 & -> & Hloop & Hend & ->)%exec_bind_inv.
  simpl in Hend. destruct s2; [|discriminate]. rewrite app_nil_r.
  clear Hend. revert Hloop.
  generalize (@nil TransporterInfo) at 1. generalize (@nil Health.Status).
  revert s1 c1.
  induction (transporters this) as [|info pending IH]; intros s1 c1 healthStatus done'.
  - destruct s1; [|discriminate]. intros _. by exists [].
  - destruct s1 as [|[outcome|r] s1]; try discriminate. simpl.
    intros (calls' & -> & (outcomes & -> & Hlen)%IH)%issued_Some.
    exists (outcome :: outcomes). simpl. by rewrite Hlen.
Qed.

Lemma existsb_healthEntry channels outcomes :
  length outcomes = length channels ->
  existsb Health.isHealthy (zip_with healthEntry channels outcomes) = existsb verified outcomes.
Proof.
  revert outcomes. induction channels as [|info channels IH]; intros [|outcome outcomes];
    try done.
  intros [= Hlen]. simpl. rewrite (IH _ Hlen). by destruct outcome.
Qed.

(** X10. [healthCheck] shakes hands once with every channel, in their
    order, and takes one reply for each. Its report has one entry per
    channel and is healthy overall exactly when at least one handshake
    succeeded. On a service without channels, as a service is before its
    first [sendEmail], the report is unhealthy and empty, and [healthCheck]
    makes no call: it does not initialise the service. *)
Theorem healthCheck_overall this script this' report calls :
  exec (healthCheck this) script = Some ((this', report), calls) ->
  exists outcomes,
    script = map VerifyReply outcomes
    /\ length outcomes = length (transporters this)
    /\ calls = map (fun info => handshake (transporter info)) (transporters this)
    /\ Health.overall report = existsb verified outcomes
    /\ length (Health.providers report) = length (transporters this)
    /\ isInitialized this' = isInitialized this
    /\ (transporters this = [] ->
        calls = [] /\ this' = this /\ Health.overall report = false).
Proof.
  intros Hrun.
  destruct (healthCheck_runs _ _ _ _ _ Hrun) as (outcomes & -> & Hlen).
  rewrite (healthCheck_run _ _ Hlen) in Hrun. injection Hrun as <- <- <-.
  exists outcomes. simpl. split; [done|]. split; [done|]. split; [done|].
  split; [by apply existsb_healthEntry|].
  split; [rewrite length_zip_with; lia|]. split; [done|].
  intros Hnone. rewrite Hnone in *. destruct outcomes; [|discriminate].
  by destruct this; simpl in *; subst.
Qed.

Lemma healthCheck_overall_witness :
  exists outcomes,
    map VerifyReply [Some invalidLogin; None; Some connectionTimeout]
    = map VerifyReply outcomes
    /\ length outcomes = length (transporters threeChannels)
    /\ map (fun info => handshake (transporter info)) (transporters threeChannels)
       = map (fun info => handshake (transporter info)) (transporters threeChannels)
    /\ Health.overall
         {| Health.overall := true;
            Health.providers :=
              zip_with healthEntry (transporters threeChannels)
                [Some invalidLogin; None; Some connectionTimeout] |}
       = existsb verified outcomes
    /\ length
         (Health.providers
            {| Health.overall := true;
               Health.providers :=
                 zip_with healthEntry (transporters threeChannels)
                   [Some invalidLogin; None; Some connectionTimeout] |})
       = length (transporters threeChannels)
    /\ isInitialized
         {| transporters :=
              zip_with recheck (transporters threeChannels)
                [Some invalidLogin; None; Some connectionTimeout];
            isInitialized := true |}
       = isInitialized threeChannels
    /\ (transporters threeChannels = [] ->
        map (fun info => handshake (transporter info)) (transporters threeChannels) = []
        /\ {| transporters :=
                zip_with recheck (transporters threeChannels)
                  [Some invalidLogin; None; Some connectionTimeout];
              isInitialized := true |}
           = threeChannels
        /\ Health.overall
             {| Health.overall := true;
                Health.providers :=
                  zip_with healthEntry (transporters threeChannels)
                    [Some invalidLogin; None; Some connectionTimeout] |}
           = false).
Proof.
  apply (healthCheck_overall threeChannels
           (map VerifyReply [Some invalidLogin; None; Some connectionTimeout])
           {| transporters :=
                zip_with recheck (transporters threeChannels)
                  [Some invalidLogin; None; Some connectionTimeout];
              isInitialized := true |}
           {| Health.overall := true;
              Health.providers :=
                zip_with healthEntry (transporters threeChannels)
                  [Some invalidLogin; None; Some connectionTimeout] |}
           (map (fun info => handshake (transporter info)) (transporters threeChannels))).
  reflexivity.
Defined.

Lemma filter_isHealthy_recheck channels outcomes :
  length outcomes = length channels ->
  length (filter (fun t => isHealthy t) (zip_with recheck channels outcomes))
  = length (filter (fun outcome => verified outcome) outcomes).
Proof.
  revert outcomes. induction channels as [|info channels IH]; intros [|outcome outcomes];
    try done.
  intros [= Hlen]. simpl. rewrite !filter_cons.
  destruct outcome; simpl; by rewrite (IH _ Hlen).
Qed.

(** X11. Right after [healthCheck], [getStats] agrees with its report:
    the entries of the statistics are those of the report, channel by
    channel, and the number of healthy providers is the number of
    handshakes that succeeded. *)
Theorem getStats_after_healthCheck this script this' report calls :
  exec (healthCheck this) script = Some ((this', report), calls) ->
  statusOf <$> Stats.providers (getStats this') = Health.providers report
  /\ Stats.totalProviders (getStats this') = length (transporters this)
  /\ exists outcomes,
       script = map VerifyReply outcomes
       /\ Stats.healthyProviders (getStats this')
          = length (filter (fun outcome => verified outcome) outcomes).
Proof.
  intros Hrun.
  destruct (healthCheck_runs _ _ _ _ _ Hrun) as (outcomes & -> & Hlen).
  rewrite (healthCheck_run _ _ Hlen) in Hrun. injection Hrun as <- <- <-.
  unfold getStats. simpl. split; [|split].
  - revert outcomes Hlen.
    induction (transporters this) as [|info channels IH]; intros [|outcome outcomes];
      try done.
    intros [= Hlen]. simpl. rewrite <- (IH _ Hlen). by destruct outcome.
  - rewrite length_zip_with. lia.
  - exists outcomes. split; [done|]. by apply filter_isHealthy_recheck.
Qed.

Lemma getStats_after_healthCheck_witness :
  statusOf
    <$> Stats.providers
          (getStats
             {| transporters :=
                  zip_with recheck (transporters threeChannels)
                    [None; Some connectionTimeout; None];
                isInitialized := true |})
  = zip_with healthEntry (transporters threeChannels) [None; Some connectionTimeout; None]
  /\ Stats.totalProviders
       (getStats
          {| transporters :=
               zip_with recheck (transporters threeChannels)
                 [None; Some connectionTimeout; None];
             isInitialized := true |})
     = length (transporters threeChannels)
  /\ exists outcomes,
       map VerifyReply [None; Some connectionTimeout; None] = map VerifyReply outcomes
       /\ Stats.healthyProviders
            (getStats
               {| transporters :=
                    zip_with recheck (transporters threeChannels)
                      [None; Some connectionTimeout; None];
                  isInitialized := true |})
          = length (filter (fun outcome => verified outcome) outcomes).
Proof.
  apply (getStats_after_healthCheck threeChannels
           (map VerifyReply [None; Some connectionTimeout; None])
           {| transporters :=
                zip_with recheck (transporters threeChannels)
                  [None; Some connectionTimeout; None];
              isInitialized := true |}
           {| Health.overall := true;
              Health.providers :=
                zip_with healthEntry (transporters threeChannels)
                  [None; Some connectionTimeout; None] |}
           (map (fun info => handshake (transporter info)) (transporters threeChannels))).
  reflexivity.
Defined.

(** X12. [healthCheck] forgets the health flags: on two services whose
    channels differ at most in [isHealthy] and [lastError], it makes the
    same calls and, against the same replies, leaves the same service and
    returns the same report. *)
Theorem healthCheck_forgets_flags this1 this2 script :
  Forall2 sameUpToHealth (transporters this1) (transporters this2) ->
  isInitialized this1 = isInitialized this2 ->
  exec (healthCheck this1) script = exec (healthCheck this2) script.
Proof.
  intros Hsame Hinit. unfold healthCheck, mbind, prog_bind. rewrite Hinit.
  generalize (@nil TransporterInfo). generalize (@nil Health.Status).
  revert script.
  induction Hsame as [|info1 info2 l1 l2 (Ht & Hn & Hs) _ IH];
    intros script healthStatus visited; [done|].
  destruct script as [|[outcome|r] script]; try done. simpl.
  rewrite Ht. f_equal.
  assert (recheck info1 outcome = recheck info2 outcome) as ->
    by (destruct outcome; simpl; by rewrite Ht, Hn, Hs).
  assert (healthEntry info1 outcome = healthEntry info2 outcome) as ->
    by (destruct outcome; simpl; by rewrite Hn, Hs).
  apply IH.
Qed.

Lemma healthCheck_forgets_flags_witness :
  exec (healthCheck threeChannels) (map VerifyReply [None; None; Some connectionTimeout])
  = exec (healthCheck
            {| transporters :=
                 [unhealthy (healthyChannel primary) (message invalidLogin);
                  healthyChannel secondary;
                  unhealthy (healthyChannel tertiary) (message invalidLogin)];
               isInitialized := true |})
      (map VerifyReply [None; None; Some connectionTimeout]).
Proof.
  apply (healthCheck_forgets_flags threeChannels
           {| transporters :=
                [unhealthy (healthyChannel primary) (message invalidLogin);
                 healthyChannel secondary;
                 unhealthy (healthyChannel tertiary) (message invalidLogin)];
              isInitialized := true |}).
  - repeat constructor.
  - reflexivity.
Defined.

Lemma healthyTransporters_length this :
  length (healthyTransporters this)
  = length (filter (fun t => isHealthy t) (transporters this)).
Proof.
  unfold healthyTransporters.
  assert (H : forall (f : nat -> TransporterInfo -> nat * TransporterInfo) channels,
             (forall i x, (f i x).2 = x) ->
             length (filter (fun it : nat * TransporterInfo => isHealthy it.2)
                       (imap f channels))
             = length (filter (fun t => isHealthy t) channels)).
  { intros f channels. revert f.
    induction channels as [|info channels IH]; intros f Hf; [done|].
    rewrite imap_cons, !filter_cons. rewrite Hf.
    destruct (decide (isHealthy info)); simpl;
      by rewrite (IH (f ∘ S)) by (intros; apply Hf). }
  by apply H.
Qed.

(** X13. On an initialised service the statistics tell whether a mail can
    go out: [getStats] counts no healthy provider exactly when [sendEmail]
    rejects a valid message with the error that no provider is healthy,
    without any call. *)
Theorem getStats_no_healthy_provider config this emailData :
  isInitialized this = true ->
  validateEmailData emailData = inr tt ->
  Stats.healthyProviders (getStats this) = 0
  <-> sendEmail config this emailData
      = Ret (this, inl (Error "No healthy email providers available")).
Proof.
  intros Hinit Hvalid. rewrite (sendEmail_initialized _ _ _ Hinit).
  unfold sendInitialized, getStats. simpl.
  rewrite Hvalid, <- healthyTransporters_length.
  destruct (healthyTransporters this) as [|[i info] healthy]; simpl; [done|].
  split; discriminate.
Qed.

Lemma getStats_no_healthy_provider_witness :
  Stats.healthyProviders
    (getStats
       {| transporters := [unhealthy (healthyChannel primary) (message invalidLogin)];
          isInitialized := true |}) = 0
  <-> sendEmail [primary]
        {| transporters := [unhealthy (healthyChannel primary) (message invalidLogin)];
           isInitialized := true |} testEmail
      = Ret ({| transporters := [unhealthy (healthyChannel primary) (message invalidLogin)];
                isInitialized := true |},
             inl (Error "No healthy email providers available")).
Proof.
  apply (getStats_no_healthy_provider [primary]
           {| transporters := [unhealthy (healthyChannel primary) (message invalidLogin)];
              isInitialized := true |} testEmail); reflexivity.
Defined.

(** X14. The health route reports what [healthCheck] found: it counts
    every channel as a provider, healthy or not, and calls the email
    service healthy exactly when one handshake succeeded. *)
Theorem checkEmailService_reports this script this' health calls :
  exec (checkEmailService this) script = Some ((this', health), calls) ->
  exists outcomes,
    script = map VerifyReply outcomes
    /\ EmailHealth.healthy health = existsb verified outcomes
    /\ EmailHealth.providers health = length (transporters this)
    /\ calls = map (fun info => handshake (transporter info)) (transporters this).
Proof.
  unfold checkEmailService.
  intros (s1 & s2 & [this1 report] & c1 & c2 & -> & Hcheck & Hend & ->)%exec_bind_inv.
  simpl in Hend. destruct s2; [|discriminate]. injection Hend as <- <- <-.
  rewrite !app_nil_r.
  destruct (healthCheck_runs _ _ _ _ _ Hcheck) as (outcomes & -> & Hlen).
  rewrite (healthCheck_run _ _ Hlen) in Hcheck. injection Hcheck as <- <- <-.
  exists outcomes. simpl. split; [done|]. split; [by apply existsb_healthEntry|].
  split; [rewrite length_zip_with; lia|done].
Qed.

Lemma checkEmailService_reports_witness :
  exists outcomes,
    map VerifyReply [Some connectionTimeout; None; Some connectionTimeout]
    = map VerifyReply outcomes
    /\ EmailHealth.healthy {| EmailHealth.healthy := true; EmailHealth.providers := 3 |}
       = existsb verified outcomes
    /\ EmailHealth.providers {| EmailHealth.healthy := true; EmailHealth.providers := 3 |}
       = length (transporters threeChannels)
    /\ map (fun info => handshake (transporter info)) (transporters threeChannels)
       = map (fun info => handshake (transporter info)) (transporters threeChannels).
Proof.
  apply (checkEmailService_reports threeChannels
           (map VerifyReply [Some connectionTimeout; None; Some connectionTimeout])
           {| transporters :=
                zip_with recheck (transporters threeChannels)
                  [Some connectionTimeout; None; Some connectionTimeout];
              isInitialized := true |}
           {| EmailHealth.healthy := true; EmailHealth.providers := 3 |}).
  reflexivity.
Defined.

(** ** Follow-ups *)

Lemma followUpSubject_nonEmpty originalEmail followUpData :
  Js.nonEmpty (followUpSubject originalEmail followUpData) = true.
Proof.
  unfold followUpSubject, Js.orElse.
  destruct (mjoin (FollowUpData.subject followUpData)) as [s|]; [|done].
  by destruct (Js.nonEmpty s) eqn:Hs.
Qed.

(** X15. A follow-up always has a subject, and the subject is not empty:
    it is the subject of the follow-up data when that is not empty, and
    otherwise [Re: ] followed by the subject of the original, by [null]
    when that is null and by [undefined] when the original has none.
    Validation never rejects a follow-up for a missing subject, whatever
    the original and the follow-up data are. *)
Theorem sendFollowUp_always_has_subject originalEmail followUpData :
  exists subject,
    EmailData.subject (FollowUpEmail.fields (followUpEmail originalEmail followUpData))
    = Some subject
    /\ Js.nonEmpty subject = true
    /\ match mjoin (FollowUpData.subject followUpData) with
       | Some given => Js.nonEmpty given = true -> subject = given
       | None => True
       end
    /\ (Js.truthy (mjoin (FollowUpData.subject followUpData)) = false ->
        subject
        = "Re: " +:+ match OriginalEmail.subject originalEmail with
                     | Property.Str original => original
                     | Property.Null => "null"
                     | Property.Undefined => "undefined"
                     end)
    /\ validateEmailData (FollowUpEmail.fields (followUpEmail originalEmail followUpData))
       <> inl (Error "Email subject is required").
Proof.
  exists (followUpSubject originalEmail followUpData).
  split; [done|].
  pose proof (followUpSubject_nonEmpty originalEmail followUpData) as Hne.
  split; [done|]. split; [|split].
  - unfold followUpSubject, Js.orElse.
    destruct (mjoin (FollowUpData.subject followUpData)) as [given|]; [|done].
    by intros ->.
  - unfold followUpSubject, Js.orElse, Js.truthy.
    destruct (mjoin (FollowUpData.subject followUpData)) as [given|].
    + intros ->. by destruct (OriginalEmail.subject originalEmail).
    + intros _. by destruct (OriginalEmail.subject originalEmail).
  - unfold validateEmailData. simpl. rewrite Hne. simpl.
    destruct (toPresent _); simpl; [|discriminate].
    destruct (negb _ && negb _); [discriminate|].
    destruct (find _ _); [rewrite append_cons; discriminate|].
    destruct (spread _ _) as [sender|]; [|discriminate].
    destruct (Js.nonEmpty sender && _); [rewrite append_cons|]; discriminate.
Qed.

(** X16. A follow-up that sets neither recipient, body nor sender passes
    validation whenever the original message does. *)
Theorem sendFollowUp_valid_when_original_is originalEmail followUpData :
  keepsRecipientAndBody followUpData ->
  validateEmailData (OriginalEmail.fields originalEmail) = inr tt ->
  validateEmailData (FollowUpEmail.fields (followUpEmail originalEmail followUpData)) = inr tt.
Proof.
  intros (Hto & Htext & Hhtml & Hfrom).
  pose proof (followUpSubject_nonEmpty originalEmail followUpData) as Hne.
  unfold validateEmailData, followUpEmail. simpl.
  rewrite Hto, Htext, Hhtml, Hfrom, Hne. simpl.
  destruct (toPresent (OriginalEmail.to originalEmail)); simpl; [|done].
  destruct (Js.truthy (Property.field (OriginalEmail.subject originalEmail))); simpl;
    [|done].
  done.
Qed.

Lemma sendFollowUp_valid_when_original_is_witness :
  validateEmailData (FollowUpEmail.fields (followUpEmail originalTestEmail noOverride)) = inr tt.
Proof.
  apply (sendFollowUp_valid_when_original_is originalTestEmail noOverride).
  - by repeat split.
  - reflexivity.
Defined.

Lemma sendInitialized_calls this emailData script out calls :
  exec (sendInitialized this emailData) script = Some (out, calls) ->
  Forall (fun c => exists t, c = SendMailCall t (mailOptions emailData)) calls.
Proof.
  assert (Hmap : forall l : list (nat * TransporterInfo),
            Forall (fun c => exists t, c = SendMailCall t (mailOptions emailData))
              (map (attempt emailData) l)).
  { intros l. apply Forall_forall. intros c ((i & info) & -> & _)%list_elem_of_fmap.
    by exists (transporter info). }
  unfold sendInitialized.
  destruct (validateEmailData emailData) as [e|[]].
  { destruct script; [|discriminate]. intros [= _ <-]. constructor. }
  destruct (length (healthyTransporters this) =? 0).
  { destruct script; [|discriminate]. intros [= _ <-]. constructor. }
  destruct out as [this' result].
  intros [(errors & _ & _ & _ & _ & ->)
         |(errors & sent & before & j & info' & rest & _ & _ & _ & _ & _ & ->)]
    %sendLoop_runs; apply Hmap.
Qed.

(** Every message that [sendEmail] hands to a transport is
    [mailOptions emailData]. *)
Lemma sendEmail_calls config this emailData script out calls :
  exec (sendEmail config this emailData) script = Some (out, calls) ->
  Forall (fun c => isSendMailCall c = false
                   \/ exists t, c = SendMailCall t (mailOptions emailData)) calls.
Proof.
  unfold sendEmail.
  intros (s1 & s2 & [this0 initialized] & c1 & c2 & -> & H1 & H2 & ->)%exec_bind_inv.
  apply Forall_app. split.
  - apply initialize_verifies_only in H1.
    eapply Forall_impl; [exact H1|]. intros c Hc. by left.
  - destruct initialized as [e|[]].
    + destruct s2; [|discriminate]. injection H2 as _ <-. constructor.
    + apply sendInitialized_calls in H2.
      eapply Forall_impl; [exact H2|]. intros c Hc. by right.
Qed.

(** X17. The threading headers of a follow-up never reach a transport:
    whatever the service, the original and the follow-up data are, every
    message that [sendFollowUp] hands to a transport has the subject of the
    follow-up, and neither an [In-Reply-To] nor a [References] header. *)
Theorem sendFollowUp_drops_threading_headers
  config this originalEmail followUpData script out calls :
  exec (sendFollowUp config this originalEmail followUpData) script = Some (out, calls) ->
  Forall (fun c => forall t o,
            c = SendMailCall t o ->
            MailOptions.subject o
            = EmailData.subject (FollowUpEmail.fields (followUpEmail originalEmail followUpData))
            /\ ~ carries "In-Reply-To" c
            /\ ~ carries "References" c) calls.
Proof.
  intros H%sendEmail_calls.
  eapply Forall_impl; [exact H|]. intros c [Hc|(t' & ->)] t o Heq.
  - subst c. discriminate Hc.
  - injection Heq as _ <-. split; [done|].
    unfold carries. simpl. rewrite !elem_of_cons, !elem_of_nil.
    split; intros [Heq|[Heq|[]]]; discriminate Heq.
Qed.

Lemma sendFollowUp_drops_threading_headers_witness :
  Forall (fun c => forall t o,
            c = SendMailCall t o ->
            MailOptions.subject o
            = EmailData.subject (FollowUpEmail.fields (followUpEmail originalTestEmail noOverride))
            /\ ~ carries "In-Reply-To" c
            /\ ~ carries "References" c)
    [attempt (FollowUpEmail.fields (followUpEmail originalTestEmail noOverride))
       (0, healthyChannel primary)].
Proof.
  apply (sendFollowUp_drops_threading_headers [] threeChannels
           originalTestEmail noOverride [SendMailReply (inr accepted)]
           (countSent 0 threeChannels,
            inr (sentThrough (healthyChannel primary) accepted))).
  reflexivity.
Defined.

(** ** Persistent errors *)

Lemma startsWith_app p s :
  Js.startsWith p s = true <-> exists rest, s = p +:+ rest.
Proof.
  revert s. induction p as [|a p IH]; intros s.
  - split; [intros _; by exists s|by destruct s].
  - destruct s as [|b s]; simpl.
    + split; [done|]. intros (rest & H). rewrite append_cons in H. discriminate H.
    + rewrite andb_true_iff, IH, Ascii.eqb_eq. split.
      * intros (-> & rest & ->). by exists rest.
      * intros (rest & H). rewrite append_cons in H. injection H as -> ->.
        split; [done|]. by exists rest.
Qed.

Lemma includes_app s p :
  Js.includes s p = true <-> exists before rest, s = before +:+ p +:+ rest.
Proof.
  induction s as [|c s IH].
  - cbn [Js.includes]. rewrite orb_false_r, startsWith_app. split.
    + intros (rest & H). by exists EmptyString, rest.
    + intros ([|b before] & rest & H).
      * by exists rest.
      * rewrite append_cons in H. discriminate H.
  - cbn [Js.includes]. rewrite orb_true_iff, startsWith_app, IH. split.
    + intros [(rest & H)|(before & rest & ->)].
      * by exists EmptyString, rest.
      * by exists (String c before), rest.
    + intros ([|b before] & rest & H).
      * left. by exists rest.
      * rewrite append_cons in H. injection H as -> ->.
        right. by exists before, rest.
Qed.

Lemma toLowerCase_app a b :
  Js.toLowerCase (a +:+ b) = Js.toLowerCase a +:+ Js.toLowerCase b.
Proof.
  induction a as [|c a IH]; [done|].
  rewrite append_cons. cbn [Js.toLowerCase]. by rewrite IH, append_cons.
Qed.

Lemma toLowerCase_app_inv s a b :
  Js.toLowerCase s = a +:+ b ->
  exists a' b', s = a' +:+ b' /\ Js.toLowerCase a' = a /\ Js.toLowerCase b' = b.
Proof.
  revert s. induction a as [|c a IH]; intros s H.
  - by exists EmptyString, s.
  - destruct s as [|d s]; rewrite append_cons in H; [discriminate H|].
    cbn [Js.toLowerCase] in H. injection H as <- H.
    apply IH in H as (a' & b' & -> & <- & <-).
    by exists (String d a'), b'.
Qed.

Lemma mentions_hasPhrase msg listed :
  mentions msg listed <-> hasPhrase msg listed.
Proof.
  unfold mentions, hasPhrase. rewrite includes_app. split.
  - intros (before & rest & H).
    apply toLowerCase_app_inv in H as (before' & tail & -> & _ & H).
    apply toLowerCase_app_inv in H as (phrase & rest' & -> & H & _).
    by exists before', phrase, rest'.
  - intros (before & phrase & rest & -> & H).
    exists (Js.toLowerCase before), (Js.toLowerCase rest).
    by rewrite !toLowerCase_app, H.
Qed.

(** X18. [isPersistentError] accepts exactly the errors whose code is one
    of [EAUTH], [EENVELOPE] and [EMESSAGE], spelled so, and the errors
    whose message has, anywhere in it, a part that reads as one of the four
    listed phrases when the case of the letters is ignored. *)
Theorem isPersistentError_code_or_phrase e :
  isPersistentError e = true
  <-> (exists c, code e = Some c /\ c ∈ persistentErrorCodes)
      \/ exists listed, listed ∈ persistentErrorMessages /\ hasPhrase (message e) listed.
Proof.
  unfold isPersistentError. rewrite orb_true_iff, existsb_exists.
  apply Morphisms_Prop.or_iff_morphism.
  - destruct (code e) as [c|].
    + rewrite persistentErrorCodes_includes. unfold persistentErrorCodes. split.
      * intros Hc. exists c. split; [done|].
        rewrite !elem_of_cons, elem_of_nil. tauto.
      * intros (c' & [= <-] & Hc).
        rewrite !elem_of_cons, elem_of_nil in Hc. tauto.
    + split; [done|]. by intros (c & H & _).
  - split.
    + intros (listed & Hin%list_elem_of_In & H). exists listed. split; [done|].
      by apply mentions_hasPhrase.
    + intros (listed & Hin & H). exists listed. split; [by apply list_elem_of_In|].
      by apply mentions_hasPhrase.
Qed.

(** ** Bulk sending, for every batch size *)

Lemma separated_cons ms wave waves :
  waves <> [] ->
  separated ms (wave :: waves) = Wave wave :: Pause ms :: separated ms waves.
Proof. by destruct waves. Qed.

Lemma imap_offset_app {A : Type} i (l1 l2 : list A) :
  imap (fun index x => (i + index, x)) (l1 ++ l2)
  = imap (fun index x => (i + index, x)) l1
    ++ imap (fun index x => (i + length l1 + index, x)) l2.
Proof.
  rewrite imap_app. f_equal. apply imap_ext. intros j x _. simpl. f_equal. lia.
Qed.

Lemma waves_cover emails batchSize m :
  0 < batchSize ->
  forall i,
    length emails - i <= m * batchSize ->
    concat (map (fun k => waveAt emails batchSize (i + k * batchSize)) (seq 0 m))
    = imap (fun index email => (i + index, email)) (drop i emails).
Proof.
  intros Hpos. induction m as [|m IH]; intros i Hm.
  - simpl. rewrite drop_ge by lia. done.
  - cbn [seq map concat]. rewrite <- fmap_S_seq.
    change (map ?f (S <$> ?l)) with (f <$> (S <$> l)).
    rewrite <- list_fmap_compose.
    rewrite (list_fmap_ext _ (fun k => waveAt emails batchSize (i + batchSize + k * batchSize)));
      [|intros j k _; simpl; f_equal; lia].
    change (?f <$> ?l) with (map f l).
    rewrite IH by lia.
    unfold waveAt, slice. rewrite Nat.add_0_r, Nat.add_sub'.
    rewrite <- (take_drop batchSize (drop i emails)) at 2.
    rewrite imap_offset_app, drop_drop. f_equal.
    destruct (decide (batchSize <= length emails - i)) as [Hle|Hgt].
    + rewrite length_take, length_drop, Nat.min_l by done. done.
    + rewrite (drop_ge emails (i + batchSize)) by lia. done.
Qed.

Lemma batches_bounds emails batchSize :
  0 < batchSize ->
  length emails <= batches emails batchSize * batchSize
  /\ (batches emails batchSize = 0
      \/ (batches emails batchSize - 1) * batchSize < length emails).
Proof.
  intros Hpos. unfold batches.
  pose proof (Nat.Div0.mul_div_le (length emails + batchSize - 1) batchSize) as Hle.
  assert (Hgt := Nat.mul_succ_div_gt (length emails + batchSize - 1) batchSize).
  specialize (Hgt ltac:(lia)).
  set (q := (length emails + batchSize - 1) / batchSize) in *.
  split; [nia|].
  destruct q as [|q]; [by left|right]. simpl. nia.
Qed.

Section BulkFurther.

Variable settles : nat -> EmailData.t -> JsError + SendResult.
Variable settleOrder : list (nat * EmailData.t) -> list (nat * EmailData.t).
Hypothesis settleOrder_permutes : forall wave, settleOrder wave ≡ₚ wave.

(** The events of the loop from turn [i] on, when [m] batches are left. *)
Lemma bulkLoop_events emails batchSize delay m :
  0 < batchSize ->
  forall fuel i results outcome events,
    length emails - i <= m * batchSize ->
    m = 0 \/ (m - 1) * batchSize < length emails - i ->
    bulkLoop settles settleOrder emails batchSize delay true fuel i results
    = Some (outcome, events) ->
    events
    = separated delay
        (map (fun k => waveAt emails batchSize (i + k * batchSize)) (seq 0 m)).
Proof.
  intros Hpos. induction m as [|m IH]; intros fuel i results outcome events Hm Hlast.
  - rewrite bulkLoop_end by lia. by intros [= _ <-].
  - assert (Hi : i < length emails) by (destruct Hlast; [done|lia]).
    destruct fuel as [|fuel].
    { cbn [bulkLoop].
      by replace (i <? length emails) with true by (symmetry; apply Nat.ltb_lt; lia). }
    rewrite (bulkLoop_turn settles settleOrder emails batchSize delay fuel i results Hi).
    destruct (bulkLoop _ _ _ _ _ _ fuel (i + batchSize) _) as [[outcome' events']|] eqn:Hrest;
      [|discriminate].
    intros [= <- <-].
    apply IH in Hrest; [|lia|destruct m; [by left|right; simpl in *; nia]].
    cbn [seq map]. rewrite <- fmap_S_seq.
    change (map ?f (S <$> ?l)) with (f <$> (S <$> l)).
    rewrite <- list_fmap_compose.
    rewrite (list_fmap_ext _ (fun k => waveAt emails batchSize (i + batchSize + k * batchSize)));
      [|intros j k _; simpl; f_equal; lia].
    change (?f <$> ?l) with (map f l). rewrite Nat.add_0_r.
    destruct m as [|m].
    + simpl in Hm. rewrite Hrest.
      by replace (i + batchSize <? length emails) with false
        by (symmetry; apply Nat.ltb_ge; lia).
    + rewrite separated_cons by done. rewrite <- Hrest.
      by replace (i + batchSize <? length emails) with true
        by (symmetry; apply Nat.ltb_lt; simpl in *; nia).
Qed.

(** X19. For every positive batch size and every input, [sendBulkEmails]
    returns a report when failures do not stop it. It starts one wave per
    batch, [ceil (length emails / batchSize)] in all, the wave of batch [k]
    at index [k * batchSize], and pauses for the configured delay between
    two waves, not after the last. The waves cover the input in order, each
    message with its input index. Whatever the way and the order in which
    the calls of a wave settle, every input index occurs exactly once in
    the [sent] and [failed] lists taken together. *)
Theorem sendBulkEmails_batches emails options :
  0 < default 10 (BulkOptions.batchSize options) ->
  default true (BulkOptions.continueOnError options) = true ->
  let batchSize := default 10 (BulkOptions.batchSize options) in
  let waves := map (waveAt emails batchSize) (batchStarts emails batchSize) in
  exists report,
    sendBulkEmails settles settleOrder emails options
    = Some (inr report,
            separated (default 1000 (BulkOptions.delayBetweenBatches options)) waves)
    /\ concat waves = imap pair emails
    /\ reportIndices report ≡ₚ seq 0 (length emails)
    /\ Forall (sentTagged settles emails) (Bulk.sent report)
    /\ Forall (failedTagged settles emails) (Bulk.failed report)
    /\ Bulk.total report = length emails.
Proof.
  intros Hpos Hcontinue batchSize waves.
  destruct (sendBulkEmails_reports_every_message settles settleOrder settleOrder_permutes
              emails options Hpos Hcontinue)
    as (report & events & Hrun & Hindices & Hsent & Hfailed & Htotal).
  destruct (batches_bounds emails batchSize Hpos) as [Hup Hlow].
  assert (Hwaves : waves
                   = map (fun k => waveAt emails batchSize (0 + k * batchSize))
                       (seq 0 (batches emails batchSize))).
  { unfold waves, batchStarts. by rewrite map_map. }
  exists report. split; [|split; [|done]].
  - rewrite Hrun. do 2 f_equal. rewrite Hwaves.
    unfold sendBulkEmails in Hrun. rewrite Hcontinue in Hrun.
    apply (bulkLoop_events emails batchSize _ (batches emails batchSize) Hpos _ _ _ _ _)
      in Hrun; [done|lia|].
    destruct Hlow; [by left|right; lia].
  - rewrite Hwaves, (waves_cover emails batchSize _ Hpos) by lia.
    rewrite drop_0. by apply imap_ext.
Qed.

(** X20. With a batch size of zero [sendBulkEmails] never returns on an
    input that is not empty: the loop does not advance, so no number of
    turns brings it to its end. *)
Theorem sendBulkEmails_batchSize_zero emails options :
  BulkOptions.batchSize options = Some 0 ->
  emails <> [] ->
  sendBulkEmails settles settleOrder emails options = None
  /\ forall fuel delay continueOnError results,
       bulkLoop settles settleOrder emails 0 delay continueOnError fuel 0 results = None.
Proof.
  intros Hsize Hemails. split.
  - unfold sendBulkEmails. rewrite Hsize. simpl.
    by apply bulkLoop_batchSize_zero.
  - intros fuel delay continueOnError results. by apply bulkLoop_batchSize_zero.
Qed.

(** The callbacks of one wave when the first failure rejects. *)
Lemma settleBatch_stop settling results :
  match settleBatch settles false settling results with
  | inr results' =>
      results' = {| Bulk.sent := Bulk.sent results ++ sentEntries settles settling;
                    Bulk.failed := Bulk.failed results;
                    Bulk.total := Bulk.total results |}
      /\ failedEntries settles settling = []
  | inl error =>
      exists index email, (index, email) ∈ settling /\ settles index email = inl error
  end.
Proof.
  revert results. induction settling as [|[index email] settling IH]; intros results.
  - simpl. rewrite app_nil_r. by destruct results.
  - cbn [settleBatch]. unfold sentEntries, failedEntries in *. cbn [omap list_omap fst snd].
    destruct (settles index email) as [error|result] eqn:Hs.
    + exists index, email. split; [by left|done].
    + match goal with |- context [settleBatch _ _ _ ?r] => specialize (IH r) end.
      destruct (settleBatch _ _ _ _) as [error|results'].
      * destruct IH as (index' & email' & Hin & Hfail).
        exists index', email'. split; [by right|done].
      * destruct IH as [-> Hnone]. simpl. by rewrite <- app_assoc.
Qed.

Lemma bulkLoop_stop emails batchSize delay fuel :
  0 < batchSize ->
  forall i results,
    length emails - i <= fuel ->
    exists outcome events,
      bulkLoop settles settleOrder emails batchSize delay false fuel i results
      = Some (outcome, events)
      /\ match outcome with
         | inr results' =>
             Bulk.failed results' = Bulk.failed results
             /\ Bulk.total results' = Bulk.total results
             /\ map Bulk.sent_index (Bulk.sent results')
                ≡ₚ map Bulk.sent_index (Bulk.sent results) ++ seq i (length emails - i)
             /\ (Forall (sentTagged settles emails) (Bulk.sent results) ->
                 Forall (sentTagged settles emails) (Bulk.sent results'))
         | inl error =>
             exists index email wave,
               emails !! index = Some email
               /\ settles index email = inl error
               /\ last events = Some (Wave wave)
               /\ (index, email) ∈ wave
         end.
Proof.
  intros Hpos. induction fuel as [|fuel IH]; intros i results Hfuel.
  - exists (inr results), []. rewrite bulkLoop_end by lia.
    replace (length emails - i) with 0 by lia. simpl. by rewrite app_nil_r.
  - destruct (decide (i < length emails)) as [Hi|Hi].
    2:{ exists (inr results), []. rewrite bulkLoop_end by lia.
        replace (length emails - i) with 0 by lia. simpl. by rewrite app_nil_r. }
    cbn [bulkLoop].
    replace (i <? length emails) with true by (symmetry; apply Nat.ltb_lt; lia).
    fold (waveAt emails batchSize i). set (wave := waveAt emails batchSize i).
    pose proof (settleBatch_stop (settleOrder wave) results) as Hbatch.
    destruct (settleBatch settles false (settleOrder wave) results) as [error|results1].
    + destruct Hbatch as (index & email & Hin & Hfail).
      rewrite settleOrder_permutes in Hin.
      exists (inl error), [Wave wave]. split; [done|].
      exists index, email, wave. repeat split; try done.
      by eapply waveAt_lookup.
    + destruct Hbatch as [-> Hnone].
      match goal with |- context [bulkLoop _ _ _ _ _ _ fuel _ ?r] =>
        destruct (IH (i + batchSize) r) as (outcome & events & -> & Hout); [lia|]
      end.
      eexists _, _. split; [reflexivity|].
      destruct outcome as [error|results'].
      * destruct Hout as (index & email & wave' & Hlook & Hfail & Hlast & Hin).
        exists index, email, wave'. repeat split; try done.
        rewrite app_comm_cons, last_app, Hlast. done.
      * destruct Hout as (Hfailed & Htotal & Hindices & Hsent). simpl in *.
        split; [done|]. split; [done|].
        assert (Hwave : forall index email,
                   (index, email) ∈ settleOrder wave -> emails !! index = Some email).
        { intros index email Hin. rewrite settleOrder_permutes in Hin.
          by eapply waveAt_lookup. }
        split.
        -- assert (Hgain : map Bulk.sent_index (sentEntries settles (settleOrder wave))
                           ≡ₚ seq i (min batchSize (length emails - i))).
           { rewrite <- waveAt_indices. fold wave.
             rewrite <- (fmap_Permutation fst _ _ (settleOrder_permutes wave)).
             rewrite <- (entries_indices settles (settleOrder wave)), Hnone.
             simpl. by rewrite app_nil_r. }
           rewrite Hindices, map_app.
           rewrite <- (seq_wave_rest i batchSize (length emails)), <- Hgain.
           solve_Permutation.
        -- intros H. apply Hsent. apply Forall_app. split; [done|].
           by apply sentEntries_tagged.
Qed.

(** X21. When failures stop the loop ([continueOnError] is false) and the
    batch size is positive, [sendBulkEmails] either returns a report or
    fails with the error of a call of the last wave it started. It returns
    a report only when no call failed: the report has no failed entry, and
    its sent entries are the messages of the input, each exactly once. So
    the failures collected before the error are never seen by the
    caller. *)
Theorem sendBulkEmails_stops_at_first_failure emails options :
  0 < default 10 (BulkOptions.batchSize options) ->
  BulkOptions.continueOnError options = Some false ->
  exists outcome events,
    sendBulkEmails settles settleOrder emails options = Some (outcome, events)
    /\ match outcome with
       | inr report =>
           Bulk.failed report = []
           /\ map Bulk.sent_index (Bulk.sent report) ≡ₚ seq 0 (length emails)
           /\ Forall (sentTagged settles emails) (Bulk.sent report)
           /\ Bulk.total report = length emails
       | inl error =>
           exists index email wave,
             emails !! index = Some email
             /\ settles index email = inl error
             /\ last events = Some (Wave wave)
             /\ (index, email) ∈ wave
       end.
Proof.
  intros Hpos Hstop. unfold sendBulkEmails. rewrite Hstop. simpl.
  destruct (bulkLoop_stop emails (default 10 (BulkOptions.batchSize options))
              (default 1000 (BulkOptions.delayBetweenBatches options)) (length emails) Hpos 0
              {| Bulk.sent := []; Bulk.failed := []; Bulk.total := length emails |})
    as (outcome & events & Hrun & Hout); [lia|].
  exists outcome, events. split; [done|].
  destruct outcome as [error|report]; [done|].
  destruct Hout as (Hfailed & Htotal & Hindices & Hsent). simpl in *.
  rewrite Nat.sub_0_r in Hindices. repeat split; auto.
Qed.

End BulkFurther.

Lemma sendBulkEmails_batches_witness :
  let batchSize := default 10 (BulkOptions.batchSize batchesOfFour) in
  let waves :=
    map (waveAt (replicate 10 testEmail) batchSize)
      (batchStarts (replicate 10 testEmail) batchSize) in
  exists report,
    sendBulkEmails oddOnesTimeOut reverse (replicate 10 testEmail) batchesOfFour
    = Some (inr report,
            separated (default 1000 (BulkOptions.delayBetweenBatches batchesOfFour)) waves)
    /\ concat waves = imap pair (replicate 10 testEmail)
    /\ reportIndices report ≡ₚ seq 0 (length (replicate 10 testEmail))
    /\ Forall (sentTagged oddOnesTimeOut (replicate 10 testEmail)) (Bulk.sent report)
    /\ Forall (failedTagged oddOnesTimeOut (replicate 10 testEmail)) (Bulk.failed report)
    /\ Bulk.total report = length (replicate 10 testEmail).
Proof.
  apply (sendBulkEmails_batches oddOnesTimeOut reverse
           (fun wave => reverse_Permutation wave) (replicate 10 testEmail) batchesOfFour).
  - simpl. lia.
  - reflexivity.
Defined.

Lemma sendBulkEmails_batchSize_zero_witness :
  sendBulkEmails oddOnesTimeOut reverse [testEmail] noBatches = None
  /\ forall fuel delay continueOnError results,
       bulkLoop oddOnesTimeOut reverse [testEmail] 0 delay continueOnError fuel 0 results
       = None.
Proof.
  apply (sendBulkEmails_batchSize_zero oddOnesTimeOut reverse
           (fun wave => reverse_Permutation wave) [testEmail] noBatches).
  - reflexivity.
  - discriminate.
Defined.

Lemma sendBulkEmails_stops_at_first_failure_witness :
  exists outcome events,
    sendBulkEmails oddOnesTimeOut reverse (replicate 10 testEmail) stopOnError
    = Some (outcome, events)
    /\ match outcome with
       | inr report =>
           Bulk.failed report = []
           /\ map Bulk.sent_index (Bulk.sent report)
              ≡ₚ seq 0 (length (replicate 10 testEmail))
           /\ Forall (sentTagged oddOnesTimeOut (replicate 10 testEmail)) (Bulk.sent report)
           /\ Bulk.total report = length (replicate 10 testEmail)
       | inl error =>
           exists index email wave,
             replicate 10 testEmail !! index = Some email
             /\ oddOnesTimeOut index email = inl error
             /\ last events = Some (Wave wave)
             /\ (index, email) ∈ wave
       end.
Proof.
  apply (sendBulkEmails_stops_at_first_failure oddOnesTimeOut reverse
           (fun wave => reverse_Permutation wave) (replicate 10 testEmail) stopOnError).
  - simpl. lia.
  - reflexivity.
Defined.

(** ** Personalisation of a text without placeholders *)

Lemma replaceAll_braceFree key v s :
  braceFree s = true -> replaceAll (placeholder key) v s = s.
Proof.
  intros Hs. unfold replaceAll. rewrite placeholder_braces.
  rewrite <- (append_nil_r s) at 2.
  rewrite (replaceFrom_text _ _ _ s 0 EmptyString Hs).
  by rewrite append_nil_r.
Qed.

Lemma personalizeWith_braceFree acc entries :
  braceFree (Personalized.subject acc) = true ->
  braceFree (Personalized.text acc) = true ->
  (forall h, Personalized.html acc = Some h -> braceFree h = true) ->
  fold_left personalizeWith entries acc = acc.
Proof.
  intros Hsubject Htext Hhtml.
  induction entries as [|[key v] entries IH]; [done|]. cbn [fold_left].
  replace (personalizeWith acc (key, v)) with acc; [done|].
  unfold personalizeWith. cbn [fst snd].
  rewrite !replaceAll_braceFree by done.
  destruct acc as [s t [h|]]; simpl in *; [|done].
  destruct (Js.nonEmpty h); [|done].
  by rewrite replaceAll_braceFree by auto.
Qed.

(** X22. A template without an opening brace in its subject, its text body
    and its HTML body comes back as it is, whatever the prospect and the
    campaign hold: values with dollar signs or braces make no
    difference. *)
Theorem createPersonalizedEmail_without_placeholders template prospect campaignData :
  braceFree (Template.subject template) = true ->
  braceFree (Template.content template) = true ->
  (forall h, Template.htmlContent template = Some h -> braceFree h = true) ->
  createPersonalizedEmail template prospect campaignData
  = {| Personalized.subject := Template.subject template;
       Personalized.text := Template.content template;
       Personalized.html := Template.htmlContent template |}.
Proof.
  intros Hsubject Htext Hhtml. unfold createPersonalizedEmail.
  by apply personalizeWith_braceFree.
Qed.

Lemma createPersonalizedEmail_without_placeholders_witness :
  createPersonalizedEmail plainNote (firstNamed "$&") noCampaign
  = {| Personalized.subject := Template.subject plainNote;
       Personalized.text := Template.content plainNote;
       Personalized.html := Template.htmlContent plainNote |}.
Proof.
  apply (createPersonalizedEmail_without_placeholders plainNote (firstNamed "$&") noCampaign).
  - reflexivity.
  - reflexivity.
  - intros h [= <-]. reflexivity.
Defined.

(** ** The scraping service: cleanText *)

Lemma nonEmpty_app_l a b : Js.nonEmpty a = true -> Js.nonEmpty (a +:+ b) = true.
Proof. by destruct a. Qed.

Lemma nonEmpty_app_r a b : Js.nonEmpty b = true -> Js.nonEmpty (a +:+ b) = true.
Proof. destruct a; [by rewrite append_nil_l|done]. Qed.

Lemma replaceWhiteSpaceRuns_blank_run g rest :
  blank g = true ->
  replaceWhiteSpaceRuns true (g +:+ rest) = replaceWhiteSpaceRuns true rest.
Proof.
  unfold blank. induction g as [|c g IH]; [done|].
  cbn [allChars]. intros [Hc Hg]%andb_true_iff.
  rewrite append_cons. cbn [replaceWhiteSpaceRuns]. rewrite Hc. by apply IH.
Qed.

Lemma replaceWhiteSpaceRuns_blank g rest :
  Js.nonEmpty g = true ->
  blank g = true ->
  replaceWhiteSpaceRuns false (g +:+ rest) = String " " (replaceWhiteSpaceRuns true rest).
Proof.
  destruct g as [|c g]; [done|]. intros _. unfold blank. cbn [allChars].
  intros [Hc Hg]%andb_true_iff.
  rewrite append_cons. cbn [replaceWhiteSpaceRuns]. rewrite Hc.
  by rewrite replaceWhiteSpaceRuns_blank_run.
Qed.

Lemma replaceWhiteSpaceRuns_letters w rest :
  allChars (fun c => negb (Js.isWhiteSpace c)) w = true ->
  replaceWhiteSpaceRuns false (w +:+ rest) = w +:+ replaceWhiteSpaceRuns false rest.
Proof.
  induction w as [|c w IH]; [done|].
  cbn [allChars]. intros [Hc%negb_true_iff Hw]%andb_true_iff.
  rewrite !append_cons. cbn [replaceWhiteSpaceRuns]. rewrite Hc. by rewrite IH.
Qed.

Lemma replaceWhiteSpaceRuns_word inRun w rest :
  word w = true ->
  replaceWhiteSpaceRuns inRun (w +:+ rest) = w +:+ replaceWhiteSpaceRuns false rest.
Proof.
  unfold word. destruct w as [|c w]; [done|]. cbn [Js.nonEmpty allChars andb].
  intros [Hc%negb_true_iff Hw]%andb_true_iff.
  rewrite !append_cons. cbn [replaceWhiteSpaceRuns]. rewrite Hc.
  by rewrite replaceWhiteSpaceRuns_letters.
Qed.

(** What is left of the white space at the end of a text. *)
Lemma replaceWhiteSpaceRuns_trail trail :
  blank trail = true ->
  replaceWhiteSpaceRuns false trail = if Js.nonEmpty trail then " " else EmptyString.
Proof.
  intros Htrail. destruct (Js.nonEmpty trail) eqn:Hne; [|by destruct trail].
  rewrite <- (append_nil_r trail). by rewrite replaceWhiteSpaceRuns_blank.
Qed.

Lemma replaceWhiteSpaceRuns_spaced more trail :
  gapped more ->
  blank trail = true ->
  replaceWhiteSpaceRuns false (spaced more +:+ trail)
  = spaced (singleSpaced more) +:+ (if Js.nonEmpty trail then " " else EmptyString).
Proof.
  intros Hmore Htrail. induction Hmore as [|[gap next] more (Hne & Hgap & Hnext) _ IH].
  - cbn [spaced singleSpaced map]. rewrite !append_nil_l.
    by apply replaceWhiteSpaceRuns_trail.
  - cbn [spaced singleSpaced map fst snd] in *. fold (singleSpaced more).
    rewrite !append_assoc.
    rewrite replaceWhiteSpaceRuns_blank by done.
    rewrite replaceWhiteSpaceRuns_word by done.
    rewrite IH. by rewrite append_cons, append_nil_l.
Qed.

Lemma trimStart_word w rest : word w = true -> trimStart (w +:+ rest) = w +:+ rest.
Proof.
  unfold word. destruct w as [|c w]; [done|]. cbn [Js.nonEmpty allChars andb].
  intros [Hc%negb_true_iff _]%andb_true_iff.
  rewrite append_cons. cbn [trimStart]. by rewrite Hc.
Qed.

Lemma trimEnd_blank g : blank g = true -> trimEnd g = EmptyString.
Proof.
  unfold blank. induction g as [|c g IH]; [done|].
  cbn [allChars]. intros [Hc Hg]%andb_true_iff.
  cbn [trimEnd]. by rewrite IH, Hc.
Qed.

Lemma trimEnd_cons c s :
  Js.nonEmpty (trimEnd s) = true -> trimEnd (String c s) = String c (trimEnd s).
Proof. cbn [trimEnd]. by destruct (trimEnd s). Qed.

Lemma trimEnd_app s t :
  Js.nonEmpty (trimEnd t) = true -> trimEnd (s +:+ t) = s +:+ trimEnd t.
Proof.
  intros Ht. induction s as [|c s IH]; [done|].
  rewrite !append_cons, trimEnd_cons; [by rewrite IH|].
  rewrite IH. by apply nonEmpty_app_r.
Qed.

Lemma trimEnd_letters c w trail :
  Js.isWhiteSpace c = false ->
  allChars (fun c => negb (Js.isWhiteSpace c)) w = true ->
  blank trail = true ->
  trimEnd (String c w +:+ trail) = String c w.
Proof.
  revert c. induction w as [|d w IH]; intros c Hc Hw Htrail.
  - rewrite append_cons, append_nil_l. cbn [trimEnd].
    by rewrite trimEnd_blank, Hc.
  - cbn [allChars] in Hw. apply andb_true_iff in Hw as [Hd%negb_true_iff Hw].
    rewrite append_cons, trimEnd_cons; by rewrite IH.
Qed.

Lemma trimEnd_word w trail :
  word w = true -> blank trail = true -> trimEnd (w +:+ trail) = w.
Proof.
  unfold word. destruct w as [|c w]; [done|]. cbn [Js.nonEmpty allChars andb].
  intros [Hc%negb_true_iff Hw]%andb_true_iff Htrail. by apply trimEnd_letters.
Qed.

Lemma word_nonEmpty w : word w = true -> Js.nonEmpty w = true.
Proof. unfold word. by intros [? _]%andb_true_iff. Qed.

Lemma word_not_blank w : word w = true -> blank w = false.
Proof.
  unfold word, blank. destruct w as [|c w]; [done|]. cbn [Js.nonEmpty allChars andb].
  intros [Hc%negb_true_iff _]%andb_true_iff. by rewrite Hc.
Qed.

Lemma trimEnd_spaced more :
  gapped more ->
  forall first trail,
    word first = true ->
    blank trail = true ->
    trimEnd (first +:+ spaced more +:+ trail) = first +:+ spaced more.
Proof.
  intros Hmore. induction Hmore as [|[gap next] more (Hne & Hgap & Hnext) _ IH];
    intros first trail Hfirst Htrail.
  - cbn [spaced]. rewrite append_nil_l, append_nil_r. by apply trimEnd_word.
  - cbn [spaced fst snd] in *.
    replace (first +:+ (gap +:+ next +:+ spaced more) +:+ trail)
      with ((first +:+ gap) +:+ (next +:+ spaced more +:+ trail))
      by (by rewrite !append_assoc).
    rewrite trimEnd_app; rewrite IH by done.
    + by rewrite !append_assoc.
    + by apply nonEmpty_app_l, word_nonEmpty.
Qed.

Lemma singleSpaced_gapped more : gapped more -> gapped (singleSpaced more).
Proof.
  unfold gapped, singleSpaced. intros Hmore.
  change (map ?f more) with (f <$> more). rewrite Forall_fmap.
  eapply Forall_impl; [exact Hmore|].
  intros [gap next] (_ & _ & Hnext). done.
Qed.

Lemma singleSpaced_idemp more : singleSpaced (singleSpaced more) = singleSpaced more.
Proof. unfold singleSpaced. rewrite map_map. done. Qed.

(** [cleanText] on a text with a word in it. *)
Lemma cleanText_laidOut lead first more trail :
  blank lead = true ->
  word first = true ->
  gapped more ->
  blank trail = true ->
  cleanText (Some (lead +:+ first +:+ spaced more +:+ trail))
  = Some (first +:+ spaced (singleSpaced more)).
Proof.
  intros Hlead Hfirst Hmore Htrail. unfold cleanText.
  replace (Js.truthy (Some (lead +:+ first +:+ spaced more +:+ trail))) with true
    by (symmetry; by apply nonEmpty_app_r, nonEmpty_app_l, word_nonEmpty).
  cbn [negb default from_option id]. f_equal.
  set (tail := if Js.nonEmpty trail then " " else EmptyString).
  assert (Htail : blank tail = true) by (unfold tail; by destruct (Js.nonEmpty trail)).
  assert (Hrest : forall inRun,
             replaceWhiteSpaceRuns inRun (first +:+ spaced more +:+ trail)
             = first +:+ spaced (singleSpaced more) +:+ tail).
  { intros inRun. rewrite replaceWhiteSpaceRuns_word by done.
    by rewrite replaceWhiteSpaceRuns_spaced. }
  assert (Htrim : trim (first +:+ spaced (singleSpaced more) +:+ tail)
                  = first +:+ spaced (singleSpaced more)).
  { unfold trim. rewrite trimStart_word by done.
    by apply trimEnd_spaced; [apply singleSpaced_gapped|..]. }
  destruct (Js.nonEmpty lead) eqn:Hne.
  - rewrite replaceWhiteSpaceRuns_blank, Hrest by done.
    unfold trim. cbn [trimStart]. change (Js.isWhiteSpace " ") with true. exact Htrim.
  - destruct lead; [|done]. by rewrite append_nil_l, Hrest.
Qed.

Lemma cleanText_blank text :
  Js.nonEmpty text = true -> blank text = true -> cleanText (Some text) = Some EmptyString.
Proof.
  intros Hne Hblank. unfold cleanText. cbn [Js.truthy default from_option id]. rewrite Hne. cbn [negb].
  rewrite replaceWhiteSpaceRuns_trail, Hne by done. done.
Qed.

(** Every text is white space only, or has a first word. *)
Lemma text_layout s :
  blank s = true
  \/ exists lead first more trail,
       blank lead = true /\ word first = true /\ gapped more /\ blank trail = true
       /\ s = lead +:+ first +:+ spaced more +:+ trail.
Proof.
  induction s as [|c s IH]; [by left|].
  destruct (Js.isWhiteSpace c) eqn:Hc.
  - destruct IH as [Hs|(lead & first & more & trail & Hlead & Hfirst & Hmore & Htrail & ->)].
    + left. unfold blank in *. cbn [allChars]. by rewrite Hc.
    + right. exists (String c lead), first, more, trail.
      repeat split; try done. unfold blank in *. cbn [allChars]. by rewrite Hc.
  - right.
    destruct IH as [Hs|(lead & first & more & trail & Hlead & Hfirst & Hmore & Htrail & ->)].
    + exists EmptyString, (String c EmptyString), [], s.
      repeat split; try done.
      * unfold word. cbn [Js.nonEmpty allChars andb]. by rewrite Hc.
      * constructor.
    + destruct lead as [|d lead].
      * exists EmptyString, (String c first), more, trail.
        repeat split; try done.
        unfold word in *. cbn [Js.nonEmpty allChars andb]. rewrite Hc. cbn [negb andb].
        by apply andb_true_iff in Hfirst as [_ ?].
      * exists EmptyString, (String c EmptyString), ((String d lead, first) :: more), trail.
        repeat split; try done.
        -- unfold word. cbn [Js.nonEmpty allChars andb]. by rewrite Hc.
        -- by constructor.
        -- cbn [spaced]. rewrite !append_nil_l, !append_cons, append_nil_l.
           by rewrite !append_assoc.
Qed.

(** X23. [cleanText] keeps the words of a text and puts one space between
    two of them: the white space before the first word and after the last
    is dropped, and every run of white space between two words, of
    whatever length and kind, becomes one space. *)
Theorem cleanText_single_spaces lead first more trail :
  blank lead = true ->
  word first = true ->
  gapped more ->
  blank trail = true ->
  cleanText (Some (lead +:+ first +:+ spaced more +:+ trail))
  = Some (first +:+ spaced (singleSpaced more)).
Proof. apply cleanText_laidOut. Qed.

Lemma cleanText_single_spaces_witness :
  cleanText (Some "  John   Doe ") = Some "John Doe".
Proof.
  apply (cleanText_single_spaces "  " "John" [("   ", "Doe")] " "); try reflexivity.
  constructor; [done|constructor].
Defined.

(** The results of [cleanText]. *)
Lemma cleanText_shape text :
  match cleanText text with
  | None => Js.truthy text = false
  | Some cleaned =>
      exists raw,
        text = Some raw
        /\ Js.nonEmpty raw = true
        /\ (blank raw = true /\ cleaned = EmptyString /\ cleanText (Some cleaned) = None
            \/ blank raw = false /\ tidy cleaned /\ cleanText (Some cleaned) = Some cleaned)
  end.
Proof.
  destruct text as [raw|]; [|done].
  destruct (Js.nonEmpty raw) eqn:Hne.
  2:{ unfold cleanText. cbn [Js.truthy]. by rewrite Hne. }
  destruct (text_layout raw)
    as [Hblank|(lead & first & more & trail & Hlead & Hfirst & Hmore & Htrail & ->)].
  - rewrite cleanText_blank by done. exists raw. repeat split; try done. by left.
  - rewrite cleanText_laidOut by done.
    eexists. split; [reflexivity|]. split; [done|]. right.
    split; [|split].
    + unfold blank. rewrite !allChars_app. fold (blank first).
      rewrite (word_not_blank first Hfirst). by rewrite andb_false_r.
    + by exists first, more.
    + rewrite <- (append_nil_r (spaced (singleSpaced more))).
      rewrite <- (append_nil_l (first +:+ _)).
      rewrite cleanText_laidOut; try done.
      * by rewrite singleSpaced_idemp, append_nil_r.
      * by apply singleSpaced_gapped.
Qed.

(** X24. [cleanText] gives null exactly for a text that is missing or
    empty. For any other text it gives the empty text when the text is
    white space only, and otherwise a text of words one space apart, which
    a second [cleanText] leaves as it is. A second [cleanText] of the empty
    text gives null. *)
Theorem cleanText_normal_form text :
  match cleanText text with
  | None => Js.truthy text = false
  | Some cleaned =>
      exists raw,
        text = Some raw
        /\ Js.nonEmpty raw = true
        /\ (blank raw = true /\ cleaned = EmptyString /\ cleanText (Some cleaned) = None
            \/ blank raw = false /\ tidy cleaned /\ cleanText (Some cleaned) = Some cleaned)
  end.
Proof. apply cleanText_shape. Qed.

(** ** The scraping service: isCommonEmail *)

Lemma split_lacks separator s :
  lacks separator s = true -> split separator s = [s].
Proof.
  unfold lacks. induction s as [|c s IH]; [done|].
  cbn [allChars]. intros [Hc%negb_true_iff Hs]%andb_true_iff.
  cbn [split]. by rewrite Hc, IH.
Qed.

Lemma split_first separator s rest :
  lacks separator s = true ->
  split separator (s +:+ String separator rest) = s :: split separator rest.
Proof.
  unfold lacks. induction s as [|c s IH].
  - intros _. rewrite append_nil_l. cbn [split]. by rewrite Ascii.eqb_refl.
  - cbn [allChars]. intros [Hc%negb_true_iff Hs]%andb_true_iff.
    rewrite append_cons. cbn [split]. by rewrite Hc, IH.
Qed.

(** Every text has a first piece. *)
Lemma first_piece separator s :
  exists piece,
    lacks separator piece = true
    /\ (s = piece \/ exists rest, s = piece +:+ String separator rest).
Proof.
  induction s as [|c s (piece & Hpiece & Hs)]; [exists EmptyString; by auto|].
  destruct (Ascii.eqb c separator) eqn:Hc.
  - apply Ascii.eqb_eq in Hc as ->. exists EmptyString. split; [done|].
    right. by exists s.
  - exists (String c piece). split.
    + unfold lacks in *. cbn [allChars]. by rewrite Hc.
    + destruct Hs as [->|(rest & ->)]; [by left|right]. by exists rest.
Qed.

Lemma commonDomains_lack_at domain :
  Js.arrayIncludes commonDomains domain = true -> lacks "@" domain = true.
Proof.
  unfold Js.arrayIncludes, commonDomains. cbn [existsb].
  rewrite !orb_true_iff, !String.eqb_eq.
  intros [ -> | [ -> | [ -> | [ -> | ? ]]]]; try discriminate; reflexivity.
Qed.

(** X25. [isCommonEmail] looks at the text between the first and the
    second [@] of the address, or between the first [@] and the end when
    there is no second: the address is common exactly when that text is,
    letter for letter, one of the four listed domains. An address without
    [@] is not common. *)
Theorem isCommonEmail_domain email :
  isCommonEmail email = true
  <-> exists localPart domain rest,
        email = localPart +:+ "@" +:+ domain +:+ rest
        /\ lacks "@" localPart = true
        /\ Js.arrayIncludes commonDomains domain = true
        /\ (rest = EmptyString \/ exists further, rest = String "@" further).
Proof.
  unfold isCommonEmail. split.
  - destruct (first_piece "@" email) as (localPart & Hlocal & [->|(tail & ->)]).
    { by rewrite split_lacks. }
    rewrite split_first by done. cbn [lookup list_lookup].
    destruct (first_piece "@" tail) as (domain & Hdomain & [->|(further & ->)]).
    + rewrite split_lacks by done. cbn [lookup list_lookup]. intros Hcommon.
      exists localPart, domain, EmptyString. rewrite append_nil_r. auto.
    + rewrite split_first by done. cbn [lookup list_lookup]. intros Hcommon.
      exists localPart, domain, (String "@" further). repeat split; eauto.
  - intros (localPart & domain & rest & -> & Hlocal & Hcommon & Hrest).
    pose proof (commonDomains_lack_at domain Hcommon) as Hdomain.
    change ("@" +:+ domain +:+ rest) with (String "@" (domain +:+ rest)).
    rewrite split_first by done. cbn [lookup list_lookup].
    destruct Hrest as [->|(further & ->)].
    + rewrite append_nil_r, split_lacks by done. done.
    + rewrite split_first by done. done.
Qed.

(** ** The scraping service: scrapeLinkedInProfiles *)

Section ScrapeProperties.

Variable emailValidatorValidate : string -> bool.
Variable scrapeLinkedInPage : nat -> JsError + list Profile.t.
Variable delayMs : nat.

Lemma validProfiles_length profiles :
  length (validProfiles emailValidatorValidate profiles) <= length profiles.
Proof.
  unfold validProfiles. induction profiles as [|profile profiles IH]; [done|].
  cbn [omap list_omap]. destruct (validateProfile _ profile) as [[] ?]; simpl; lia.
Qed.

Lemma validProfiles_elem cleaned profiles :
  cleaned ∈ validProfiles emailValidatorValidate profiles ->
  exists profile,
    profile ∈ profiles /\ validateProfile emailValidatorValidate profile = (true, cleaned).
Proof.
  unfold validProfiles. rewrite list_elem_of_omap.
  intros (profile & Hin & Hvalid). exists profile. split; [done|].
  destruct (validateProfile _ profile) as [[] cleaned']; [|discriminate].
  by injection Hvalid as ->.
Qed.

Lemma acceptedFrom_more pages pages' cleaned :
  pages ⊆ pages' ->
  acceptedFrom emailValidatorValidate scrapeLinkedInPage pages cleaned ->
  acceptedFrom emailValidatorValidate scrapeLinkedInPage pages' cleaned.
Proof.
  intros Hsub (page & profiles & profile & Hpage & Hrest).
  exists page, profiles, profile. split; [by apply Hsub|done].
Qed.

(** The loop from [page] on: it ends within the turns left up to page 10,
    asks for consecutive pages, keeps the number of results within
    [maxResults], and adds accepted profiles only. *)
Lemma scrapeLoop_run maxResults jobId fuel :
  forall results page totalProcessed jobs,
    11 - page <= fuel ->
    length results <= maxResults ->
    exists added totalProcessed' jobs' events pages,
      scrapeLoop emailValidatorValidate scrapeLinkedInPage delayMs fuel maxResults jobId
        results page totalProcessed jobs
      = Some (results ++ added, totalProcessed', jobs', events)
      /\ length (results ++ added) <= maxResults
      /\ totalProcessed + length added <= totalProcessed'
      /\ pagesOf events = seq page pages
      /\ page + pages <= 11 `max` page
      /\ (forall other, other <> jobId -> jobs' !! other = jobs !! other)
      /\ Forall (acceptedFrom emailValidatorValidate scrapeLinkedInPage (pagesOf events)) added.
Proof.
  induction fuel as [|fuel IH]; intros results page totalProcessed jobs Hfuel Hmax.
  - exists [], totalProcessed, jobs, [], 0. rewrite app_nil_r.
    cbn [scrapeLoop].
    replace (page <=? 10) with false by (symmetry; apply Nat.leb_gt; lia).
    rewrite andb_false_r.
    split; [done|]. split; [done|]. split; [simpl; lia|]. split; [done|].
    split; [lia|]. split; [done|constructor].
  - cbn [scrapeLoop].
    destruct ((length results <? maxResults) && (page <=? 10)) eqn:Hcond.
    2:{ exists [], totalProcessed, jobs, [], 0. rewrite app_nil_r.
        split; [done|]. split; [done|]. split; [simpl; lia|]. split; [done|].
        split; [lia|]. split; [done|constructor]. }
    apply andb_true_iff in Hcond as [Hless%Nat.ltb_lt Hpage%Nat.leb_le].
    destruct (scrapeLinkedInPage page) as [pageError|profiles] eqn:Hscrape.
    + destruct (IH results (S page) totalProcessed jobs)
        as (added & totalProcessed' & jobs' & events & pages
            & -> & Hlen & Htotal & Hpages & Hlast & Hjobs & Hadded); [lia|done|].
      exists added, totalProcessed', jobs', (Requested page :: events), (S pages).
      cbn [pagesOf omap list_omap]. fold (pagesOf events). rewrite Hpages.
      split; [done|]. split; [done|]. split; [done|]. split; [done|].
      split; [lia|]. split; [done|].
      eapply Forall_impl; [exact Hadded|]. intros cleaned.
      apply acceptedFrom_more. rewrite <- Hpages. intros x Hx. by right.
    + destruct (length profiles =? 0) eqn:Hempty.
      { exists [], totalProcessed, jobs, [Requested page], 1. rewrite app_nil_r.
        split; [done|]. split; [done|]. split; [simpl; lia|]. split; [done|].
        split; [lia|]. split; [done|constructor]. }
      set (filtered := take (maxResults - length results)
                         (validProfiles emailValidatorValidate profiles)).
      assert (Hfiltered : length filtered <= maxResults - length results
                          /\ length filtered <= length profiles).
      { unfold filtered. rewrite length_take.
        pose proof (validProfiles_length profiles). lia. }
      match goal with |- context [scrapeLoop _ _ _ fuel _ _ _ _ ?tp ?j] =>
        destruct (IH (results ++ filtered) (S page) tp j)
          as (added & totalProcessed' & jobs' & events & pages
              & -> & Hlen & Htotal & Hpages & Hlast & Hjobs & Hadded);
          [lia|rewrite length_app; lia|]
      end.
      exists (filtered ++ added), totalProcessed', jobs',
        (Requested page :: Waited delayMs :: events), (S pages).
      cbn [pagesOf omap list_omap]. fold (pagesOf events). rewrite Hpages.
      rewrite !app_assoc. split; [done|].
      rewrite <- !app_assoc in *. rewrite !length_app in *.
      split; [lia|]. split; [lia|]. split; [done|]. split; [lia|].
      split.
      * intros other Hother. rewrite Hjobs by done. by rewrite lookup_insert_ne.
      * apply Forall_app. split.
        -- apply Forall_forall. intros cleaned Hin.
           apply elem_of_take in Hin as (j & Hin%list_elem_of_lookup_2 & _).
           apply validProfiles_elem in Hin as (profile & Hprofile & Hvalid).
           exists page, profiles, profile. split; [by left|done].
        -- eapply Forall_impl; [exact Hadded|]. intros cleaned.
           apply acceptedFrom_more. rewrite <- Hpages. intros x Hx. by right.
Qed.

(** X26. [scrapeLinkedInProfiles] always comes to an end with the status
    [completed], whatever the pages give and however many of them cannot be
    read. It asks for page 1, 2, ... in turn and for at most ten pages; it
    returns at most [maxResults] profiles, and [totalFound] is their
    number, which is at most [totalProcessed]. When it returns, the job it
    started is recorded as completed with a progress of 100, under the
    identifier it returns, and the other jobs are as they were. *)
Theorem scrapeLinkedInProfiles_bounds now maxResults activeScrapingJobs :
  exists result jobs events pages,
    scrapeLinkedInProfiles emailValidatorValidate scrapeLinkedInPage delayMs now maxResults
      activeScrapingJobs
    = Some (result, jobs, events)
    /\ Scraped.jobId result = "linkedin_" +:+ now
    /\ Scraped.status result = "completed"
    /\ length (Scraped.profiles result) <= default 50 maxResults
    /\ Scraped.totalFound result = length (Scraped.profiles result)
    /\ Scraped.totalFound result <= Scraped.totalProcessed result
    /\ pagesOf events = seq 1 pages
    /\ pages <= 10
    /\ getJobStatus jobs (Scraped.jobId result) = completed
    /\ forall other,
         other <> Scraped.jobId result ->
         getJobStatus jobs other = getJobStatus activeScrapingJobs other.
Proof.
  unfold scrapeLinkedInProfiles.
  match goal with |- context [scrapeLoop _ _ _ 10 ?m ?id [] 1 0 ?j] =>
    destruct (scrapeLoop_run m id 10 [] 1 0 j)
      as (added & totalProcessed & jobs & events & pages
          & -> & Hlen & Htotal & Hpages & Hlast & Hjobs & _); [lia|simpl; lia|]
  end.
  eexists _, _, events, pages. split; [reflexivity|]. cbn [Scraped.jobId Scraped.status
    Scraped.profiles Scraped.totalFound Scraped.totalProcessed].
  split; [done|]. split; [done|]. split; [done|]. split; [done|].
  split; [simpl in *; lia|]. split; [done|]. split; [lia|].
  unfold getJobStatus. split.
  - by rewrite lookup_insert_eq.
  - intros other Hother. rewrite lookup_insert_ne by done.
    rewrite Hjobs by done. by rewrite lookup_insert_ne.
Qed.

Lemma cleanText_clean text : clean (cleanText text).
Proof.
  pose proof (cleanText_shape text) as H. unfold clean.
  destruct (cleanText text) as [cleaned|]; [|done].
  destruct H as (raw & _ & _ & [(_ & -> & _)|(_ & Htidy & _)]); auto.
Qed.

(** X27. Every profile that [scrapeLinkedInProfiles] returns is what
    [validateProfile] made of a profile of one of the pages asked for: the
    name it had there was at least two characters long; its name, job
    title, company and location are cleaned, each missing, empty or words
    one space apart; and its address is missing, empty or accepted by the
    validator. *)
Theorem scrapeLinkedInProfiles_profiles now maxResults activeScrapingJobs result jobs events :
  scrapeLinkedInProfiles emailValidatorValidate scrapeLinkedInPage delayMs now maxResults
    activeScrapingJobs
  = Some (result, jobs, events) ->
  Forall (fun cleaned =>
            (exists page profiles profile rawName,
                page ∈ pagesOf events
                /\ scrapeLinkedInPage page = inr profiles
                /\ profile ∈ profiles
                /\ Profile.name profile = Some rawName
                /\ 2 <= String.length rawName
                /\ Profile.name cleaned = cleanText (Some rawName)
                /\ Profile.linkedinUrl cleaned = Profile.linkedinUrl profile)
            /\ clean (Profile.name cleaned)
            /\ clean (Profile.jobTitle cleaned)
            /\ clean (Profile.company cleaned)
            /\ clean (Profile.location cleaned)
            /\ checkedEmail emailValidatorValidate (Profile.email cleaned))
    (Scraped.profiles result).
Proof.
  unfold scrapeLinkedInProfiles.
  match goal with |- context [scrapeLoop _ _ _ 10 ?m ?id [] 1 0 ?j] =>
    destruct (scrapeLoop_run m id 10 [] 1 0 j)
      as (added & totalProcessed & jobs' & events' & pages
          & -> & _ & _ & _ & _ & _ & Hadded); [lia|simpl; lia|]
  end.
  intros [= <- <- <-]. cbn [Scraped.profiles app].
  eapply Forall_impl; [exact Hadded|].
  intros cleaned (page & profiles & profile & Hpage & Hscrape & Hin & Hvalid).
  unfold validateProfile in Hvalid.
  destruct (negb (Js.truthy (Profile.name profile)) || _) eqn:Hname; [discriminate|].
  injection Hvalid as <-. cbn [Profile.name Profile.jobTitle Profile.company
    Profile.location Profile.linkedinUrl Profile.email].
  apply orb_false_iff in Hname as [Htruthy%negb_false_iff Hlong%Nat.ltb_ge].
  destruct (Profile.name profile) as [rawName|] eqn:Hraw; [|discriminate].
  split; [by exists page, profiles, profile, rawName|].
  split; [apply cleanText_clean|]. split; [apply cleanText_clean|].
  split; [apply cleanText_clean|]. split; [apply cleanText_clean|].
  unfold checkedEmail. destruct (Profile.email profile) as [address|]; [|done].
  destruct (Js.nonEmpty address) eqn:Hne; cbn [andb].
  - destruct (emailValidatorValidate address) eqn:Hok; cbn [negb]; [by right|done].
  - left. by destruct address.
Qed.

End ScrapeProperties.

Lemma scrapeLinkedInProfiles_profiles_witness :
  Forall (fun cleaned =>
            (exists page profiles profile rawName,
                page ∈ [1; 2; 3]
                /\ twoPages page = inr profiles
                /\ profile ∈ profiles
                /\ Profile.name profile = Some rawName
                /\ 2 <= String.length rawName
                /\ Profile.name cleaned = cleanText (Some rawName)
                /\ Profile.linkedinUrl cleaned = Profile.linkedinUrl profile)
            /\ clean (Profile.name cleaned)
            /\ clean (Profile.jobTitle cleaned)
            /\ clean (Profile.company cleaned)
            /\ clean (Profile.location cleaned)
            /\ checkedEmail hasAt (Profile.email cleaned))
    [johnCleaned].
Proof.
  apply (scrapeLinkedInProfiles_profiles hasAt twoPages 2000 "1700000000000" (Some 5) ∅
           {| Scraped.jobId := "linkedin_1700000000000";
              Scraped.profiles := [johnCleaned];
              Scraped.totalFound := 1;
              Scraped.totalProcessed := 2;
              Scraped.status := "completed" |}
           (<["linkedin_1700000000000" := completed]>
              (<["linkedin_1700000000000" :=
                   {| Job.status := "running"; Job.progress := progressOf 1 5 |}]>
                 (<["linkedin_1700000000000" :=
                      {| Job.status := "running"; Job.progress := 0%Q |}]> ∅)))
           [Requested 1; Waited 2000; Requested 2; Requested 3]).
  reflexivity.
Defined.

(** ** Placeholders in any letter case *)

(** One turn of the loop on a text with one placeholder, in whatever
    letter case: the turn of its key, and the turn of another key. *)
Lemma replaceAll_spelled k v before spelled rest :
  braceFree before = true ->
  braceFree rest = true ->
  spells spelled k ->
  plainValue v = true ->
  replaceAll (placeholder (keyName k)) v (before +:+ spelled +:+ rest)
  = before +:+ v +:+ rest.
Proof.
  intros Hbefore Hrest Hspelled Hv. unfold replaceAll.
  rewrite (placeholder_braces (keyName k)), replaceFrom_text by done.
  rewrite <- placeholder_braces, spelled_same by (done || by apply plainValue_noPattern).
  rewrite <- (append_nil_r rest) at 2.
  rewrite (placeholder_braces (keyName k)), replaceFrom_text by done.
  by rewrite append_nil_r.
Qed.

Lemma replaceAll_spelled_other k k' v before spelled rest :
  braceFree before = true ->
  braceFree rest = true ->
  spells spelled k ->
  k <> k' ->
  replaceAll (placeholder (keyName k')) v (before +:+ spelled +:+ rest)
  = before +:+ spelled +:+ rest.
Proof.
  intros Hbefore Hrest Hspelled Hk. unfold replaceAll.
  rewrite (placeholder_braces (keyName k')), replaceFrom_text by done.
  rewrite <- placeholder_braces, (spelled_other k k') by done.
  rewrite <- (append_nil_r rest) at 2.
  rewrite (placeholder_braces (keyName k')), replaceFrom_text by done.
  by rewrite append_nil_r.
Qed.

Lemma personalizeWith_subject entries acc :
  Personalized.subject (fold_left personalizeWith entries acc)
  = fold_left (fun s entry => replaceAll (placeholder entry.1) entry.2 s) entries
      (Personalized.subject acc).
Proof.
  revert acc. induction entries as [|entry entries IH]; intros acc; [done|].
  cbn [fold_left]. by rewrite IH.
Qed.

Lemma personalizeWith_text entries acc :
  Personalized.text (fold_left personalizeWith entries acc)
  = fold_left (fun s entry => replaceAll (placeholder entry.1) entry.2 s) entries
      (Personalized.text acc).
Proof.
  revert acc. induction entries as [|entry entries IH]; intros acc; [done|].
  cbn [fold_left]. by rewrite IH.
Qed.

(** All the turns of the loop on a text with one placeholder. *)
Lemma replaceAll_spelled_all value k before spelled rest ks :
  braceFree before = true ->
  braceFree rest = true ->
  spells spelled k ->
  plainValue (value k) = true ->
  fold_left (fun s entry => replaceAll (placeholder entry.1) entry.2 s)
    (map (fun k' => (keyName k', value k')) ks) (before +:+ spelled +:+ rest)
  = if existsb (fun k' => String.eqb (keyName k) (keyName k')) ks
    then before +:+ value k +:+ rest
    else before +:+ spelled +:+ rest.
Proof.
  intros Hbefore Hrest Hspelled Hv.
  assert (Hfilled : braceFree (before +:+ value k +:+ rest) = true).
  { rewrite !braceFree_app, Hbefore, Hrest, (plainValue_braceFree _ Hv). done. }
  assert (Hkept : forall ks',
             fold_left (fun s entry => replaceAll (placeholder entry.1) entry.2 s)
               (map (fun k' => (keyName k', value k')) ks') (before +:+ value k +:+ rest)
             = before +:+ value k +:+ rest).
  { induction ks' as [|k' ks' IH]; [done|]. cbn [map fold_left fst snd].
    by rewrite replaceAll_braceFree. }
  induction ks as [|k' ks IH]; [done|]. cbn [map fold_left existsb fst snd].
  destruct (String.eqb (keyName k) (keyName k')) eqn:Hk.
  - apply keyName_inj in Hk as <-.
    rewrite replaceAll_spelled by done. cbn [orb]. apply Hkept.
  - rewrite (replaceAll_spelled_other k k') by (done || by intros ->; rewrite String.eqb_refl in Hk).
    cbn [orb]. exact IH.
Qed.

(** X28. Placeholders are found in any letter case. Take a subject and a
    text body with one placeholder each, of one of the nine names and
    written in whatever mix of capital and small letters, between text
    without an opening brace, and for each a value that has neither an
    opening brace nor a dollar sign. Then each placeholder is replaced by
    its value, and the text around it is kept. *)
Theorem createPersonalizedEmail_any_letter_case
    template prospect campaignData k before spelled rest k' before' spelled' rest' :
  Template.subject template = before +:+ spelled +:+ rest ->
  braceFree before = true ->
  braceFree rest = true ->
  spells spelled k ->
  plainValue (valueOf prospect campaignData k) = true ->
  Template.content template = before' +:+ spelled' +:+ rest' ->
  braceFree before' = true ->
  braceFree rest' = true ->
  spells spelled' k' ->
  plainValue (valueOf prospect campaignData k') = true ->
  Personalized.subject (createPersonalizedEmail template prospect campaignData)
  = before +:+ valueOf prospect campaignData k +:+ rest
  /\ Personalized.text (createPersonalizedEmail template prospect campaignData)
     = before' +:+ valueOf prospect campaignData k' +:+ rest'.
Proof.
  intros Hsubject Hbefore Hrest Hspelled Hv Htext Hbefore' Hrest' Hspelled' Hv'.
  assert (Hkeys : forall key,
             existsb (fun k' => String.eqb (keyName key) (keyName k')) keys = true)
    by (by intros []).
  unfold createPersonalizedEmail. rewrite variables_valueOf.
  rewrite personalizeWith_subject, personalizeWith_text.
  cbn [Personalized.subject Personalized.text]. rewrite Hsubject, Htext.
  rewrite (replaceAll_spelled_all (valueOf prospect campaignData) k) by done.
  rewrite (replaceAll_spelled_all (valueOf prospect campaignData) k') by done.
  by rewrite !Hkeys.
Qed.

Lemma createPersonalizedEmail_any_letter_case_witness :
  Personalized.subject (createPersonalizedEmail shouting anaAtAcme noCampaign)
  = "Hi " +:+ valueOf anaAtAcme noCampaign FirstName +:+ "!"
  /\ Personalized.text (createPersonalizedEmail shouting anaAtAcme noCampaign)
     = "News for " +:+ valueOf anaAtAcme noCampaign Company +:+ EmptyString.
Proof.
  apply (createPersonalizedEmail_any_letter_case shouting anaAtAcme noCampaign
           FirstName "Hi " "{{FIRSTNAME}}" "!"
           Company "News for " "{{Company}}" EmptyString); reflexivity.
Defined.
